(** * Bio::Easel::MSA -- alignment analytics of [lib/Bio/Easel/MSA.c]

    A shallow embedding of the statistics helpers of [MSA.c]
    ([_c_bp_dist], [_c_bp_is_canonical], [_c_max_rna_two_letter_ambiguity],
    [_c_rfam_comp_and_len_stats], [_c_rfam_bp_stats], [_c_rfam_pid_stats],
    [_c_rfam_qc_stats], [_c_pairwise_identity], [_c_percent_coverage]),
    and the properties of them that the specification states.

    C [int] values are integers of [Z]; C [double] values are elements of a
    type [D] with the operations the source uses (class [Double]).  The
    embedding is written once over [D]; it is run on IEEE binary64 floats
    ([float], the arithmetic the compiled code performs) and on the
    rationals ([Q], the arithmetic without rounding).  Arrays are lists,
    read with [!!!] and updated with [alter] and [<[_:=_]>].  [croak] is an
    exception; an early [return status] is an exception carrying the status.
    The routines of the Easel library are an interface (class [EaselLib]).

    Beside them the development embeds the helpers of [MSA.c] that
    work on the alignment itself ([_c_int_copy_array_perl_to_c],
    [_c_reorder], [_c_any_allgap_columns], [_c_get_sqlen],
    [_c_count_residues], [_c_average_sqlen], [_c_is_residue],
    [_c_addGC_identity], [_c_set_blank_ss_cons]) and states what the code
    of each guarantees, as well as further guarantees of the statistics
    helpers (ranges, totals, error behaviour).  A Perl array is a list of
    optional scalars; a loop left by [break] is the index at which it stops.

    Left out: failure of [ESL_ALLOC] (every allocation succeeds), and the
    opening and formatting of the three output files of [_c_rfam_qc_stats]
    (the values printed are kept). *)

From Stdlib Require Import ZArith QArith Qabs Lia Lqa Ascii String.
From Stdlib Require Import Floats.PrimFloat Uint63.
From stdpp Require Import base numbers strings list.

Local Open Scope Z_scope.

(** ** The arithmetic of [double] *)

Class Double (D : Type) := {
  of_int : Z -> D;            (* (double) n *)
  dadd : D -> D -> D;         (* a + b *)
  dmul : D -> D -> D;         (* a * b *)
  ddiv : D -> D -> D;         (* a / b *)
  dlt  : D -> D -> bool;      (* a < b *)
  dle  : D -> D -> bool;      (* a <= b *)
  fabs : D -> D               (* fabs(a) *)
}.

Declare Scope dbl_scope.
Delimit Scope dbl_scope with D.
Notation "a + b" := (dadd a b) : dbl_scope.
Notation "a * b" := (dmul a b) : dbl_scope.
Notation "a / b" := (ddiv a b) : dbl_scope.
Notation "a <? b" := (dlt a b) : dbl_scope.
Notation "a >? b" := (dlt b a) : dbl_scope.
Notation "a <=? b" := (dle a b) : dbl_scope.

(** IEEE binary64.  [(double) n] for [|n| < 2^63]: exact below 2^53,
    rounded to nearest above. *)
Definition float_of_Z (z : Z) : float :=
  match z with
  | Z0 => PrimFloat.zero
  | Zpos _ => PrimFloat.of_uint63 (Uint63.of_Z z)
  | Zneg p => PrimFloat.opp (PrimFloat.of_uint63 (Uint63.of_Z (Zpos p)))
  end.

#[export] Instance Double_float : Double float := {
  of_int := float_of_Z;
  dadd := PrimFloat.add;
  dmul := PrimFloat.mul;
  ddiv := PrimFloat.div;
  dlt := PrimFloat.ltb;
  dle := PrimFloat.leb;
  fabs := PrimFloat.abs
}.

(** Exact arithmetic.  [Qdiv] by zero is [0]; no theorem below relies on it. *)
Definition Qlt_bool (a b : Q) : bool := negb (Qle_bool b a).

#[export] Instance Double_Q : Double Q := {
  of_int := inject_Z;
  dadd := Qplus;
  dmul := Qmult;
  ddiv := Qdiv;
  dlt := Qlt_bool;
  dle := Qle_bool;
  fabs := Qabs
}.

(** ** Helpers on residue codes *)

Definition TRUE : Z := 1.
Definition FALSE : Z := 0.

(** [_c_bp_dist]: number of differences between a1:b1 and a2:b2. *)
Definition _c_bp_dist (a1 b1 a2 b2 : Z) : Z :=
  if (a1 =? a2) && (b1 =? b2) then 0
  else if negb (a1 =? a2) && negb (b1 =? b2) then 2
  else 1.

(** [_c_bp_is_canonical]: the nested [switch] of the source. *)
Definition _c_bp_is_canonical (a b : Z) : Z :=
  match a with
  | 0 => match b with 3 => TRUE | _ => FALSE end
  | 1 => match b with 2 => TRUE | _ => FALSE end
  | 2 => match b with 1 => TRUE | 3 => TRUE | _ => FALSE end
  | 3 => match b with 0 => TRUE | 2 => TRUE | _ => FALSE end
  | 5 => match b with 6 => TRUE | _ => FALSE end
  | 6 => match b with 5 => TRUE | _ => FALSE end
  | 7 => match b with 8 => TRUE | _ => FALSE end
  | 8 => match b with 7 => TRUE | _ => FALSE end
  | 9 => match b with 9 => TRUE | _ => FALSE end
  | 10 => match b with 10 => TRUE | _ => FALSE end
  | _ => FALSE
  end.

(** The twelve ordered pairs listed in the header comment of
    [_c_bp_is_canonical]. *)
Definition canonical_table : list (Z * Z) :=
  [(0,3); (3,0); (1,2); (2,1); (2,3); (3,2);
   (5,6); (6,5); (7,8); (8,7); (9,9); (10,10)].

(** A C [int] used as a condition. *)
Definition truthy (c : Z) : bool := negb (c =? 0).

Section Ambiguity.
Context {D : Type} `{Double D}.
Local Open Scope dbl_scope.

(** [_c_max_rna_two_letter_ambiguity]: returns [( *ret_max_2l, *ret_max_2l_frac )].
    The 'R' branch stores [(act + cct) / sum], as the source does. *)
Definition _c_max_rna_two_letter_ambiguity (act cct gct uct : D) : ascii * D :=
  let sum := act + cct + gct + uct in
  let max_2l := "M"%char in
  let max_2l_frac := (act + cct) / sum in
  let '(max_2l, max_2l_frac) :=
    if ((act + gct) / sum) >? max_2l_frac
    then ("R"%char, (act + cct) / sum) else (max_2l, max_2l_frac) in
  let '(max_2l, max_2l_frac) :=
    if ((act + uct) / sum) >? max_2l_frac
    then ("W"%char, (act + uct) / sum) else (max_2l, max_2l_frac) in
  let '(max_2l, max_2l_frac) :=
    if ((cct + gct) / sum) >? max_2l_frac
    then ("S"%char, (cct + gct) / sum) else (max_2l, max_2l_frac) in
  let '(max_2l, max_2l_frac) :=
    if ((cct + uct) / sum) >? max_2l_frac
    then ("Y"%char, (cct + uct) / sum) else (max_2l, max_2l_frac) in
  let '(max_2l, max_2l_frac) :=
    if ((gct + uct) / sum) >? max_2l_frac
    then ("K"%char, (gct + uct) / sum) else (max_2l, max_2l_frac) in
  (max_2l, max_2l_frac).

End Ambiguity.


(** ** Easel constants ([easel.h], [esl_msa.h], [esl_alphabet.h]) *)

Definition eslOK : Z := 0.
Definition eslEINVAL : Z := 11.
Definition eslESYNTAX : Z := 15.
Definition eslMSA_DIGITAL : Z := Z.shiftl 1 1.
Definition eslDSQ_SENTINEL : Z := 255.

(** [ESL_MIN(a,b)] is [(((a)<(b))?(a):(b))], [ESL_MAX(a,b)] is
    [(((a)>(b))?(a):(b))]; one copy for [int], one for [double]. *)
Definition ESL_MIN (a b : Z) : Z := if a <? b then a else b.
Definition ESL_MAX (a b : Z) : Z := if a >? b then a else b.

(** The product [nseq * (nseq-1)] is computed in 32-bit [int]. *)
Definition wrap_int (z : Z) : Z := (z + 2 ^ 31) mod 2 ^ 32 - 2 ^ 31.
Definition INT_MAX : Z := 2 ^ 31 - 1.

(** ** Results: a value, or the exception of [croak] / an early [return status] *)

Inductive outcome (E A : Type) : Type :=
  | Done (a : A)
  | Raise (e : E).
Arguments Done {E A} a.
Arguments Raise {E A} e.

#[export] Instance outcome_ret {E} : MRet (outcome E) := fun A a => Done a.
#[export] Instance outcome_bind {E} : MBind (outcome E) :=
  fun A B f m => match m with Done a => f a | Raise e => Raise e end.

(** [croak(msg)]: the Perl exception, carrying its format string. *)
Abbreviation result := (outcome string).
Definition croak {A} (msg : string) : result A := Raise msg.

(** A [for] loop whose body may leave the function. *)
Fixpoint for_each {E S A} (l : list A) (body : S -> A -> outcome E S) (s : S)
  : outcome E S :=
  match l with
  | [] => Done s
  | a :: l' => s' ← body s a; for_each l' body s'
  end.

(** ** The alignment *)

(** [ESL_ALPHABET]: [K] canonical residues, [Kp] symbols in all;
    [degen[x][y]] tells whether symbol [x] stands for residue [y]. *)
Record ESL_ALPHABET := {
  K : Z;
  Kp : Z;
  degen : list (list Z);
  ndegen : list Z
}.

(** [ESL_MSA]: the fields the statistics read.  [ax[i]] has [alen+2]
    entries, the residues at [1..alen] between two sentinels. *)
Record ESL_MSA (D : Type) := {
  aseq : list string;
  sqname : list string;
  wgt : list D;
  alen : Z;
  nseq : Z;
  flags : Z;
  abc : ESL_ALPHABET;
  ax : list (list Z);
  name : string;
  ss_cons : string
}.
Arguments aseq {D} _.
Arguments sqname {D} _.
Arguments wgt {D} _.
Arguments alen {D} _.
Arguments nseq {D} _.
Arguments flags {D} _.
Arguments abc {D} _.
Arguments ax {D} _.
Arguments name {D} _.
Arguments ss_cons {D} _.

(** ** The routines of the Easel library that [MSA.c] calls

    They are not part of [MSA.c]; the embedding takes them as an interface.
    A status is returned together with what the routine writes through its
    pointer arguments. *)
Class EaselLib (D : Type) := {
  esl_abc_XIsResidue : ESL_ALPHABET -> Z -> bool;
  esl_abc_XIsDegenerate : ESL_ALPHABET -> Z -> bool;
  (* (abc, ct, x, wt) |-> (status, ct) *)
  esl_abc_DCount : ESL_ALPHABET -> list D -> Z -> D -> Z * list D;
  (* (abc, ax1, ax2) |-> (status, *opt_pid) *)
  esl_dst_XPairId : ESL_ALPHABET -> list Z -> list Z -> Z * D;
  (* (asq1, asq2) |-> (status, *opt_pid) *)
  esl_dst_CPairId : string -> string -> Z * D;
  (* (vec, n) |-> sum *)
  esl_vec_DSum : list D -> Z -> D;
  (* ss1 |-> ss2 *)
  esl_wuss_nopseudo : string -> string;
  (* (ss, len) |-> (status, ct[0..len]) *)
  esl_wuss2ct : string -> Z -> Z * list Z
}.

(** Reading an array of [double] outside its bounds yields [0.] in the model. *)
#[export] Instance Double_inhabited {D : Type} `{Double D} : Inhabited D | 100 :=
  populate (of_int 0).

(** ** The statistics of [MSA.c] *)

Section Engine.
Context {D : Type} `{Double D} `{EaselLib D}.
Local Open Scope dbl_scope.

(** The literal [1E-10]: on binary64 the correctly rounded quotient of the
    exact values 1 and 10^10 is the double nearest to 10^-10. *)
Definition lit_1E_10 : D := of_int 1 / of_int 10000000000.

Definition dESL_MIN (a b : D) : D := if a <? b then a else b.
Definition dESL_MAX (a b : D) : D := if a >? b then a else b.

(** [ESL_ALLOC] of [n] entries followed by [esl_vec_DSet]/[esl_vec_ISet]. *)
Definition esl_vec_DSet (n : Z) (v : D) : list D := replicate (Z.to_nat n) v.
Definition esl_vec_ISet (n : Z) (v : Z) : list Z := replicate (Z.to_nat n) v.

(** [esl_vec_DAdd(vec1, vec2, n)]: [vec1[k] += vec2[k]] for [k < n]. *)
Definition esl_vec_DAdd (vec1 vec2 : list D) (n : Z) : list D :=
  zip_with dadd (take (Z.to_nat n) vec1) (take (Z.to_nat n) vec2)
    ++ drop (Z.to_nat n) vec1.

(** [esl_vec_ISum(vec, n)]. *)
Definition esl_vec_ISum (vec : list Z) (n : Z) : Z :=
  fold_left Z.add (take (Z.to_nat n) vec) 0%Z.

(** [msa->ax[i][pos]] *)
Definition ax_at (msa : ESL_MSA D) (i pos : nat) : Z := (ax msa !!! i) !!! pos.

(** [for (k = 0; k < n; k++)] *)
Definition upto (n : Z) : list nat := seq 0 (Z.to_nat n).

(** *** [_c_rfam_comp_and_len_stats] *)

Record comp_len_stats := {
  abcAA : list (list D);   (* [0..nseq-1][0..K] *)
  abc_totA : list D;       (* [0..K] *)
  lenA : list Z;           (* [0..nseq-1] *)
  len_tot : Z;
  len_min : Z;
  len_max : Z
}.

(** Body of the loop over [apos]: [lenA[i]++] on a residue, then
    [esl_abc_DCount] on [abcAA[i]], for every column. *)
Definition comp_count_column (msa : ESL_MSA D) (i : nat) (seqwt : D)
    (st : list (list D) * list Z) (apos : nat) : result (list (list D) * list Z) :=
  let '(abcAA, lenA) := st in
  let lenA := if esl_abc_XIsResidue (abc msa) (ax_at msa i (apos + 1))
              then alter Z.succ i lenA else lenA in
  let '(status, row) :=
    esl_abc_DCount (abc msa) (abcAA !!! i) (ax_at msa i (apos + 1)) seqwt in
  if negb (status =? eslOK)%Z
  then croak "problem counting residue %d of seq %d"
  else Done (<[i := row]> abcAA, lenA).

(** Body of the loop over [i]. *)
Definition comp_sequence (msa : ESL_MSA D) (st : comp_len_stats) (i : nat)
  : result comp_len_stats :=
  let seqwt := wgt msa !!! i in
  '(abcAA', lenA') ← for_each (upto (alen msa)) (comp_count_column msa i seqwt)
                              (abcAA st, lenA st);
  Done {| abcAA := abcAA';
          abc_totA := esl_vec_DAdd (abc_totA st) (abcAA' !!! i) (K (abc msa) + 1);
          lenA := lenA';
          len_tot := (len_tot st + lenA' !!! i)%Z;
          len_min := if (i =? 0)%nat then lenA' !!! i
                     else ESL_MIN (len_min st) (lenA' !!! i);
          len_max := if (i =? 0)%nat then lenA' !!! i
                     else ESL_MAX (len_max st) (lenA' !!! i) |}.

Definition _c_rfam_comp_and_len_stats (msa : ESL_MSA D) : result comp_len_stats :=
  if negb (truthy (Z.land (flags msa) eslMSA_DIGITAL))
  then croak "_c_rfam_comp_stats() contract violation, MSA is not digitized"
  else
    for_each (upto (nseq msa)) (comp_sequence msa)
      {| abcAA := replicate (Z.to_nat (nseq msa))
                    (esl_vec_DSet (K (abc msa) + 1) (of_int 0));
         abc_totA := esl_vec_DSet (K (abc msa) + 1) (of_int 0);
         lenA := esl_vec_ISet (nseq msa) 0%Z;
         len_tot := 0%Z; len_min := 0%Z; len_max := 0%Z |}.

(** The codes of row [i] in column order, and what the two statements of the
    loop body make of them: the number of codes classified as residues, and
    the counts after [esl_abc_DCount] was called on every code in turn
    ([None] when a call fails). *)
Definition row_codes (msa : ESL_MSA D) (i : nat) : list Z :=
  map (fun apos => ax_at msa i (apos + 1)) (upto (alen msa)).

Definition residue_count (a : ESL_ALPHABET) (codes : list Z) : Z :=
  Z.of_nat (List.length (filter (fun x => esl_abc_XIsResidue a x = true) codes)).

Fixpoint dcount_all (a : ESL_ALPHABET) (wt : D) (ct : list D) (codes : list Z)
  : option (list D) :=
  match codes with
  | [] => Some ct
  | x :: codes' =>
      let '(status, ct') := esl_abc_DCount a ct x wt in
      if (status =? eslOK)%Z then dcount_all a wt ct' codes' else None
  end.

(** *** [_c_percent_coverage] *)

(** Body of the inner loop: a degenerate symbol is not counted. *)
Definition coverage_count (msa : ESL_MSA D) (i : nat)
    (abc_ct : list (list D)) (apos : nat) : outcome unit (list (list D)) :=
  if negb (esl_abc_XIsDegenerate (abc msa) (ax_at msa i (apos + 1)))
  then
    let '(status, row) :=
      esl_abc_DCount (abc msa) (abc_ct !!! apos) (ax_at msa i (apos + 1)) (of_int 1) in
    if negb (status =? eslOK)%Z then Raise tt
    else Done (<[apos := row]> abc_ct)
  else Done abc_ct.

(** The coverage ratios pushed on the Perl stack; [Raise tt] when the
    function returns nothing. *)
Definition _c_percent_coverage (msa : ESL_MSA D) : outcome unit (list D) :=
  if (nseq msa <=? 0)%Z then Raise tt
  else
    abc_ct ← for_each (upto (nseq msa))
               (fun abc_ct i => for_each (upto (alen msa)) (coverage_count msa i) abc_ct)
               (replicate (Z.to_nat (alen msa))
                  (esl_vec_DSet (K (abc msa) + 1) (of_int 0)));
    Done (map (fun apos =>
                 esl_vec_DSum (abc_ct !!! apos) (K (abc msa)) / of_int (nseq msa))
              (upto (alen msa))).

(** *** [_c_rfam_bp_stats] *)

(** The arrays filled by the loop over sequences. *)
Record bp_acc := {
  seq_canA : list Z;    (* [0..nseq-1] *)
  pos_canA : list Z;    (* [0..alen-1] *)
  covA : list D;        (* [0..alen-1] *)
  cov_cntA : list D     (* [0..alen-1] *)
}.

Record bp_stats := {
  ret_nbp : Z;
  ret_rposA : list Z;
  ret_seq_canA : list Z;
  ret_pos_canA : list Z;
  ret_covA : list D;
  ret_mean_cov : D
}.

(** Locate the basepairs: [ct] is indexed [1..alen], [rposA] [0..alen-1]. *)
Definition bp_locate (ct : list Z) (st : Z * list Z) (apos : nat) : Z * list Z :=
  let '(nbp, rposA) := st in
  if (ct !!! (apos + 1)%nat >? Z.of_nat apos + 1)%Z
  then ((nbp + 1)%Z, <[apos := (ct !!! (apos + 1)%nat - 1)%Z]> rposA)
  else (nbp, rposA).

(** Body of the loop over [j]: sequence [j] against pair a1:b1 of sequence [i]. *)
Definition bp_compare (msa : ESL_MSA D) (apos rpos : nat) (a1 b1 iscanonical1 : Z)
    (seqwt1 : D) (st : bp_acc) (j : nat) : bp_acc :=
  let seqwt2 := wgt msa !!! j in
  let a2 := ax_at msa j (apos + 1) in
  let b2 := ax_at msa j (rpos + 1) in
  let iscanonical2 := _c_bp_is_canonical a2 b2 in
  let d := _c_bp_dist a1 b1 a2 b2 in
  let contrib :=
    if truthy iscanonical1 && truthy iscanonical2
    then of_int d * (seqwt1 + seqwt2)
    else of_int (-1 * d) * (seqwt1 + seqwt2) in
  {| seq_canA := seq_canA st;
     pos_canA := pos_canA st;
     covA := alter (fun c => c + contrib) apos (covA st);
     cov_cntA := alter (fun c => c + (seqwt1 + seqwt2)) apos (cov_cntA st) |}.

(** Body of the loop over [apos], for sequence [i]. *)
Definition bp_position (msa : ESL_MSA D) (rposA : list Z) (i : nat) (seqwt1 : D)
    (st : bp_acc) (apos : nat) : bp_acc :=
  if negb (rposA !!! apos =? -1)%Z then
    let rpos := Z.to_nat (rposA !!! apos) in
    let a1 := ax_at msa i (apos + 1) in
    let b1 := ax_at msa i (rpos + 1) in
    if negb (a1 =? K (abc msa))%Z || negb (b1 =? K (abc msa))%Z then
      let iscanonical1 := _c_bp_is_canonical a1 b1 in
      let st :=
        if truthy iscanonical1
        then {| seq_canA := alter Z.succ i (seq_canA st);
                pos_canA := alter Z.succ apos (pos_canA st);
                covA := covA st;
                cov_cntA := cov_cntA st |}
        else st in
      fold_left (bp_compare msa apos rpos a1 b1 iscanonical1 seqwt1)
                (seq (i + 1) (Z.to_nat (nseq msa) - (i + 1))) st
    else st
  else st.

(** The loop over sequences: canonical counts and the covariation sums,
    before any division. *)
Definition bp_accumulate (msa : ESL_MSA D) (rposA : list Z) : bp_acc :=
  fold_left
    (fun st i => fold_left (bp_position msa rposA i (wgt msa !!! i))
                           (upto (alen msa)) st)
    (upto (nseq msa))
    {| seq_canA := esl_vec_ISet (nseq msa) 0%Z;
       pos_canA := esl_vec_ISet (alen msa) 0%Z;
       covA := esl_vec_DSet (alen msa) (of_int 0);
       cov_cntA := esl_vec_DSet (alen msa) (of_int 0) |}.

(** What the loop does at one basepair, named for the statements below.
    [bp_included]: the guards under which sequence [i] is looked at for the
    pair at [apos]; [bp_canonical]: its pair is canonical; [bp_contrib]: the
    value of [contrib] for sequences [i] and [j]; [bp_pairs]: the pairs
    [(i, j)] visited for [apos], in the order of the loops. *)
Definition bp_included (msa : ESL_MSA D) (rposA : list Z) (i apos : nat) : bool :=
  negb (rposA !!! apos =? -1)%Z &&
  (negb (ax_at msa i (apos + 1) =? K (abc msa))%Z ||
   negb (ax_at msa i (Z.to_nat (rposA !!! apos) + 1) =? K (abc msa))%Z).

Definition bp_canonical (msa : ESL_MSA D) (rposA : list Z) (i apos : nat) : bool :=
  truthy (_c_bp_is_canonical (ax_at msa i (apos + 1))
                             (ax_at msa i (Z.to_nat (rposA !!! apos) + 1))).

Definition bp_contrib (msa : ESL_MSA D) (rposA : list Z) (apos i j : nat) : D :=
  let rpos := Z.to_nat (rposA !!! apos) in
  let d := _c_bp_dist (ax_at msa i (apos + 1)) (ax_at msa i (rpos + 1))
                      (ax_at msa j (apos + 1)) (ax_at msa j (rpos + 1)) in
  if bp_canonical msa rposA i apos && bp_canonical msa rposA j apos
  then of_int d * (wgt msa !!! i + wgt msa !!! j)
  else of_int (-1 * d) * (wgt msa !!! i + wgt msa !!! j).

Definition bp_pairs (msa : ESL_MSA D) (rposA : list Z) (apos : nat) : list (nat * nat) :=
  flat_map
    (fun i => if bp_included msa rposA i apos
              then map (pair i) (seq (i + 1) (Z.to_nat (nseq msa) - (i + 1)))
              else [])
    (upto (nseq msa)).

(** The effect of the body for sequence [i] and column [apos] on the
    entries it updates: on [seq_canA[i]] and [pos_canA[apos]], on
    [covA[apos]] and on [cov_cntA[apos]]. *)
Definition bp_step_can (msa : ESL_MSA D) (rposA : list Z) (i apos : nat) (n : Z) : Z :=
  if bp_included msa rposA i apos && bp_canonical msa rposA i apos
  then Z.succ n else n.

Definition bp_step_cov (msa : ESL_MSA D) (rposA : list Z) (i apos : nat) (c : D) : D :=
  if bp_included msa rposA i apos
  then fold_left (fun c j => c + bp_contrib msa rposA apos i j)
                 (seq (i + 1) (Z.to_nat (nseq msa) - (i + 1))) c
  else c.

Definition bp_step_cnt (msa : ESL_MSA D) (rposA : list Z) (i apos : nat) (c : D) : D :=
  if bp_included msa rposA i apos
  then fold_left (fun c j => c + (wgt msa !!! i + wgt msa !!! j))
                 (seq (i + 1) (Z.to_nat (nseq msa) - (i + 1))) c
  else c.

(** The last loop: divide [covA[apos]] by its own count. *)
Definition bp_normalize (rposA : list Z) (cov_cntA : list D) (covA : list D)
    (apos : nat) : list D :=
  if negb (rposA !!! apos =? -1)%Z then
    if fabs (cov_cntA !!! apos) >? lit_1E_10
    then alter (fun c => c / (cov_cntA !!! apos)) apos covA
    else covA
  else covA.

(** The effect of [bp_normalize] on [covA[apos]]. *)
Definition bp_norm (rposA : list Z) (cnt : list D) (apos : nat) (c : D) : D :=
  if negb (rposA !!! apos =? -1)%Z && (fabs (cnt !!! apos) >? lit_1E_10)
  then c / (cnt !!! apos) else c.

Definition _c_rfam_bp_stats (msa : ESL_MSA D) : result bp_stats :=
  let ss_nopseudo := esl_wuss_nopseudo (ss_cons msa) in
  let '(status, ct) := esl_wuss2ct ss_nopseudo (alen msa) in
  if negb (status =? eslOK)%Z
  then croak "Consensus structure string is inconsistent."
  else
    let '(nbp, rposA) :=
      fold_left (bp_locate ct) (upto (alen msa))
                (0%Z, esl_vec_ISet (alen msa) (-1)%Z) in
    let acc := bp_accumulate msa rposA in
    let mean_cov :=
      if (nbp =? 0)%Z then of_int 0
      else esl_vec_DSum (covA acc) (alen msa)
           / esl_vec_DSum (cov_cntA acc) (alen msa) in
    let covA' :=
      fold_left (bp_normalize rposA (cov_cntA acc)) (upto (alen msa)) (covA acc) in
    Done {| ret_nbp := nbp;
            ret_rposA := rposA;
            ret_seq_canA := seq_canA acc;
            ret_pos_canA := pos_canA acc;
            ret_covA := covA';
            ret_mean_cov := mean_cov |}.

(** *** [_c_rfam_pid_stats] *)

(** The identity of sequences [i] and [j], by the routine for the mode of
    the alignment. *)
Definition pair_id (msa : ESL_MSA D) (i j : nat) : Z * D :=
  if truthy (Z.land (flags msa) eslMSA_DIGITAL)
  then esl_dst_XPairId (abc msa) (ax msa !!! i) (ax msa !!! j)
  else esl_dst_CPairId (aseq msa !!! i) (aseq msa !!! j).

(** Body of the loop over [j]; [Raise status] is [return status]. *)
Definition pid_pair (msa : ESL_MSA D) (i : nat) (st : D * D * D) (j : nat)
  : outcome Z (D * D * D) :=
  let '(pid_mean, pid_min, pid_max) := st in
  let '(status, pid) := pair_id msa i j in
  if negb (status =? eslOK)%Z then Raise status
  else Done (pid_mean + pid, dESL_MIN pid_min pid, dESL_MAX pid_max pid).

(** Returns [Raise status] on an early return, else
    [( *ret_pid_mean, *ret_pid_min, *ret_pid_max )] with status [eslOK]. *)
Definition _c_rfam_pid_stats (msa : ESL_MSA D) : outcome Z (D * D * D) :=
  '(pid_mean, pid_min, pid_max) ←
    for_each (upto (nseq msa))
      (fun st i => for_each (seq (i + 1) (Z.to_nat (nseq msa) - (i + 1)))
                            (pid_pair msa i) st)
      (of_int 0, of_int 1, of_int 0);
  Done (pid_mean / of_int (Z.quot (wrap_int (nseq msa * (nseq msa - 1))) 2),
        pid_min, pid_max).


Definition pid_update (st : D * D * D) (pid : D) : D * D * D :=
  let '(pid_mean, pid_min, pid_max) := st in
  (pid_mean + pid, dESL_MIN pid_min pid, dESL_MAX pid_max pid).

Definition pid_of (msa : ESL_MSA D) (ij : nat * nat) : D :=
  snd (pair_id msa (fst ij) (snd ij)).

(** *** [_c_pairwise_identity] *)

Definition _c_pairwise_identity (msa : ESL_MSA D) (i j : Z) : result D :=
  if (i <? 0)%Z || (i >=? nseq msa)%Z
  then croak "_c_pairwise_identity() contract violation, idx i (%d) out of bounds (nseq: %d)"
  else if (j <? 0)%Z || (j >=? nseq msa)%Z
  then croak "_c_pairwise_identity() contract violation, idx j (%d) out of bounds (nseq: %d)"
  else
    let '(status, pid) := pair_id msa (Z.to_nat i) (Z.to_nat j) in
    if negb (status =? eslOK)%Z
    then croak "_c_pairwise_identity() error, aligned seqs different lengths"
    else Done pid.

(** *** [_c_rfam_qc_stats]

    The three output files are modelled by the values printed on their
    lines, in the order of the [fprintf] arguments. *)

Record fam_line := {
  fam_name : string;
  fam_frac_canonical : D;       (* MEAN_FRACTN_CANONICAL_BPs *)
  fam_mean_cov : D;             (* COVARIATION *)
  fam_nseq : Z;
  fam_alen : Z;
  fam_nbp : Z;
  fam_len_tot : Z;
  fam_pid : option (D * D * D); (* mean, min, max; [None]: never written *)
  fam_len_mean : D;
  fam_len_max : Z;
  fam_len_min : Z;
  fam_frac_nucs : D;
  fam_frac_acgu : D * D * D * D;
  fam_max_2l : ascii * D;
  fam_cg : D
}.

Record seq_line := {
  seq_fam : string;
  seq_name : string;
  seq_frac_canonical : D;       (* FRACTN_CANONICAL_BPs *)
  seq_len : Z;
  seq_frac_acgu : D * D * D * D;
  seq_max_2l : ascii * D;
  seq_cg : D
}.

Record bp_line := {
  bp_fam : string;
  bp_left : Z;
  bp_right : Z;
  bp_frac_canonical : D;
  bp_cov : D
}.

Definition qc_fam_line (msa : ESL_MSA D) (c : comp_len_stats)
    (pid : outcome Z (D * D * D)) (b : bp_stats) : fam_line :=
  let tot := abc_totA c in
  {| fam_name := name msa;
     fam_frac_canonical :=
       if (ret_nbp b =? 0)%Z then of_int 0
       else of_int (esl_vec_ISum (ret_seq_canA b) (nseq msa))
            / (of_int (nseq msa) * of_int (ret_nbp b));
     fam_mean_cov := ret_mean_cov b;
     fam_nseq := nseq msa;
     fam_alen := alen msa;
     fam_nbp := ret_nbp b;
     fam_len_tot := len_tot c;
     fam_pid := match pid with Done r => Some r | Raise _ => None end;
     fam_len_mean := of_int (len_tot c) / of_int (nseq msa);
     fam_len_max := len_max c;
     fam_len_min := len_min c;
     fam_frac_nucs := of_int (len_tot c) / of_int (alen msa * nseq msa);
     fam_frac_acgu := (tot !!! 0%nat / of_int (len_tot c),
                       tot !!! 1%nat / of_int (len_tot c),
                       tot !!! 2%nat / of_int (len_tot c),
                       tot !!! 3%nat / of_int (len_tot c));
     fam_max_2l := _c_max_rna_two_letter_ambiguity
                     (tot !!! 0%nat) (tot !!! 1%nat) (tot !!! 2%nat) (tot !!! 3%nat);
     fam_cg := (tot !!! 1%nat + tot !!! 2%nat) / of_int (len_tot c) |}.

Definition qc_seq_line (msa : ESL_MSA D) (c : comp_len_stats) (b : bp_stats)
    (i : nat) : seq_line :=
  let seqwt := wgt msa !!! i in
  let row := abcAA c !!! i in
  let len := of_int (lenA c !!! i) in
  {| seq_fam := name msa;
     seq_name := sqname msa !!! i;
     seq_frac_canonical :=
       if (ret_nbp b =? 0)%Z then of_int 0
       else of_int (ret_seq_canA b !!! i) / of_int (ret_nbp b);
     seq_len := lenA c !!! i;
     seq_frac_acgu := (row !!! 0%nat / (seqwt * len), row !!! 1%nat / (seqwt * len),
                       row !!! 2%nat / (seqwt * len), row !!! 3%nat / (seqwt * len));
     seq_max_2l := _c_max_rna_two_letter_ambiguity
                     (row !!! 0%nat) (row !!! 1%nat) (row !!! 2%nat) (row !!! 3%nat);
     seq_cg := (row !!! 1%nat + row !!! 2%nat) / (seqwt * len) |}.

(** The lines of the per-basepair file: one for each [apos] with
    [rposA[apos] != -1]. *)
Definition qc_bp_lines (msa : ESL_MSA D) (b : bp_stats) : list bp_line :=
  flat_map
    (fun apos =>
       if negb (ret_rposA b !!! apos =? -1)%Z
       then [ {| bp_fam := name msa;
                 bp_left := (Z.of_nat apos + 1)%Z;
                 bp_right := (ret_rposA b !!! apos + 1)%Z;
                 bp_frac_canonical :=
                   of_int (ret_pos_canA b !!! apos) / of_int (nseq msa);
                 bp_cov := ret_covA b !!! apos |} ]
       else [])
    (upto (alen msa)).

Definition _c_rfam_qc_stats (msa : ESL_MSA D)
  : result (fam_line * list seq_line * list bp_line) :=
  if negb (truthy (Z.land (flags msa) eslMSA_DIGITAL))
  then croak "_c_rfam_qc_stats() contract violation, MSA is not digitized"
  else
    c ← _c_rfam_comp_and_len_stats msa;
    let pid := _c_rfam_pid_stats msa in
    b ← _c_rfam_bp_stats msa;
    Done (qc_fam_line msa c pid b,
          map (qc_seq_line msa c b) (upto (nseq msa)),
          qc_bp_lines msa b).

End Engine.

(** ** A reference instance of the Easel interface

    The routines as Easel documents them ([esl_alphabet], [esl_distance],
    [esl_vectorops], [esl_wuss]), used to run the statistics on concrete
    alignments. *)

Module Easel.
Section Reference.
Context {D : Type} `{Double D}.
Local Open Scope dbl_scope.

Definition abc_XIsCanonical (a : ESL_ALPHABET) (x : Z) : bool := (x <? K a)%Z.
Definition abc_XIsGap (a : ESL_ALPHABET) (x : Z) : bool := (x =? K a)%Z.
Definition abc_XIsMissing (a : ESL_ALPHABET) (x : Z) : bool := (x =? Kp a - 1)%Z.
Definition abc_XIsDegenerate (a : ESL_ALPHABET) (x : Z) : bool :=
  (x >? K a)%Z && (x <? Kp a - 2)%Z.
Definition abc_XIsResidue (a : ESL_ALPHABET) (x : Z) : bool :=
  (x <? K a)%Z || ((x >? K a)%Z && (x <? Kp a - 2)%Z).

Definition abc_XIsNonresidue (a : ESL_ALPHABET) (x : Z) : bool := (x =? Kp a - 2)%Z.

(** [esl_abc_DCount] counts a possibly degenerate symbol [x] (0..Kp-1) into
    the counts [ct] of the base symbols (0..K-1): the weight of a degenerate
    symbol is divided equally across the residues it stands for; a gap is
    counted in [ct[K]]; for a missing-data or nonresidue symbol nothing is
    done. *)
Definition abc_DCount (a : ESL_ALPHABET) (ct : list D) (x : Z) (wt : D) : Z * list D :=
  if abc_XIsCanonical a x || abc_XIsGap a x
  then (eslOK, alter (fun c => c + wt) (Z.to_nat x) ct)
  else if abc_XIsMissing a x || abc_XIsNonresidue a x then (eslOK, ct)
  else
    (eslOK,
     fold_left
       (fun ct y =>
          if truthy ((degen a !!! Z.to_nat x) !!! y)
          then alter (fun c => c + wt / of_int (ndegen a !!! Z.to_nat x)) y ct
          else ct)
       (upto (K a)) ct).

(** The scan of [esl_dst_XPairId] from position 1 to the first sentinel;
    returns [idents], [len1], [len2] and whether both rows ended together. *)
Fixpoint xpairid_scan (a : ESL_ALPHABET) (ax1 ax2 : list Z) (idents len1 len2 : Z)
  : Z * Z * Z * bool :=
  match ax1, ax2 with
  | x1 :: r1, x2 :: r2 =>
      if (x1 =? eslDSQ_SENTINEL)%Z || (x2 =? eslDSQ_SENTINEL)%Z
      then (idents, len1, len2, (x1 =? eslDSQ_SENTINEL)%Z && (x2 =? eslDSQ_SENTINEL)%Z)
      else
        xpairid_scan a r1 r2
          (if abc_XIsCanonical a x1 && abc_XIsCanonical a x2 && (x1 =? x2)%Z
           then idents + 1 else idents)%Z
          (if abc_XIsCanonical a x1 then len1 + 1 else len1)%Z
          (if abc_XIsCanonical a x2 then len2 + 1 else len2)%Z
  | [], [] => (idents, len1, len2, true)
  | _, _ => (idents, len1, len2, false)
  end.

(** [esl_dst_XPairId]: identities over the shorter of the two residue counts. *)
Definition dst_XPairId (a : ESL_ALPHABET) (ax1 ax2 : list Z) : Z * D :=
  let '(idents, len1, len2, together) := xpairid_scan a (tail ax1) (tail ax2) 0 0 0 in
  let len1 := if (len2 <? len1)%Z then len2 else len1 in
  if negb together then (eslEINVAL, of_int 0)
  else (eslOK, if (len1 =? 0)%Z then of_int 0 else of_int idents / of_int len1).

Definition isalpha (c : ascii) : bool :=
  let n := Z.of_nat (nat_of_ascii c) in
  ((65 <=? n) && (n <=? 90) || (97 <=? n) && (n <=? 122))%Z.
Definition isupper (c : ascii) : bool :=
  let n := Z.of_nat (nat_of_ascii c) in ((65 <=? n) && (n <=? 90))%Z.
Definition islower (c : ascii) : bool :=
  let n := Z.of_nat (nat_of_ascii c) in ((97 <=? n) && (n <=? 122))%Z.
Definition isprint (c : ascii) : bool :=
  let n := Z.of_nat (nat_of_ascii c) in ((32 <=? n) && (n <=? 126))%Z.
Definition toupper (c : ascii) : Z :=
  let n := Z.of_nat (nat_of_ascii c) in if islower c then (n - 32)%Z else n.

Fixpoint cpairid_scan (s1 s2 : string) (idents len1 len2 : Z) : Z * Z * Z * bool :=
  match s1, s2 with
  | String c1 r1, String c2 r2 =>
      cpairid_scan r1 r2
        (if isalpha c1 && isalpha c2 && (toupper c1 =? toupper c2)%Z
         then idents + 1 else idents)%Z
        (if isalpha c1 then len1 + 1 else len1)%Z
        (if isalpha c2 then len2 + 1 else len2)%Z
  | EmptyString, EmptyString => (idents, len1, len2, true)
  | _, _ => (idents, len1, len2, false)
  end.

Definition dst_CPairId (s1 s2 : string) : Z * D :=
  let '(idents, len1, len2, together) := cpairid_scan s1 s2 0 0 0 in
  let len1 := if (len2 <? len1)%Z then len2 else len1 in
  if negb together then (eslEINVAL, of_int 0)
  else (eslOK, if (len1 =? 0)%Z then of_int 0 else of_int idents / of_int len1).

(** [esl_vec_DSum]: the sum of the first [n] entries, left to right. *)
Definition vec_DSum (vec : list D) (n : Z) : D :=
  fold_left dadd (take (Z.to_nat n) vec) (of_int 0).

(** [esl_wuss_nopseudo]: pseudoknot letters become dots. *)
Fixpoint wuss_nopseudo (ss : string) : string :=
  match ss with
  | EmptyString => EmptyString
  | String c r => String (if isalpha c then "."%char else c) (wuss_nopseudo r)
  end.

#[local] Instance ascii_inhabited : Inhabited ascii := populate Ascii.zero.

Definition is_open (c : ascii) : bool :=
  (c =? "<")%char || (c =? "(")%char || (c =? "[")%char || (c =? "{")%char.
Definition is_close (c : ascii) : bool :=
  (c =? ">")%char || (c =? ")")%char || (c =? "]")%char || (c =? "}")%char.
Definition brackets_agree (l r : ascii) : bool :=
  (l =? "<")%char && (r =? ">")%char || (l =? "(")%char && (r =? ")")%char ||
  (l =? "[")%char && (r =? "]")%char || (l =? "{")%char && (r =? "}")%char.
Definition is_unpaired (c : ascii) : bool :=
  (c =? ":")%char || (c =? ",")%char || (c =? "_")%char || (c =? "-")%char ||
  (c =? ".")%char || (c =? "~")%char.

(** One symbol of [esl_wuss2ct]: [pda] holds the pushdown stacks (0 for the
    brackets, 1..26 for the pseudoknot letters), [sym] the symbols seen so
    far by position. *)
Definition wuss2ct_step (st : list (list nat) * list ascii * list Z) (pc : nat * ascii)
  : outcome Z (list (list nat) * list ascii * list Z) :=
  let '(pda, sym, ct) := st in
  let '(pos, c) := pc in
  let sym := <[pos := c]> sym in
  let close k :=
    match pda !!! k with
    | [] => Raise eslESYNTAX
    | lpos :: rest =>
        if (k =? 0)%nat && negb (brackets_agree (sym !!! lpos) c)
        then Raise eslESYNTAX
        else Done (<[k := rest]> pda, sym,
                   <[lpos := Z.of_nat pos]> (<[pos := Z.of_nat lpos]> ct))
    end in
  if negb (isprint c) then Raise eslESYNTAX
  else if is_open c then Done (alter (cons pos) 0%nat pda, sym, ct)
  else if is_close c then close 0%nat
  else if isupper c
  then Done (alter (cons pos) (nat_of_ascii c - 65 + 1)%nat pda, sym, ct)
  else if islower c then close (nat_of_ascii c - 97 + 1)%nat
  else if is_unpaired c then Done (pda, sym, ct)
  else Raise eslESYNTAX.

(** [esl_wuss2ct]: [ct[p] = q] and [ct[q] = p] for each pair, 0 elsewhere;
    [eslESYNTAX] on a string that does not pair up. *)
Definition wuss2ct (ss : string) (len : Z) : Z * list Z :=
  let n := Z.to_nat len in
  let chars := take n (list_ascii_of_string ss) ++ replicate (n - String.length ss) Ascii.zero in
  match for_each (zip (seq 1 n) chars) wuss2ct_step
          (replicate 27 [], replicate (n + 1) Ascii.zero, replicate (n + 1) 0%Z) with
  | Raise status => (status, replicate (n + 1) 0%Z)
  | Done (pda, _, ct) =>
      if forallb (fun stack => (List.length stack =? 0)%nat) pda
      then (eslOK, ct) else (eslESYNTAX, ct)
  end.

Definition lib : EaselLib D := {|
  esl_abc_XIsResidue := abc_XIsResidue;
  esl_abc_XIsDegenerate := abc_XIsDegenerate;
  esl_abc_DCount := abc_DCount;
  esl_dst_XPairId := dst_XPairId;
  esl_dst_CPairId := dst_CPairId;
  esl_vec_DSum := vec_DSum;
  esl_wuss_nopseudo := wuss_nopseudo;
  esl_wuss2ct := wuss2ct
|}.

End Reference.

(** [eslRNA]: the symbols [ACGU-RYMKSWHBVDN*~]. *)
Definition rna : ESL_ALPHABET := {|
  K := 4;
  Kp := 18;
  degen := [ [1;0;0;0]; [0;1;0;0]; [0;0;1;0]; [0;0;0;1]; [0;0;0;0];
             [1;0;1;0]; [0;1;0;1]; [1;1;0;0]; [0;0;1;1]; [0;1;1;0]; [1;0;0;1];
             [1;1;0;1]; [0;1;1;1]; [1;1;1;0]; [1;0;1;1]; [1;1;1;1];
             [0;0;0;0]; [0;0;0;0] ];
  ndegen := [1;1;1;1;0;2;2;2;2;2;2;3;3;3;3;4;0;0]
|}%Z.

End Easel.


(** ** Sample alignments *)

(** A digitized RNA alignment with rows [rows], weights [w] and consensus
    structure [ss]; every row gets its two sentinels. *)
Definition digital_msa {D : Type} (rows : list (list Z)) (w : list D) (ss : string)
  : ESL_MSA D :=
  {| aseq := [];
     sqname := map (fun _ => "seq"%string) rows;
     wgt := w;
     alen := Z.of_nat (String.length ss);
     nseq := Z.of_nat (List.length rows);
     flags := eslMSA_DIGITAL;
     abc := Easel.rna;
     ax := map (fun r => eslDSQ_SENTINEL :: r ++ [eslDSQ_SENTINEL]) rows;
     name := "fam"%string;
     ss_cons := ss |}.

(** Concrete runs use the reference instance. *)
#[local] Existing Instance Easel.lib.

(** One sequence, [AC]. *)
Definition msa_single {D : Type} `{Double D} : ESL_MSA D :=
  digital_msa [[0; 1]] [of_int 1] "..".

(** Three sequences of ten residues that agree pairwise in the first
    column only: every pairwise identity is 1/10. *)
Definition msa_tenth {D : Type} `{Double D} : ESL_MSA D :=
  digital_msa [ [0;0;0;0;0;0;0;0;0;0];
                [0;1;1;1;1;1;1;1;1;1];
                [0;2;2;2;2;2;2;2;2;2] ]
              [of_int 1; of_int 1; of_int 1] "..........".

(** Two sequences with degenerate, gap, nonresidue and missing symbols:
    [RA-~*N] with weight 1 and [CCCG--] with weight 2. *)
Definition msa_degenerate {D : Type} `{Double D} : ESL_MSA D :=
  digital_msa [ [5; 0; 4; 17; 16; 15]; [1; 1; 1; 2; 4; 4] ]
              [of_int 1; of_int 2] "......".

(** One sequence of the single symbol [R] (A or G), weight 1. *)
Definition msa_R {D : Type} `{Double D} : ESL_MSA D :=
  digital_msa [ [5] ] [of_int 1] ".".

(** Two sequences over the structure [()]: [A-] and [AU]. *)
Definition msa_half_gap {D : Type} `{Double D} : ESL_MSA D :=
  digital_msa [ [0; 4]; [0; 3] ] [of_int 1; of_int 1] "()".

(** Two sequences over the structure [()]: [AU] and [--]. *)
Definition msa_gap_partner {D : Type} `{Double D} : ESL_MSA D :=
  digital_msa [ [0; 3]; [4; 4] ] [of_int 1; of_int 1] "()".

(** Three sequences over the structure [(.)]: [AAU], [GCC], [G-U]. *)
Definition msa_hairpin {D : Type} `{Double D} : ESL_MSA D :=
  digital_msa [ [0; 0; 3]; [2; 1; 1]; [2; 4; 3] ]
              [of_int 1; of_int 2; of_int 1] "(.)".

(** ** The other helpers of [MSA.c] *)

(** *** Loops that [break], C strings *)

(** The first index at which the body of a loop breaks. *)
Fixpoint first_break (brk : nat -> bool) (l : list nat) : option nat :=
  match l with
  | [] => None
  | idx :: l' => if brk idx then Some idx else first_break brk l'
  end.

(** The value of [idx] after
    [for (idx = start; idx < n; idx++) { if (brk idx) break; }]. *)
Definition for_break (start : nat) (n : Z) (brk : nat -> bool) : Z :=
  match first_break brk (seq start (Z.to_nat n - start)) with
  | Some idx => Z.of_nat idx
  | None => Z.max (Z.of_nat start) n
  end.

(** [s[i]]; the terminating NUL at and after the end. *)
Definition char_at (s : string) (i : nat) : ascii :=
  match String.get i s with
  | Some c => c
  | None => Ascii.zero
  end.

(** [strchr(s, c) != NULL]: the terminator counts as part of the string. *)
Definition strchr (s : string) (c : ascii) : bool :=
  (c =? Ascii.zero)%char || existsb (Ascii.eqb c) (list_ascii_of_string s).

(** The C string held by a buffer: its characters before the first NUL. *)
Fixpoint c_string (buf : list ascii) : string :=
  match buf with
  | [] => EmptyString
  | c :: buf' => if (c =? Ascii.zero)%char then EmptyString else String c (c_string buf')
  end.

(** [islower], [toupper], [isalpha] of the C locale. *)
Definition c_islower (c : ascii) : bool :=
  let n := nat_of_ascii c in (97 <=? n)%nat && (n <=? 122)%nat.
Definition c_isalpha (c : ascii) : bool :=
  let n := nat_of_ascii c in
  ((65 <=? n)%nat && (n <=? 90)%nat) || ((97 <=? n)%nat && (n <=? 122)%nat).
Definition c_toupper (c : ascii) : ascii :=
  if c_islower c then ascii_of_nat (nat_of_ascii c - 32) else c.

(** *** Perl arrays *)

(** A Perl scalar: an integer ([SvIOK]), or anything else. *)
Inductive SV : Type :=
  | SvInteger (iv : Z)
  | SvOther.

Definition SvIOK (sv : SV) : bool :=
  match sv with SvInteger _ => true | SvOther => false end.
Definition SvIV (sv : SV) : Z :=
  match sv with SvInteger iv => iv | SvOther => 0 end.

(** A Perl array; [None] is a slot that was never assigned. *)
Abbreviation AV := (list (option SV)).

(** [av_fetch(av, i, 0)]; [None] is the NULL pointer. *)
Definition av_fetch (av : AV) (i : nat) : option SV :=
  match av !! i with
  | Some (Some sv) => Some sv
  | _ => None
  end.

(** Body of the loop of [_c_int_copy_array_perl_to_c]; the [IV] is stored
    in an [int]. *)
Definition copy_element (perlAR : AV) (cA : list Z) (i : nat) : result (list Z) :=
  match av_fetch perlAR i with
  | None => croak "_c_int_copy_array_perl_to_c, failed array lookup for element %d"
  | Some value =>
      if negb (SvIOK value)
      then croak "_c_int_copy_array_perl_to_c, array element %d is not an integer"
      else Done (<[i := wrap_int (SvIV value)]> cA)
  end.

(** [_c_int_copy_array_perl_to_c]: returns the array [cA] as filled. *)
Definition _c_int_copy_array_perl_to_c (perlAR : AV) (cA : list Z) (len : Z)
  : result (list Z) :=
  for_each (upto len) (copy_element perlAR) cA.

(** *** More of the Easel interface *)

Class EaselMsaLib (D : Type) := {
  esl_abc_XIsGap : ESL_ALPHABET -> Z -> bool;
  esl_abc_XIsMissing : ESL_ALPHABET -> Z -> bool;
  (* (abc, dsq) |-> number of residues *)
  esl_abc_dsqrlen : ESL_ALPHABET -> list Z -> Z;
  (* abc->sym[x] *)
  esl_abc_sym : ESL_ALPHABET -> Z -> ascii;
  (* (msa, tag, value) |-> status *)
  esl_msa_AppendGC : ESL_MSA D -> string -> string -> Z
}.

(** The per-sequence annotation of an [ESL_MSA] that [_c_reorder] moves,
    beside the fields of [ESL_MSA] above; [None] is a NULL array, and
    [gs] and [gr] hold [ngs] and [ngr] arrays. *)
Record ESL_MSA_ANNOT (D : Type) := {
  msa_of : ESL_MSA D;
  sqacc : option (list (option string));
  sqdesc : option (list (option string));
  ss : option (list (option string));
  sa : option (list (option string));
  pp : option (list (option string));
  gs : list (list (option string));
  gr : list (list (option string))
}.
Arguments msa_of {D} _.
Arguments sqacc {D} _.
Arguments sqdesc {D} _.
Arguments ss {D} _.
Arguments sa {D} _.
Arguments pp {D} _.
Arguments gs {D} _.
Arguments gr {D} _.

Section Helpers.
Context {D : Type} {HD : Double D} {L : EaselLib D} {M : EaselMsaLib D}.
Local Open Scope dbl_scope.

(** [msa->flags & eslMSA_DIGITAL] *)
Definition is_digital (msa : ESL_MSA D) : bool :=
  truthy (Z.land (flags msa) eslMSA_DIGITAL).

(** *** [_c_any_allgap_columns] *)

Definition _c_any_allgap_columns (msa : ESL_MSA D) (gapstr : string) : Z :=
  let returned : outcome Z unit :=
    if is_digital msa then
      for_each (seq 1 (Z.to_nat (alen msa)))
        (fun _ apos =>
           let idx :=
             for_break 0 (nseq msa)
               (fun idx => negb (esl_abc_XIsGap (abc msa) (ax_at msa idx apos))
                           && negb (esl_abc_XIsMissing (abc msa) (ax_at msa idx apos))) in
           if (idx =? nseq msa)%Z then Raise TRUE else Done tt)
        tt
    else
      for_each (upto (alen msa))
        (fun _ apos =>
           let idx :=
             for_break 0 (nseq msa)
               (fun idx => negb (strchr gapstr (char_at (aseq msa !!! idx) apos))) in
           if (idx =? nseq msa)%Z then Raise TRUE else Done tt)
        tt in
  match returned with
  | Raise r => r
  | Done _ => FALSE
  end.

(** Sequence [idx] holds a gap at column [col] (counted [1..alen]), as
    [_c_any_allgap_columns] sees it in the mode of the alignment. *)
Definition is_gap_at (msa : ESL_MSA D) (gapstr : string) (idx col : nat) : bool :=
  if is_digital msa
  then esl_abc_XIsGap (abc msa) (ax_at msa idx col)
       || esl_abc_XIsMissing (abc msa) (ax_at msa idx col)
  else strchr gapstr (char_at (aseq msa !!! idx) (col - 1)).

(** *** [_c_get_sqlen], [_c_count_residues], [_c_average_sqlen], [_c_is_residue] *)

Definition _c_get_sqlen (msa : ESL_MSA D) (seqidx : nat) : Z :=
  if is_digital msa then wrap_int (esl_abc_dsqrlen (abc msa) (ax msa !!! seqidx))
  else
    fold_left
      (fun len apos =>
         if negb (strchr "-_.~" (char_at (aseq msa !!! seqidx) apos))
         then (len + 1)%Z else len)
      (upto (alen msa)) 0%Z.

(** The sum is a C [float]; [D] stands for its arithmetic here. *)
Definition _c_count_residues (msa : ESL_MSA D) : D :=
  fold_left (fun len i => len + of_int (_c_get_sqlen msa i)) (upto (nseq msa)) (of_int 0).

Definition _c_average_sqlen (msa : ESL_MSA D) : D :=
  _c_count_residues msa / of_int (nseq msa).

(** [apos] is in [1..alen]. *)
Definition _c_is_residue (msa : ESL_MSA D) (sqidx apos : nat) : Z :=
  if is_digital msa
  then (if esl_abc_XIsResidue (abc msa) (ax_at msa sqidx apos) then 1 else 0)%Z
  else (if c_isalpha (char_at (aseq msa !!! sqidx) (apos - 1)) then 1 else 0)%Z.

(** *** [_c_addGC_identity] *)

(** The annotation of one column, digital mode ([apos] in [1..alen]). *)
Definition gc_identity_digital (msa : ESL_MSA D) (use_res : Z) (apos : nat) : ascii :=
  let dres := ax_at msa 0 apos in
  let idx := for_break 1 (nseq msa) (fun idx => negb (ax_at msa idx apos =? dres)%Z) in
  if (idx =? nseq msa)%Z
  then (if truthy use_res then esl_abc_sym (abc msa) dres else "*"%char)
  else "."%char.

(** The annotation of one column, text mode ([apos] in [0..alen-1]). *)
Definition gc_identity_text (msa : ESL_MSA D) (use_res : Z) (apos : nat) : ascii :=
  let cres := char_at (aseq msa !!! 0%nat) apos in
  let cres := if c_islower cres then c_toupper cres else cres in
  let idx :=
    for_break 1 (nseq msa)
      (fun idx =>
         let cres2 := char_at (aseq msa !!! idx) apos in
         let cres2 := if c_islower cres2 then c_toupper cres2 else cres2 in
         negb (cres2 =? cres)%char) in
  if (idx =? nseq msa)%Z
  then (if truthy use_res then cres else "*"%char)
  else "."%char.

(** The buffer [id] with its terminator. *)
Definition gc_identity_buffer (msa : ESL_MSA D) (use_res : Z) : list ascii :=
  (if is_digital msa
   then map (gc_identity_digital msa use_res) (seq 1 (Z.to_nat (alen msa)))
   else map (gc_identity_text msa use_res) (upto (alen msa)))
  ++ [Ascii.zero].

(** Returns the status of [esl_msa_AppendGC] and the annotation handed to it. *)
Definition _c_addGC_identity (msa : ESL_MSA D) (use_res : Z) : Z * string :=
  let id := c_string (gc_identity_buffer msa use_res) in
  (esl_msa_AppendGC msa "ID" id, id).

(** Named for the statements below: sequence [idx] agrees with sequence 0
    at column [c] (counted [0..alen-1]) in the eyes of [_c_addGC_identity],
    and the character that stands for the residue of sequence 0 there. *)
Definition gc_same_at (msa : ESL_MSA D) (idx c : nat) : bool :=
  if is_digital msa
  then (ax_at msa idx (c + 1) =? ax_at msa 0 (c + 1))%Z
  else ((let cres2 := char_at (aseq msa !!! idx) c in
         if c_islower cres2 then c_toupper cres2 else cres2)
        =? (let cres := char_at (aseq msa !!! 0%nat) c in
            if c_islower cres then c_toupper cres else cres))%char.

Definition gc_residue (msa : ESL_MSA D) (c : nat) : ascii :=
  if is_digital msa
  then esl_abc_sym (abc msa) (ax_at msa 0 (c + 1))
  else (let cres := char_at (aseq msa !!! 0%nat) c in
        if c_islower cres then c_toupper cres else cres).

(** *** [_c_set_blank_ss_cons] *)

Definition _c_set_blank_ss_cons (msa : ESL_MSA D) : ESL_MSA D :=
  let n := Z.to_nat (alen msa) in
  (* the alen+1 characters of msa->ss_cons *)
  let buf := take (n + 1) (list_ascii_of_string (ss_cons msa)
                           ++ replicate (n + 1) Ascii.zero) in
  let buf := fold_left (fun buf i => <[i := "."%char]> buf) (upto (alen msa)) buf in
  let buf := <[n := Ascii.zero]> buf in
  {| aseq := aseq msa; sqname := sqname msa; wgt := wgt msa; alen := alen msa;
     nseq := nseq msa; flags := flags msa; abc := abc msa; ax := ax msa;
     name := name msa; ss_cons := c_string buf |}.

(** *** [_c_reorder] *)

(** [tmp[i] = arr[i]] for every [i], then [arr[i] = tmp[order[i]]]. *)
Definition reorder_array {A : Type} `{Inhabited A} (n : Z) (order : list Z)
    (arr : list A) : list A :=
  let tmp := fold_left (fun tmp i => <[i := arr !!! i]> tmp) (upto n)
                       (replicate (Z.to_nat n) inhabitant) in
  fold_left (fun arr i => <[i := tmp !!! Z.to_nat (order !!! i)]> arr) (upto n) arr.

(** Body of the contract check. *)
Definition reorder_check (order : list Z) (covered : list Z) (i : nat)
  : result (list Z) :=
  if truthy (covered !!! Z.to_nat (order !!! i))
  then croak "_c_reorder() order array has duplicate entries for i: %d\n"
  else Done (<[Z.to_nat (order !!! i) := 1%Z]> covered).

Definition _c_reorder (m : ESL_MSA_ANNOT D) (orderAR : AV) : result (ESL_MSA_ANNOT D) :=
  let msa := msa_of m in
  let n := nseq msa in
  order ← _c_int_copy_array_perl_to_c orderAR (esl_vec_ISet n 0%Z) n;
  _ ← for_each (upto n) (reorder_check order) (esl_vec_ISet n 0%Z);
  Done {| msa_of :=
            {| aseq := if is_digital msa then aseq msa
                       else reorder_array n order (aseq msa);
               sqname := reorder_array n order (sqname msa);
               wgt := wgt msa;
               alen := alen msa;
               nseq := n;
               flags := flags msa;
               abc := abc msa;
               ax := if is_digital msa then reorder_array n order (ax msa)
                     else ax msa;
               name := name msa;
               ss_cons := ss_cons msa |};
          sqacc := reorder_array n order <$> sqacc m;
          sqdesc := reorder_array n order <$> sqdesc m;
          ss := reorder_array n order <$> ss m;
          sa := reorder_array n order <$> sa m;
          pp := reorder_array n order <$> pp m;
          gs := map (reorder_array n order) (gs m);
          gr := map (reorder_array n order) (gr m) |}.

End Helpers.

(** Reference instance of the rest of the interface. *)
Module EaselMsa.

(** [esl_abc_dsqrlen]: the residues up to the sentinel. *)
Fixpoint dsqrlen_scan (a : ESL_ALPHABET) (dsq : list Z) (n : Z) : Z :=
  match dsq with
  | [] => n
  | x :: dsq' =>
      if (x =? eslDSQ_SENTINEL)%Z then n
      else dsqrlen_scan a dsq' (if Easel.abc_XIsResidue a x then n + 1 else n)%Z
  end.

Definition abc_dsqrlen (a : ESL_ALPHABET) (dsq : list Z) : Z :=
  dsqrlen_scan a (tail dsq) 0.

(** The symbols of [eslRNA]. *)
Definition rna_sym (x : Z) : ascii := char_at "ACGU-RYMKSWHBVDN*~" (Z.to_nat x).

Definition lib {D : Type} : EaselMsaLib D := {|
  esl_abc_XIsGap := Easel.abc_XIsGap;
  esl_abc_XIsMissing := Easel.abc_XIsMissing;
  esl_abc_dsqrlen := abc_dsqrlen;
  esl_abc_sym := fun _ x => rna_sym x;
  esl_msa_AppendGC := fun _ _ _ => eslOK
|}.

End EaselMsa.

#[local] Existing Instance EaselMsa.lib.

(** A text-mode alignment with rows [rows]. *)
Definition text_msa {D : Type} (rows : list string) (w : list D) (n : Z) : ESL_MSA D :=
  {| aseq := rows;
     sqname := map (fun _ => "seq"%string) rows;
     wgt := w;
     alen := n;
     nseq := Z.of_nat (List.length rows);
     flags := 0;
     abc := Easel.rna;
     ax := [];
     name := "fam"%string;
     ss_cons := EmptyString |}.

(** The Perl array of the indices [l]. *)
Definition perl_ints (l : list nat) : AV :=
  (fun o => Some (SvInteger (Z.of_nat o))) <$> l.

(** [l'] holds at [i] what [l] held at [order[i]], for arrays of [n]
    entries. *)
Definition reordered {A : Type} (n : nat) (order : list nat) (l l' : list A) : Prop :=
  List.length l' = List.length l /\
  (List.length l = n -> forall i, (i < n)%nat -> l' !! i = l !! (order !!! i)).

(** Three named sequences [AAU], [GCC], [G-U] with weights 1, 2, 3, and
    some per-sequence annotation. *)
Definition msa_named {D : Type} `{Double D} : ESL_MSA_ANNOT D :=
  {| msa_of :=
       {| aseq := [];
          sqname := ["s0"; "s1"; "s2"]%string;
          wgt := [of_int 1; of_int 2; of_int 3];
          alen := 3;
          nseq := 3;
          flags := eslMSA_DIGITAL;
          abc := Easel.rna;
          ax := [ [255; 0; 0; 3; 255]; [255; 2; 1; 1; 255]; [255; 2; 4; 3; 255] ];
          name := "fam"%string;
          ss_cons := "(.)"%string |};
     sqacc := Some [Some "A0"; None; Some "A2"]%string;
     sqdesc := None;
     ss := None;
     sa := None;
     pp := None;
     gs := [ [Some "x"; Some "y"; None]%string ];
     gr := [] |}.

(** Text rows [A-c], [a-G], [A-~]. *)
Definition msa_text {D : Type} `{Double D} : ESL_MSA D :=
  text_msa ["A-c"; "a-G"; "A-~"]%string [of_int 1; of_int 1; of_int 1] 3.

(** Named for the statements on [_c_rfam_bp_stats]: what its first loop
    returns for the pair table [ct], and the test under which its second loop
    counts sequence [i] at column [apos]. *)
Definition bp_located (n : Z) (ct : list Z) : Z * list Z :=
  fold_left (bp_locate ct) (upto n) (0, esl_vec_ISet n (-1)).

Definition bp_counted {D : Type} (msa : ESL_MSA D) (rposA : list Z) (i apos : nat) : bool :=
  bp_included msa rposA i apos && bp_canonical msa rposA i apos.

(** The fraction of the total that a two-letter code stands for, as the
    header of [_c_max_rna_two_letter_ambiguity] lists the codes. *)
Definition two_letter_frac {D : Type} `{Double D} (code : ascii) (act cct gct uct : D) : D :=
  let sum := (act + cct + gct + uct)%D in
  if (code =? "M")%char then ((act + cct) / sum)%D
  else if (code =? "R")%char then ((act + gct) / sum)%D
  else if (code =? "W")%char then ((act + uct) / sum)%D
  else if (code =? "S")%char then ((cct + gct) / sum)%D
  else if (code =? "Y")%char then ((cct + uct) / sum)%D
  else ((gct + uct) / sum)%D.

(** Named for the statements on [_c_percent_coverage]: what the body of
    its inner loop makes of the counts of column [apos] at sequence [i] when
    the count succeeds, and whether sequence [i] holds one of the [K] base
    residues there. *)
Definition coverage_step {D : Type} `{Double D} `{EaselLib D} (msa : ESL_MSA D)
    (i apos : nat) (row : list D) : list D :=
  if negb (esl_abc_XIsDegenerate (abc msa) (ax_at msa i (apos + 1)))
  then snd (esl_abc_DCount (abc msa) row (ax_at msa i (apos + 1)) (of_int 1))
  else row.

Definition base_residue_at {D : Type} (msa : ESL_MSA D) (i apos : nat) : bool :=
  ax_at msa i (apos + 1) <? K (abc msa).

(** [n] dots: the structure without basepairs. *)
Definition blank_ss (n : nat) : string := string_of_list_ascii (replicate n "."%char).

(** An alignment without optional annotation. *)
Definition bare_annot {D : Type} (msa : ESL_MSA D) : ESL_MSA_ANNOT D :=
  {| msa_of := msa; sqacc := None; sqdesc := None; ss := None; sa := None;
     pp := None; gs := []; gr := [] |}.


(** ** Properties of the helpers *)

(** C7: [_c_bp_dist] is 0 when both halves agree, 2 when both differ and 1
    when exactly one differs; the distance of a pair to itself is 0 and the
    distance is symmetric under swapping the two pairs. *)
Theorem bp_dist_spec :
  forall a1 b1 a2 b2 : Z,
    ((a1 = a2 /\ b1 = b2) -> _c_bp_dist a1 b1 a2 b2 = 0) /\
    ((a1 <> a2 /\ b1 <> b2) -> _c_bp_dist a1 b1 a2 b2 = 2) /\
    (((a1 <> a2 /\ b1 = b2) \/ (a1 = a2 /\ b1 <> b2)) -> _c_bp_dist a1 b1 a2 b2 = 1) /\
    _c_bp_dist a1 b1 a1 b1 = 0 /\
    _c_bp_dist a1 b1 a2 b2 = _c_bp_dist a2 b2 a1 b1.
Proof.
  intros a1 b1 a2 b2. unfold _c_bp_dist.
  rewrite (Z.eqb_sym a2 a1), (Z.eqb_sym b2 b1), !Z.eqb_refl.
  destruct (Z.eqb_spec a1 a2), (Z.eqb_spec b1 b2); simpl;
    repeat split; try reflexivity; intros; intuition congruence.
Qed.

Ltac destruct_matched :=
  repeat match goal with
         | |- context [match ?q with _ => _ end] => is_var q; destruct q
         end.

Lemma bp_is_canonical_range (a b : Z) :
  _c_bp_is_canonical a b <> FALSE -> 0 <= a <= 10 /\ 0 <= b <= 10.
Proof.
  unfold _c_bp_is_canonical, TRUE, FALSE.
  destruct_matched; intros Hc; try (exfalso; apply Hc; reflexivity); lia.
Qed.

Lemma bp_is_canonical_cases (a b : Z) :
  (_c_bp_is_canonical a b = TRUE /\ In (a, b) canonical_table) \/
  (_c_bp_is_canonical a b = FALSE /\ ~ In (a, b) canonical_table).
Proof.
  destruct (Z.eq_dec (_c_bp_is_canonical a b) FALSE) as [Hf|Hn].
  - right. split; [exact Hf|]. intros Hin.
    unfold canonical_table in Hin. simpl in Hin.
    repeat (destruct Hin as [Hin|Hin]; [inversion Hin; subst; discriminate Hf|]).
    exact Hin.
  - left. destruct (bp_is_canonical_range a b Hn) as [Ha Hb].
    assert (Ea : a = 0 \/ a = 1 \/ a = 2 \/ a = 3 \/ a = 4 \/ a = 5 \/ a = 6 \/
                 a = 7 \/ a = 8 \/ a = 9 \/ a = 10) by lia.
    assert (Eb : b = 0 \/ b = 1 \/ b = 2 \/ b = 3 \/ b = 4 \/ b = 5 \/ b = 6 \/
                 b = 7 \/ b = 8 \/ b = 9 \/ b = 10) by lia.
    clear Ha Hb.
    repeat (destruct Ea as [Ea|Ea]; [subst a|]); try subst a;
      repeat (destruct Eb as [Eb|Eb]; [subst b|]); try subst b;
      first [ exfalso; apply Hn; reflexivity
            | split; [reflexivity | unfold canonical_table; simpl; tauto] ].
Qed.

(** C6: [_c_bp_is_canonical a b] is TRUE exactly for (0,3),(3,0),(1,2),(2,1),
    (2,3),(3,2) and (5,6),(6,5),(7,8),(8,7),(9,9),(10,10), FALSE for every
    other pair of integers, and therefore symmetric in its arguments. *)
Theorem bp_is_canonical_spec :
  forall a b : Z,
    (_c_bp_is_canonical a b = TRUE <-> In (a, b) canonical_table) /\
    (_c_bp_is_canonical a b = FALSE <-> ~ In (a, b) canonical_table) /\
    _c_bp_is_canonical a b = _c_bp_is_canonical b a.
Proof.
  assert (Hne : TRUE <> FALSE) by discriminate.
  assert (Hsw : forall a b, In (a, b) canonical_table -> In (b, a) canonical_table).
  { intros a b Hin. unfold canonical_table in *. simpl in *.
    repeat (destruct Hin as [Hin|Hin]; [inversion Hin; subst; tauto|]). contradiction. }
  intros a b. repeat split.
  - intros Ht. destruct (bp_is_canonical_cases a b) as [[_ ?]|[Hf _]]; [assumption|congruence].
  - intros Hin. destruct (bp_is_canonical_cases a b) as [[? _]|[_ Hn]]; [assumption|contradiction].
  - intros Hf Hin. destruct (bp_is_canonical_cases a b) as [[Ht _]|[_ Hn]]; [congruence|contradiction].
  - intros Hn. destruct (bp_is_canonical_cases a b) as [[_ ?]|[? _]]; [contradiction|assumption].
  - destruct (bp_is_canonical_cases a b) as [[Ht Hin]|[Hf Hn]];
    destruct (bp_is_canonical_cases b a) as [[Ht' Hin']|[Hf' Hn']]; try congruence.
    + apply Hsw in Hin. contradiction.
    + apply Hsw in Hin'. contradiction.
Qed.

(** C1 (the code departs from the claim): the 'R' branch of
    [_c_max_rna_two_letter_ambiguity] records the fraction of A+C instead of
    A+G.  On counts (1,0,1,0) the function returns code R with fraction 0.5
    although A+G is the whole total; on counts (1,0,3,0) it returns S with
    0.75 although R, with fraction 1, is the maximum. *)
Theorem max_2l_ambiguity_R_branch :
  _c_max_rna_two_letter_ambiguity 1%float 0%float 1%float 0%float
    = ("R"%char, 0.5%float) /\
  ((1 + 1) / (1 + 0 + 1 + 0) = 1)%float /\
  _c_max_rna_two_letter_ambiguity 1%float 0%float 3%float 0%float
    = ("S"%char, 0.75%float) /\
  ((1 + 3) / (1 + 0 + 3 + 0) = 1)%float /\
  _c_max_rna_two_letter_ambiguity 1%Q 0%Q 3%Q 0%Q = ("S"%char, 3 # 4).
Proof. repeat split; vm_compute; reflexivity. Qed.

(** The constant of the model for [1E-10] is the binary64 literal, and the
    rational 10^-10. *)
Lemma lit_1E_10_values :
  lit_1E_10 (D := float) = 0x1.b7cdfd9d7bdbbp-34%float /\
  (lit_1E_10 (D := Q) == 1 # 10000000000)%Q.
Proof. split; vm_compute; reflexivity. Qed.

(** ** [_c_rfam_pid_stats] and [_c_pairwise_identity] *)

(** C5 (as the code has it): with fewer than two sequences
    [_c_rfam_pid_stats] checks nothing and fails with nothing: no pair is
    visited, and it returns normally with minimum 1, maximum 0 and the mean
    [0. / (double) 0]. *)
Theorem pid_stats_fewer_than_two :
  forall (D : Type) (HD : Double D) (L : EaselLib D) (msa : ESL_MSA D),
    0 <= nseq msa < 2 ->
    _c_rfam_pid_stats msa
      = Done (of_int 0 / of_int 0, of_int 1, of_int 0)%D.
Proof.
  intros D HD L msa Hn.
  assert (Hc : nseq msa = 0 \/ nseq msa = 1) by lia.
  unfold _c_rfam_pid_stats, upto.
  destruct Hc as [-> | ->]; reflexivity.
Qed.

Lemma pid_stats_fewer_than_two_witness :
  _c_rfam_pid_stats (msa_single (D := float))
    = Done (of_int 0 / of_int 0, of_int 1, of_int 0)%D.
Proof.
  apply (pid_stats_fewer_than_two float _ _ msa_single).
  vm_compute. split; [discriminate | reflexivity].
Defined.

(** C5, the claim as stated fails: on an alignment of one sequence the
    function returns normally, and the mean it returns is a NaN. *)
Lemma pid_stats_single_returns_nan :
  exists pid_mean pid_min pid_max : float,
    _c_rfam_pid_stats (msa_single (D := float)) = Done (pid_mean, pid_min, pid_max) /\
    PrimFloat.is_nan pid_mean = true.
Proof.
  exists (0 / 0)%float, 1%float, 0%float. split; vm_compute; reflexivity.
Qed.




(** ** [_c_rfam_qc_stats] *)

(** C10: when the consensus structure retains no basepair ([nbp == 0]) the
    report carries exactly [0.] as the family's fraction of canonical
    basepairs and as that of every sequence: both divisions are guarded by
    the test [nbp == 0]. *)
Theorem qc_stats_no_basepairs :
  forall (D : Type) (HD : Double D) (L : EaselLib D) (msa : ESL_MSA D)
         (c : comp_len_stats) (b : bp_stats),
    _c_rfam_comp_and_len_stats msa = Done c ->
    _c_rfam_bp_stats msa = Done b ->
    ret_nbp b = 0 ->
    exists fam seqs bps,
      _c_rfam_qc_stats msa = Done (fam, seqs, bps) /\
      fam_nbp fam = 0 /\
      fam_frac_canonical fam = of_int 0 /\
      List.length seqs = Z.to_nat (nseq msa) /\
      Forall (fun s => seq_frac_canonical s = of_int 0) seqs.
Proof.
  intros D HD L msa c b Hc Hb Hn.
  unfold _c_rfam_qc_stats.
  destruct (negb (truthy (Z.land (flags msa) eslMSA_DIGITAL))) eqn:Hdig.
  { unfold _c_rfam_comp_and_len_stats in Hc. rewrite Hdig in Hc. discriminate Hc. }
  rewrite Hc, Hb. simpl.
  eexists _, _, _. split; [reflexivity|].
  unfold qc_fam_line; simpl. rewrite Hn. simpl.
  repeat split.
  - rewrite length_map. unfold upto. apply length_seq.
  - apply Forall_forall. intros s Hin.
    apply list_elem_of_In, in_map_iff in Hin. destruct Hin as (i & <- & _).
    unfold qc_seq_line; simpl. rewrite Hn. reflexivity.
Qed.

Lemma qc_stats_no_basepairs_witness :
  exists fam seqs bps,
    _c_rfam_qc_stats (msa_tenth (D := float)) = Done (fam, seqs, bps) /\
    fam_nbp fam = 0 /\
    fam_frac_canonical fam = 0%float /\
    List.length seqs = 3%nat /\
    Forall (fun s => seq_frac_canonical s = 0%float) seqs.
Proof.
  destruct (_c_rfam_comp_and_len_stats (msa_tenth (D := float))) as [c|e] eqn:Hc;
    [|vm_compute in Hc; discriminate Hc].
  destruct (_c_rfam_bp_stats (msa_tenth (D := float))) as [b|e] eqn:Hb;
    [|vm_compute in Hb; discriminate Hb].
  apply (qc_stats_no_basepairs float _ _ msa_tenth c b Hc Hb).
  vm_compute in Hb. injection Hb as <-. reflexivity.
Defined.

(** ** Loops *)

Lemma for_each_cons {E S A} (a : A) (l : list A) (body : S -> A -> outcome E S) (s : S) :
  for_each (a :: l) body s = body s a ≫= for_each l body.
Proof. reflexivity. Qed.

Lemma for_each_app {E S A} (l1 l2 : list A) (body : S -> A -> outcome E S) (s : S) :
  for_each (l1 ++ l2) body s = for_each l1 body s ≫= for_each l2 body.
Proof.
  revert s. induction l1 as [|a l1 IH]; intros s; [reflexivity|].
  simpl. destruct (body s a) as [s'|e]; simpl; [apply IH | reflexivity].
Qed.

(** ** [_c_rfam_comp_and_len_stats] *)

Section Composition.
Context {D : Type} {HD : Double D} {L : EaselLib D}.

Lemma list_insert_lookup_total_id {A} `{Inhabited A} (l : list A) (i : nat) :
  (i < List.length l)%nat -> <[i := l !!! i]> l = l.
Proof.
  intros Hi. apply list_insert_id. apply list_lookup_lookup_total_lt. exact Hi.
Qed.

Lemma alter_add_0 (l : list Z) (i : nat) : alter (fun x => x + 0) i l = l.
Proof. apply list_alter_id. intros x. lia. Qed.

(** The loop over the columns of one row. *)
Lemma comp_columns (msa : ESL_MSA D) (i : nat) (seqwt : D) (cols : list nat) :
  forall (A : list (list D)) (Ls : list Z) (row : list D),
    (i < List.length A)%nat ->
    dcount_all (abc msa) seqwt (A !!! i)
               (map (fun apos => ax_at msa i (apos + 1)) cols) = Some row ->
    for_each cols (comp_count_column msa i seqwt) (A, Ls)
      = Done (<[i := row]> A,
              alter (fun x => x + residue_count (abc msa)
                                   (map (fun apos => ax_at msa i (apos + 1)) cols))
                    i Ls).
Proof.
  induction cols as [|apos cols IH]; intros A Ls row Hi Hrow; simpl in *.
  - injection Hrow as <-. unfold residue_count. simpl.
    rewrite list_insert_lookup_total_id by exact Hi.
    rewrite alter_add_0. reflexivity.
  - unfold comp_count_column at 1.
    destruct (esl_abc_DCount (abc msa) (A !!! i) (ax_at msa i (apos + 1)) seqwt)
      as [status row1] eqn:Hd.
    destruct (status =? eslOK) eqn:Hs; [|discriminate Hrow]. simpl.
    set (Ls1 := if esl_abc_XIsResidue (abc msa) (ax_at msa i (apos + 1))
                then alter Z.succ i Ls else Ls).
    change (for_each cols (comp_count_column msa i seqwt) (<[i := row1]> A, Ls1)
            = Done (<[i := row]> A,
                    alter (fun x => x + residue_count (abc msa)
                                  (ax_at msa i (apos + 1)
                                   :: map (fun apos => ax_at msa i (apos + 1)) cols))
                          i Ls)).
    rewrite (IH (<[i := row1]> A) Ls1 row).
    + rewrite list_insert_insert_eq. f_equal. f_equal.
      unfold Ls1, residue_count. rewrite filter_cons.
      destruct (esl_abc_XIsResidue (abc msa) (ax_at msa i (apos + 1))) eqn:Hr.
      * rewrite decide_True by reflexivity.
        rewrite list_alter_alter_eq. apply list_alter_ext; [|reflexivity].
        intros x _. simpl. lia.
      * rewrite decide_False by discriminate. reflexivity.
    + rewrite length_insert. exact Hi.
    + rewrite list_lookup_total_insert_eq by exact Hi. exact Hrow.
Qed.

(** One pass of the loop over [i]. *)
Lemma comp_sequence_run (msa : ESL_MSA D) (st : comp_len_stats) (i : nat) (row : list D) :
  (i < List.length (abcAA st))%nat ->
  dcount_all (abc msa) (wgt msa !!! i) (abcAA st !!! i) (row_codes msa i) = Some row ->
  exists tot mn mx lt,
    comp_sequence msa st i
      = Done {| abcAA := <[i := row]> (abcAA st);
                abc_totA := tot;
                lenA := alter (fun x => x + residue_count (abc msa) (row_codes msa i))
                              i (lenA st);
                len_tot := lt; len_min := mn; len_max := mx |}.
Proof.
  intros Hi Hrow. unfold comp_sequence.
  rewrite (comp_columns msa i (wgt msa !!! i) (upto (alen msa))
                        (abcAA st) (lenA st) row Hi Hrow).
  simpl. eexists _, _, _, _. reflexivity.
Qed.

(** The loop over the sequences [a, a+n): each visited row ends as the
    counts of its own codes, rows outside the range are not touched. *)
Lemma comp_sequences (msa : ESL_MSA D) (zeros : list D) (n : nat) :
  forall (a : nat) (st : comp_len_stats),
    (a + n <= List.length (abcAA st))%nat ->
    (forall i, (a <= i < a + n)%nat ->
               abcAA st !! i = Some zeros /\ lenA st !! i = Some 0) ->
    (forall i, (a <= i < a + n)%nat ->
               is_Some (dcount_all (abc msa) (wgt msa !!! i) zeros (row_codes msa i))) ->
    exists st',
      for_each (seq a n) (comp_sequence msa) st = Done st' /\
      List.length (abcAA st') = List.length (abcAA st) /\
      (forall i, (a <= i < a + n)%nat ->
                 abcAA st' !! i
                   = dcount_all (abc msa) (wgt msa !!! i) zeros (row_codes msa i) /\
                 lenA st' !! i = Some (residue_count (abc msa) (row_codes msa i))) /\
      (forall i, ~ (a <= i < a + n)%nat ->
                 abcAA st' !! i = abcAA st !! i /\ lenA st' !! i = lenA st !! i).
Proof.
  induction n as [|n IH]; intros a st Hlen Hinit Hok.
  - exists st. simpl. repeat split; intros; lia.
  - destruct (Hok a) as [row Hrow]; [lia|].
    destruct (Hinit a) as [HA HL]; [lia|].
    assert (Ha : (a < List.length (abcAA st))%nat) by lia.
    assert (HA' : abcAA st !!! a = zeros) by (apply list_lookup_total_correct; exact HA).
    change (seq a (S n)) with (a :: seq (S a) n). rewrite for_each_cons.
    destruct (comp_sequence_run msa st a row Ha) as (tot & mn & mx & lt & Hstep);
      [rewrite HA'; exact Hrow|].
    rewrite Hstep.
    match goal with
    | |- context [Done ?s ≫= _] => set (st1 := s)
    end.
    change (Done st1 ≫= for_each (seq (S a) n) (comp_sequence msa))
      with (for_each (seq (S a) n) (comp_sequence msa) st1).
    destruct (IH (S a) st1) as (st' & Hrun & Hlen' & Hin & Hout).
    + unfold st1; simpl. rewrite length_insert. lia.
    + intros i Hi. unfold st1; simpl.
      rewrite list_lookup_insert_ne by lia. rewrite list_lookup_alter_ne by lia.
      apply Hinit. lia.
    + intros i Hi. apply Hok. lia.
    + exists st'. split; [exact Hrun|]. split.
      { rewrite Hlen'. unfold st1; simpl. apply length_insert. }
      split.
      * intros i Hi. destruct (decide (i = a)) as [->|Hne].
        -- destruct (Hout a) as [EA EL]; [lia|]. rewrite EA, EL.
           unfold st1; simpl. rewrite list_lookup_insert_eq by exact Ha.
           rewrite list_lookup_alter_eq, HL. split; [symmetry; exact Hrow|].
           simpl. reflexivity.
        -- apply Hin. lia.
      * intros i Hi. destruct (Hout i) as [EA EL]; [lia|]. rewrite EA, EL.
        unfold st1; simpl.
        rewrite list_lookup_insert_ne by lia. rewrite list_lookup_alter_ne by lia.
        split; reflexivity.
Qed.

End Composition.

(** C3 (as the code has it): for every sequence [i], [lenA[i]] is the number
    of columns whose code [esl_abc_XIsResidue] classifies as a residue
    (degenerate ones included), and [abcAA[i]] is what [esl_abc_DCount]
    leaves after it was called with weight [wgt[i]] on the code of every
    column in turn, degenerate or not: [_c_rfam_comp_and_len_stats] itself
    skips no code.  It is [_c_percent_coverage] that leaves a degenerate
    code uncounted. *)
Theorem comp_and_len_stats_rows :
  forall (D : Type) (HD : Double D) (L : EaselLib D) (msa : ESL_MSA D),
    truthy (Z.land (flags msa) eslMSA_DIGITAL) = true ->
    (forall i, (i < Z.to_nat (nseq msa))%nat ->
       is_Some (dcount_all (abc msa) (wgt msa !!! i)
                           (esl_vec_DSet (K (abc msa) + 1) (of_int 0))
                           (row_codes msa i))) ->
    (exists c,
       _c_rfam_comp_and_len_stats msa = Done c /\
       forall i, (i < Z.to_nat (nseq msa))%nat ->
         lenA c !! i = Some (residue_count (abc msa) (row_codes msa i)) /\
         abcAA c !! i
           = dcount_all (abc msa) (wgt msa !!! i)
                        (esl_vec_DSet (K (abc msa) + 1) (of_int 0))
                        (row_codes msa i)) /\
    (forall (abc_ct : list (list D)) (i apos : nat),
       esl_abc_XIsDegenerate (abc msa) (ax_at msa i (apos + 1)) = true ->
       coverage_count msa i abc_ct apos = Done abc_ct).
Proof.
  intros D HD L msa Hdig Hok. split.
  - unfold _c_rfam_comp_and_len_stats. rewrite Hdig. simpl.
    match goal with
    | |- context [for_each _ _ ?s] => set (st0 := s)
    end.
    destruct (comp_sequences msa (esl_vec_DSet (K (abc msa) + 1) (of_int 0))
                (Z.to_nat (nseq msa)) 0 st0) as (c & Hrun & _ & Hin & _).
    + unfold st0; simpl. rewrite length_replicate. lia.
    + intros i Hi. unfold st0, esl_vec_ISet; simpl.
      rewrite !lookup_replicate_2 by lia. split; reflexivity.
    + intros i Hi. apply Hok. lia.
    + exists c. split; [exact Hrun|].
      intros i Hi. destruct (Hin i) as [HA HL]; [lia|]. split; assumption.
  - intros abc_ct i apos Hdeg. unfold coverage_count. rewrite Hdeg. reflexivity.
Qed.

Lemma msa_degenerate_dcount_ok (i : nat) :
  (i < Z.to_nat (nseq (msa_degenerate (D := float))))%nat ->
  is_Some (dcount_all (abc (msa_degenerate (D := float)))
                      (wgt (msa_degenerate (D := float)) !!! i)
                      (esl_vec_DSet (K (abc (msa_degenerate (D := float))) + 1) (of_int 0))
                      (row_codes msa_degenerate i)).
Proof.
  intros Hi. change (Z.to_nat (nseq (msa_degenerate (D := float)))) with 2%nat in Hi.
  destruct i as [|[|i]]; [| |lia]; vm_compute; eexists; reflexivity.
Qed.

Lemma comp_and_len_stats_rows_witness :
  (exists c,
     _c_rfam_comp_and_len_stats (msa_degenerate (D := float)) = Done c /\
     forall i, (i < 2)%nat ->
       lenA c !! i = Some (residue_count Easel.rna (row_codes msa_degenerate i)) /\
       abcAA c !! i
         = dcount_all Easel.rna (wgt (msa_degenerate (D := float)) !!! i)
                      (esl_vec_DSet 5 0%float) (row_codes msa_degenerate i)) /\
  (forall (abc_ct : list (list float)) (i apos : nat),
     esl_abc_XIsDegenerate Easel.rna (ax_at (msa_degenerate (D := float)) i (apos + 1)) = true ->
     coverage_count msa_degenerate i abc_ct apos = Done abc_ct).
Proof.
  exact (comp_and_len_stats_rows float _ _ msa_degenerate eq_refl
           msa_degenerate_dcount_ok).
Defined.

(** C3, the claim as stated fails: the symbol [R] is degenerate, and the
    one-column alignment holding it gets half of the weight in bucket A and
    half in bucket G. *)
Lemma comp_and_len_degenerate_counted :
  esl_abc_XIsDegenerate Easel.rna 5 = true /\
  row_codes (msa_R (D := float)) 0 = [5] /\
  exists c,
    _c_rfam_comp_and_len_stats (msa_R (D := float)) = Done c /\
    lenA c = [1] /\
    abcAA c = [[0.5; 0; 0.5; 0; 0]%float] /\
    abcAA c <> [[0; 0; 0; 0; 0]%float].
Proof.
  split; [reflexivity|]. split; [reflexivity|].
  eexists. split; [vm_compute; reflexivity|]. simpl.
  split; [reflexivity|]. split; [reflexivity|].
  intros Heq.
  apply (f_equal (fun l => match l with
                           | (x :: _) :: _ => PrimFloat.eqb x 0
                           | _ => true
                           end)) in Heq.
  vm_compute in Heq. discriminate Heq.
Qed.

(** ** Arrays updated in a loop *)

Section ArrayLoops.
Context {A : Type}.

(** A loop that alters entry [k] at step [k] leaves at [p] the effect of
    step [p] alone. *)
Lemma fold_alter_own (f : nat -> A -> A) (n : nat) :
  forall (a : nat) (arr : list A) (p : nat),
    fold_left (fun arr k => alter (f k) k arr) (seq a n) arr !! p
      = if decide (a <= p < a + n)%nat then f p <$> arr !! p else arr !! p.
Proof.
  induction n as [|n IH]; intros a arr p; simpl.
  - rewrite decide_False by lia. reflexivity.
  - rewrite IH. destruct (decide (p = a)) as [->|Hne].
    + rewrite decide_False by lia. rewrite decide_True by lia.
      apply list_lookup_alter_eq.
    + rewrite list_lookup_alter_ne by congruence.
      destruct (decide (S a <= p < S a + n)%nat);
        [rewrite decide_True by lia | rewrite decide_False by lia]; reflexivity.
Qed.

(** A loop that alters the same entry [i] at every step composes the steps. *)
Lemma fold_alter_fixed (g : nat -> A -> A) (i : nat) (l : list nat) :
  forall (arr : list A) (p : nat),
    fold_left (fun arr k => alter (g k) i arr) l arr !! p
      = if decide (p = i)
        then (fun v => fold_left (fun v k => g k v) l v) <$> arr !! p
        else arr !! p.
Proof.
  induction l as [|k l IH]; intros arr p; simpl.
  - destruct (decide (p = i)); [|reflexivity]. destruct (arr !! p); reflexivity.
  - rewrite IH. destruct (decide (p = i)) as [->|Hne].
    + rewrite list_lookup_alter_eq. destruct (arr !! i); reflexivity.
    + rewrite list_lookup_alter_ne by congruence. reflexivity.
Qed.

(** Outer loop over [li], inner loop over the entries [0..n-1]: entry [p]
    receives the steps [f i p] for [i] in [li], in order. *)
Lemma fold_fold_alter_own (f : nat -> nat -> A -> A) (n : nat) (li : list nat) :
  forall (arr : list A) (p : nat),
    (p < n)%nat ->
    fold_left (fun arr i => fold_left (fun arr k => alter (f i k) k arr) (seq 0 n) arr)
              li arr !! p
      = (fun v => fold_left (fun v i => f i p v) li v) <$> arr !! p.
Proof.
  induction li as [|i li IH]; intros arr p Hp; simpl.
  - destruct (arr !! p); reflexivity.
  - rewrite IH by exact Hp. rewrite fold_alter_own.
    rewrite decide_True by lia. destruct (arr !! p); reflexivity.
Qed.

(** Outer loop over the entries [a..a+n-1], inner loop over [l] altering the
    entry of the outer loop. *)
Lemma fold_fold_alter_fixed (g : nat -> nat -> A -> A) (l : list nat) (n : nat) :
  forall (a : nat) (arr : list A) (p : nat),
    fold_left (fun arr i => fold_left (fun arr k => alter (g i k) i arr) l arr)
              (seq a n) arr !! p
      = if decide (a <= p < a + n)%nat
        then (fun v => fold_left (fun v k => g p k v) l v) <$> arr !! p
        else arr !! p.
Proof.
  induction n as [|n IH]; intros a arr p; simpl.
  - rewrite decide_False by lia. reflexivity.
  - rewrite IH. rewrite fold_alter_fixed.
    destruct (decide (p = a)) as [->|Hne].
    + rewrite decide_False by lia. rewrite decide_True by lia. reflexivity.
    + destruct (decide (S a <= p < S a + n)%nat);
        [rewrite decide_True by lia | rewrite decide_False by lia]; reflexivity.
Qed.

End ArrayLoops.

(** Counting with a conditional increment. *)
Lemma fold_count (c : nat -> bool) (l : list nat) (v : Z) :
  fold_left (fun v k => if c k then Z.succ v else v) l v
    = v + Z.of_nat (List.length (filter (fun k => c k = true) l)).
Proof.
  revert v. induction l as [|k l IH]; intros v; simpl; [lia|].
  rewrite IH, filter_cons. destruct (c k).
  - rewrite decide_True by reflexivity. simpl. lia.
  - rewrite decide_False by discriminate. reflexivity.
Qed.

(** ** [_c_rfam_bp_stats] *)

Section Basepairs.
Context {D : Type} {HD : Double D} {L : EaselLib D}.
Local Open Scope dbl_scope.

(** The loop over [j] only moves [covA[apos]] and [cov_cntA[apos]]. *)
Lemma bp_compare_fold (msa : ESL_MSA D) (apos rpos : nat) (a1 b1 ic1 : Z) (w1 : D)
    (js : list nat) :
  forall st : bp_acc,
    fold_left (bp_compare msa apos rpos a1 b1 ic1 w1) js st
      = {| seq_canA := seq_canA st;
           pos_canA := pos_canA st;
           covA :=
             alter (fun c =>
                      fold_left
                        (fun c j =>
                           c + (if truthy ic1 &&
                                   truthy (_c_bp_is_canonical (ax_at msa j (apos + 1))
                                                              (ax_at msa j (rpos + 1)))
                                then of_int (_c_bp_dist a1 b1 (ax_at msa j (apos + 1))
                                                        (ax_at msa j (rpos + 1)))
                                     * (w1 + wgt msa !!! j)
                                else of_int (-1 * _c_bp_dist a1 b1 (ax_at msa j (apos + 1))
                                                             (ax_at msa j (rpos + 1)))
                                     * (w1 + wgt msa !!! j)))
                        js c)
                   apos (covA st);
           cov_cntA :=
             alter (fun c => fold_left (fun c j => c + (w1 + wgt msa !!! j)) js c)
                   apos (cov_cntA st) |}.
Proof.
  induction js as [|j js IH]; intros st.
  - simpl. rewrite !list_alter_id by reflexivity. destruct st; reflexivity.
  - simpl. rewrite IH. unfold bp_compare at 1 2 3 4. simpl.
    rewrite !list_alter_alter_eq. reflexivity.
Qed.

(** The body of the loop over [apos], entry by entry. *)
Lemma bp_position_eq (msa : ESL_MSA D) (rposA : list Z) (i apos : nat) (st : bp_acc) :
  bp_position msa rposA i (wgt msa !!! i) st apos
    = {| seq_canA := alter (bp_step_can msa rposA i apos) i (seq_canA st);
         pos_canA := alter (bp_step_can msa rposA i apos) apos (pos_canA st);
         covA := alter (bp_step_cov msa rposA i apos) apos (covA st);
         cov_cntA := alter (bp_step_cnt msa rposA i apos) apos (cov_cntA st) |}.
Proof.
  unfold bp_position, bp_step_can, bp_step_cov, bp_step_cnt, bp_included.
  destruct (negb (rposA !!! apos =? -1)%Z); simpl.
  - destruct (negb (ax_at msa i (apos + 1) =? K (abc msa))%Z
              || negb (ax_at msa i (Z.to_nat (rposA !!! apos) + 1) =? K (abc msa))%Z);
      simpl.
    + rewrite bp_compare_fold. unfold bp_canonical.
      destruct (truthy (_c_bp_is_canonical (ax_at msa i (apos + 1))
                          (ax_at msa i (Z.to_nat (rposA !!! apos) + 1)))) eqn:Hc;
        simpl.
      * f_equal; apply list_alter_ext; trivial; intros c _;
          unfold bp_contrib, bp_canonical; rewrite Hc; reflexivity.
      * rewrite !(list_alter_id (fun n : Z => n)) by reflexivity.
        f_equal; apply list_alter_ext; trivial; intros c _;
          unfold bp_contrib, bp_canonical; rewrite Hc; reflexivity.
    + rewrite !list_alter_id by reflexivity. destruct st; reflexivity.
  - rewrite !list_alter_id by reflexivity. destruct st; reflexivity.
Qed.

(** The two outer loops, array by array. *)
Lemma bp_columns_fold (msa : ESL_MSA D) (rposA : list Z) (i : nat) (la : list nat) :
  forall st : bp_acc,
    fold_left (bp_position msa rposA i (wgt msa !!! i)) la st
      = {| seq_canA :=
             fold_left (fun arr apos => alter (bp_step_can msa rposA i apos) i arr)
                       la (seq_canA st);
           pos_canA :=
             fold_left (fun arr apos => alter (bp_step_can msa rposA i apos) apos arr)
                       la (pos_canA st);
           covA :=
             fold_left (fun arr apos => alter (bp_step_cov msa rposA i apos) apos arr)
                       la (covA st);
           cov_cntA :=
             fold_left (fun arr apos => alter (bp_step_cnt msa rposA i apos) apos arr)
                       la (cov_cntA st) |}.
Proof.
  induction la as [|apos la IH]; intros st; simpl.
  - destruct st; reflexivity.
  - rewrite bp_position_eq, IH. reflexivity.
Qed.

Lemma bp_rows_fold (msa : ESL_MSA D) (rposA : list Z) (la li : list nat) :
  forall st : bp_acc,
    fold_left (fun st i => fold_left (bp_position msa rposA i (wgt msa !!! i)) la st)
              li st
      = {| seq_canA :=
             fold_left
               (fun arr i =>
                  fold_left (fun arr apos => alter (bp_step_can msa rposA i apos) i arr)
                            la arr)
               li (seq_canA st);
           pos_canA :=
             fold_left
               (fun arr i =>
                  fold_left (fun arr apos => alter (bp_step_can msa rposA i apos) apos arr)
                            la arr)
               li (pos_canA st);
           covA :=
             fold_left
               (fun arr i =>
                  fold_left (fun arr apos => alter (bp_step_cov msa rposA i apos) apos arr)
                            la arr)
               li (covA st);
           cov_cntA :=
             fold_left
               (fun arr i =>
                  fold_left (fun arr apos => alter (bp_step_cnt msa rposA i apos) apos arr)
                            la arr)
               li (cov_cntA st) |}.
Proof.
  induction li as [|i li IH]; intros st; simpl.
  - destruct st; reflexivity.
  - rewrite bp_columns_fold, IH. reflexivity.
Qed.

Lemma fold_left_map_arg {X Y Z' : Type} (f : Z' -> Y -> Z') (g : X -> Y) (l : list X) :
  forall v, fold_left f (map g l) v = fold_left (fun v x => f v (g x)) l v.
Proof. induction l as [|x l IH]; intros v; simpl; [reflexivity | apply IH]. Qed.

(** The steps of the sequences at one column are the visits of [bp_pairs]. *)
Lemma bp_step_cov_pairs (msa : ESL_MSA D) (rposA : list Z) (apos : nat) (li : list nat) :
  forall v : D,
    fold_left (fun v i => bp_step_cov msa rposA i apos v) li v
      = fold_left (fun c '(i, j) => c + bp_contrib msa rposA apos i j)
          (flat_map
             (fun i => if bp_included msa rposA i apos
                       then map (pair i) (seq (i + 1) (Z.to_nat (nseq msa) - (i + 1)))
                       else [])
             li) v.
Proof.
  induction li as [|i li IH]; intros v; simpl; [reflexivity|].
  rewrite fold_left_app, IH. f_equal.
  unfold bp_step_cov. destruct (bp_included msa rposA i apos); [|reflexivity].
  rewrite fold_left_map_arg. reflexivity.
Qed.

Lemma bp_step_cnt_pairs (msa : ESL_MSA D) (rposA : list Z) (apos : nat) (li : list nat) :
  forall v : D,
    fold_left (fun v i => bp_step_cnt msa rposA i apos v) li v
      = fold_left (fun c '(i, j) => c + (wgt msa !!! i + wgt msa !!! j))
          (flat_map
             (fun i => if bp_included msa rposA i apos
                       then map (pair i) (seq (i + 1) (Z.to_nat (nseq msa) - (i + 1)))
                       else [])
             li) v.
Proof.
  induction li as [|i li IH]; intros v; simpl; [reflexivity|].
  rewrite fold_left_app, IH. f_equal.
  unfold bp_step_cnt. destruct (bp_included msa rposA i apos); [|reflexivity].
  rewrite fold_left_map_arg. reflexivity.
Qed.

(** The accumulated arrays, entry by entry. *)
Lemma bp_accumulate_column (msa : ESL_MSA D) (rposA : list Z) (apos : nat) :
  (apos < Z.to_nat (alen msa))%nat ->
  covA (bp_accumulate msa rposA) !! apos
    = Some (fold_left (fun v i => bp_step_cov msa rposA i apos v)
                      (upto (nseq msa)) (of_int 0)) /\
  cov_cntA (bp_accumulate msa rposA) !! apos
    = Some (fold_left (fun v i => bp_step_cnt msa rposA i apos v)
                      (upto (nseq msa)) (of_int 0)) /\
  pos_canA (bp_accumulate msa rposA) !! apos
    = Some (fold_left (fun v i => bp_step_can msa rposA i apos v)
                      (upto (nseq msa)) 0%Z).
Proof.
  intros Hp. unfold bp_accumulate. rewrite bp_rows_fold. simpl.
  unfold upto.
  rewrite !fold_fold_alter_own by exact Hp.
  unfold esl_vec_DSet, esl_vec_ISet.
  rewrite !lookup_replicate_2 by exact Hp. repeat split; reflexivity.
Qed.

Lemma bp_accumulate_row (msa : ESL_MSA D) (rposA : list Z) (i : nat) :
  (i < Z.to_nat (nseq msa))%nat ->
  seq_canA (bp_accumulate msa rposA) !! i
    = Some (fold_left (fun v apos => bp_step_can msa rposA i apos v)
                      (upto (alen msa)) 0%Z).
Proof.
  intros Hi. unfold bp_accumulate. rewrite bp_rows_fold. simpl.
  unfold upto.
  rewrite fold_fold_alter_fixed. rewrite decide_True by lia.
  unfold esl_vec_ISet. rewrite lookup_replicate_2 by exact Hi. reflexivity.
Qed.

End Basepairs.

(** C2 (as the code has it): at a retained pair of columns, sequence [i] is
    looked at unless BOTH halves of its pair are the gap code [K] (one
    non-gap half suffices); it is counted in [seq_canA[i]] and
    [pos_canA[apos]] when its pair is moreover canonical.  Each sequence
    looked at is compared with every later sequence [j], whatever [j] holds
    there; the pair (i,j) adds [d * (wgt[i] + wgt[j])] to [covA[apos]] when
    both pairs are canonical and [-1 * d * (wgt[i] + wgt[j])] otherwise,
    [d] being their [_c_bp_dist], and adds [wgt[i] + wgt[j]] to
    [cov_cntA[apos]]. *)
Theorem bp_accumulate_spec :
  forall (D : Type) (HD : Double D) (L : EaselLib D) (msa : ESL_MSA D) (rposA : list Z),
    (forall i apos,
        bp_included msa rposA i apos = true <->
        rposA !!! apos <> -1 /\
        (ax_at msa i (apos + 1) <> K (abc msa) \/
         ax_at msa i (Z.to_nat (rposA !!! apos) + 1) <> K (abc msa))) /\
    (forall apos i j,
        In (i, j) (bp_pairs msa rposA apos) <->
        (i < j < Z.to_nat (nseq msa))%nat /\ bp_included msa rposA i apos = true) /\
    (forall apos i j,
        let rpos := Z.to_nat (rposA !!! apos) in
        let a1 := ax_at msa i (apos + 1) in
        let b1 := ax_at msa i (rpos + 1) in
        let a2 := ax_at msa j (apos + 1) in
        let b2 := ax_at msa j (rpos + 1) in
        bp_contrib msa rposA apos i j
          = if truthy (_c_bp_is_canonical a1 b1) && truthy (_c_bp_is_canonical a2 b2)
            then (of_int (_c_bp_dist a1 b1 a2 b2) * (wgt msa !!! i + wgt msa !!! j))%D
            else (of_int (-1 * _c_bp_dist a1 b1 a2 b2)
                  * (wgt msa !!! i + wgt msa !!! j))%D) /\
    (forall apos, (apos < Z.to_nat (alen msa))%nat ->
        covA (bp_accumulate msa rposA) !! apos
          = Some (fold_left (fun c '(i, j) => (c + bp_contrib msa rposA apos i j)%D)
                            (bp_pairs msa rposA apos) (of_int 0)) /\
        cov_cntA (bp_accumulate msa rposA) !! apos
          = Some (fold_left (fun c '(i, j) => (c + (wgt msa !!! i + wgt msa !!! j))%D)
                            (bp_pairs msa rposA apos) (of_int 0)) /\
        pos_canA (bp_accumulate msa rposA) !! apos
          = Some (Z.of_nat (List.length
                    (filter (fun i => bp_included msa rposA i apos
                                      && bp_canonical msa rposA i apos = true)
                            (upto (nseq msa)))))) /\
    (forall i, (i < Z.to_nat (nseq msa))%nat ->
        seq_canA (bp_accumulate msa rposA) !! i
          = Some (Z.of_nat (List.length
                    (filter (fun apos => bp_included msa rposA i apos
                                         && bp_canonical msa rposA i apos = true)
                            (upto (alen msa)))))).
Proof.
  intros D HD L msa rposA.
  split; [|split; [|split; [|split]]].
  - intros i apos. unfold bp_included. split.
    + intros Hinc.
      apply andb_true_iff in Hinc as [Hr Hg]. apply negb_true_iff, Z.eqb_neq in Hr.
      split; [exact Hr|]. apply orb_true_iff in Hg as [Hg|Hg];
        apply negb_true_iff, Z.eqb_neq in Hg; [left|right]; exact Hg.
    + intros [Hr Hg].
      apply andb_true_iff. split; [apply negb_true_iff, Z.eqb_neq; exact Hr|].
      apply orb_true_iff. destruct Hg as [Hg|Hg]; [left|right];
        apply negb_true_iff, Z.eqb_neq; exact Hg.
  - intros apos i j. unfold bp_pairs. rewrite in_flat_map. split.
    + intros (i' & Hi' & Hin).
      destruct (bp_included msa rposA i' apos) eqn:Hinc; [|contradiction].
      apply in_map_iff in Hin as (j' & Heq & Hj'). injection Heq as -> ->.
      apply in_seq in Hj'. split; [lia | exact Hinc].
    + intros [Hij Hinc]. exists i. split.
      * unfold upto. apply in_seq. lia.
      * rewrite Hinc. apply in_map. apply in_seq. lia.
  - intros apos i j. reflexivity.
  - intros apos Hp.
    destruct (bp_accumulate_column msa rposA apos Hp) as (Hc & Hn & Hk).
    rewrite Hc, Hn, Hk. split; [|split].
    + f_equal. apply bp_step_cov_pairs.
    + f_equal. apply bp_step_cnt_pairs.
    + f_equal. unfold bp_step_can.
      rewrite (fold_count (fun i => bp_included msa rposA i apos
                                    && bp_canonical msa rposA i apos)).
      reflexivity.
  - intros i Hi.
    rewrite (bp_accumulate_row msa rposA i Hi). f_equal. unfold bp_step_can.
    rewrite (fold_count (fun apos => bp_included msa rposA i apos
                                     && bp_canonical msa rposA i apos)).
    reflexivity.
Qed.

(** C2, the claim as stated fails.  In [msa_half_gap] the first sequence
    has a gap as right half of the only basepair and is still compared with
    the second sequence; in [msa_gap_partner] the second sequence has gaps
    in both halves and is still compared with the first. *)
Lemma bp_stats_gap_halves_included :
  (exists b,
     _c_rfam_bp_stats (msa_half_gap (D := float)) = Done b /\
     ret_rposA b = [1; -1] /\
     ax_at (msa_half_gap (D := float)) 0 2 = K (abc (msa_half_gap (D := float))) /\
     bp_pairs (msa_half_gap (D := float)) (ret_rposA b) 0 = [(0, 1)%nat] /\
     covA (bp_accumulate msa_half_gap (ret_rposA b)) = [(-2)%float; 0%float] /\
     cov_cntA (bp_accumulate msa_half_gap (ret_rposA b)) = [2%float; 0%float]) /\
  (exists b,
     _c_rfam_bp_stats (msa_gap_partner (D := float)) = Done b /\
     ret_rposA b = [1; -1] /\
     ax_at (msa_gap_partner (D := float)) 1 1 = K (abc (msa_gap_partner (D := float))) /\
     ax_at (msa_gap_partner (D := float)) 1 2 = K (abc (msa_gap_partner (D := float))) /\
     bp_pairs (msa_gap_partner (D := float)) (ret_rposA b) 0 = [(0, 1)%nat] /\
     covA (bp_accumulate msa_gap_partner (ret_rposA b)) = [(-4)%float; 0%float] /\
     cov_cntA (bp_accumulate msa_gap_partner (ret_rposA b)) = [2%float; 0%float]).
Proof.
  split; eexists; (split; [vm_compute; reflexivity|]); simpl;
    repeat split; vm_compute; reflexivity.
Qed.

Section BasepairStats.
Context {D : Type} {HD : Double D} {L : EaselLib D}.
Local Open Scope dbl_scope.

(** The count of basepairs only grows, and stays put only if no basepair
    was recorded. *)
Lemma bp_locate_fold (ct : list Z) (l : list nat) :
  forall (nbp : Z) (rposA : list Z),
    (nbp <= fst (fold_left (bp_locate ct) l (nbp, rposA)))%Z /\
    (fst (fold_left (bp_locate ct) l (nbp, rposA)) = nbp ->
     snd (fold_left (bp_locate ct) l (nbp, rposA)) = rposA).
Proof.
  induction l as [|apos l IH]; intros nbp rposA; simpl.
  - split; [lia | reflexivity].
  - destruct (ct !!! (apos + 1)%nat >? Z.of_nat apos + 1)%Z.
    + destruct (IH (nbp + 1)%Z (<[apos := (ct !!! (apos + 1)%nat - 1)%Z]> rposA))
        as [Hle _].
      split; [lia | intros Heq; lia].
    + apply IH.
Qed.

(** What the first loop records: the partner of every left half, and the
    number of left halves. *)
Lemma bp_locate_entries (ct : list Z) (n : nat) :
  forall (a : nat) (nbp : Z) (rposA : list Z),
    (a + n <= List.length rposA)%nat ->
    fst (fold_left (bp_locate ct) (seq a n) (nbp, rposA))
      = (nbp + Z.of_nat (List.length
                 (filter (fun apos => (ct !!! (apos + 1)%nat >? Z.of_nat apos + 1)%Z = true)
                         (seq a n))))%Z /\
    (forall p, (a <= p < a + n)%nat ->
               (ct !!! (p + 1)%nat >? Z.of_nat p + 1)%Z = true ->
               snd (fold_left (bp_locate ct) (seq a n) (nbp, rposA)) !! p
                 = Some (ct !!! (p + 1)%nat - 1)%Z) /\
    (forall p, ~ (a <= p < a + n)%nat \/
               (ct !!! (p + 1)%nat >? Z.of_nat p + 1)%Z = false ->
               snd (fold_left (bp_locate ct) (seq a n) (nbp, rposA)) !! p
                 = rposA !! p).
Proof.
  induction n as [|n IH]; intros a nbp rposA Hlen.
  - simpl. split; [lia|]. split; [intros; lia | reflexivity].
  - simpl seq. simpl fold_left. rewrite filter_cons.
    destruct (ct !!! (a + 1)%nat >? Z.of_nat a + 1)%Z eqn:Hc.
    + rewrite decide_True by reflexivity.
      destruct (IH (S a) (nbp + 1)%Z (<[a := (ct !!! (a + 1)%nat - 1)%Z]> rposA))
        as (Hn & Hin & Hout); [rewrite length_insert; lia|].
      split; [rewrite Hn; simpl List.length; lia|]. split.
      * intros p Hp Hcp. destruct (decide (p = a)) as [->|Hne].
        -- rewrite Hout by (left; lia). apply list_lookup_insert_eq. lia.
        -- apply Hin; [lia | exact Hcp].
      * intros p Hp. rewrite Hout.
        -- apply list_lookup_insert_ne. intros ->. destruct Hp as [Hp|Hp]; [lia|congruence].
        -- destruct Hp as [Hp|Hp]; [left; lia | right; exact Hp].
    + rewrite decide_False by discriminate.
      destruct (IH (S a) nbp rposA) as (Hn & Hin & Hout); [lia|].
      split; [exact Hn|]. split.
      * intros p Hp Hcp. destruct (decide (p = a)) as [->|Hne]; [congruence|].
        apply Hin; [lia | exact Hcp].
      * intros p Hp. apply Hout. destruct Hp as [Hp|Hp]; [left; lia | right; exact Hp].
Qed.

(** The body of the last loop alters [covA[apos]] alone. *)
Lemma bp_normalize_fold (rposA : list Z) (cnt : list D) (l : list nat) :
  forall cov : list D,
    fold_left (bp_normalize rposA cnt) l cov
      = fold_left (fun arr k => alter (bp_norm rposA cnt k) k arr) l cov.
Proof.
  induction l as [|apos l IH]; intros cov; simpl; [reflexivity|].
  rewrite IH. f_equal. unfold bp_normalize, bp_norm.
  destruct (negb (rposA !!! apos =? -1)%Z); simpl.
  - destruct (fabs (cnt !!! apos) >? lit_1E_10); [reflexivity|].
    symmetry. apply list_alter_id. reflexivity.
  - symmetry. apply list_alter_id. reflexivity.
Qed.

Lemma fold_left_fixed {X Y : Type} (f : X -> Y -> X) (l : list Y) (v : X) :
  (forall y, f v y = v) -> fold_left f l v = v.
Proof.
  intros Hf. induction l as [|y l IH]; simpl; [reflexivity|]. rewrite Hf. exact IH.
Qed.

(** A column that is not the left half of a basepair accumulates nothing. *)
Lemma bp_accumulate_unpaired (msa : ESL_MSA D) (rposA : list Z) (apos : nat) :
  (apos < Z.to_nat (alen msa))%nat ->
  rposA !!! apos = (-1)%Z ->
  covA (bp_accumulate msa rposA) !! apos = Some (of_int 0) /\
  cov_cntA (bp_accumulate msa rposA) !! apos = Some (of_int 0).
Proof.
  intros Hp Hr.
  destruct (bp_accumulate_column msa rposA apos Hp) as (Hc & Hn & _).
  rewrite Hc, Hn.
  assert (Hinc : forall i, bp_included msa rposA i apos = false).
  { intros i. unfold bp_included. rewrite Hr. reflexivity. }
  split; f_equal; apply fold_left_fixed; intros i;
    unfold bp_step_cov, bp_step_cnt; rewrite Hinc; reflexivity.
Qed.

End BasepairStats.

Lemma Qlt_bool_asym (a b : Q) : Qlt_bool a b = true -> Qlt_bool b a = false.
Proof.
  unfold Qlt_bool. intros Hab. apply negb_true_iff in Hab. apply negb_false_iff.
  apply Qle_bool_iff. apply Qlt_le_weak. apply Qnot_le_lt.
  intros Hle. apply Qle_bool_iff in Hle. congruence.
Qed.

(** C4: [_c_rfam_bp_stats] computes the mean covariation as one ratio, the
    sum of [covA] over the sum of [cov_cntA], from the sums as accumulated
    (columns that are not the left half of a basepair hold 0 in both);
    only afterwards is [covA[apos]] of each basepair divided by its own
    [cov_cntA[apos]], and it is left as it is when the absolute value of
    that count is not above 1E-10, in particular when it is below.  With no
    basepair the mean covariation is 0 and no basepair is reported. *)
Theorem bp_stats_mean_cov :
  forall (D : Type) (HD : Double D) (L : EaselLib D) (msa : ESL_MSA D) (ct : list Z),
    (forall a b : D, (a <? b)%D = true -> (b <? a)%D = false) ->
    esl_wuss2ct (esl_wuss_nopseudo (ss_cons msa)) (alen msa) = (eslOK, ct) ->
    exists b,
      _c_rfam_bp_stats msa = Done b /\
      let acc := bp_accumulate msa (ret_rposA b) in
      ret_seq_canA b = seq_canA acc /\
      ret_pos_canA b = pos_canA acc /\
      (forall apos, (apos < Z.to_nat (alen msa))%nat ->
         ret_rposA b !! apos
           = Some (if ct !!! (apos + 1)%nat >? Z.of_nat apos + 1
                   then ct !!! (apos + 1)%nat - 1 else -1)) /\
      ret_nbp b
        = Z.of_nat (List.length
            (filter (fun apos => (ct !!! (apos + 1)%nat >? Z.of_nat apos + 1) = true)
                    (upto (alen msa)))) /\
      (ret_nbp b <> 0 ->
       ret_mean_cov b
         = (esl_vec_DSum (covA acc) (alen msa)
            / esl_vec_DSum (cov_cntA acc) (alen msa))%D) /\
      (forall apos, (apos < Z.to_nat (alen msa))%nat ->
         ret_rposA b !!! apos = -1 ->
         covA acc !! apos = Some (of_int 0) /\
         cov_cntA acc !! apos = Some (of_int 0) /\
         ret_covA b !! apos = Some (of_int 0)) /\
      (forall apos, (apos < Z.to_nat (alen msa))%nat ->
         ret_rposA b !!! apos <> -1 ->
         ((fabs (cov_cntA acc !!! apos) >? lit_1E_10)%D = true ->
          ret_covA b !! apos
            = Some (covA acc !!! apos / cov_cntA acc !!! apos)%D) /\
         ((fabs (cov_cntA acc !!! apos) >? lit_1E_10)%D = false ->
          ret_covA b !! apos = Some (covA acc !!! apos)) /\
         ((fabs (cov_cntA acc !!! apos) <? lit_1E_10)%D = true ->
          ret_covA b !! apos = Some (covA acc !!! apos))) /\
      (ret_nbp b = 0 ->
       ret_mean_cov b = of_int 0 /\
       qc_bp_lines msa b = [] /\
       forall apos, (apos < Z.to_nat (alen msa))%nat ->
                    ret_rposA b !! apos = Some (-1)).
Proof.
  intros D HD L msa ct Hasym Hct.
  unfold _c_rfam_bp_stats. rewrite Hct. simpl.
  destruct (fold_left (bp_locate ct) (upto (alen msa))
                      (0, esl_vec_ISet (alen msa) (-1))) as [nbp rposA] eqn:Hloc.
  eexists. split; [reflexivity|]. simpl.
  set (acc := bp_accumulate msa rposA).
  assert (Hfinal : forall apos, (apos < Z.to_nat (alen msa))%nat ->
            fold_left (bp_normalize rposA (cov_cntA acc)) (upto (alen msa)) (covA acc)
              !! apos
            = Some (bp_norm rposA (cov_cntA acc) apos (covA acc !!! apos))).
  { intros apos Hp. rewrite bp_normalize_fold. unfold upto.
    rewrite fold_alter_own. rewrite decide_True by lia.
    destruct (bp_accumulate_column msa rposA apos Hp) as (Hc & _ & _).
    fold acc in Hc. rewrite (list_lookup_total_correct _ _ _ Hc), Hc. reflexivity. }
  destruct (bp_locate_entries ct (Z.to_nat (alen msa)) 0 0
              (esl_vec_ISet (alen msa) (-1))) as (Hcount & Hleft & Hother).
  { unfold esl_vec_ISet. rewrite length_replicate. lia. }
  fold (upto (alen msa)) in Hcount, Hleft, Hother.
  rewrite Hloc in Hcount, Hleft, Hother. simpl in Hcount, Hleft, Hother.
  rewrite Z.add_0_l in Hcount.
  split; [reflexivity|]. split; [reflexivity|].
  split; [|split; [exact Hcount|]].
  { intros apos Hp.
    destruct (ct !!! (apos + 1)%nat >? Z.of_nat apos + 1) eqn:Hc.
    - apply Hleft; [lia | exact Hc].
    - rewrite Hother by (right; exact Hc).
      unfold esl_vec_ISet. apply lookup_replicate_2. exact Hp. }
  split; [|split; [|split]].
  - intros Hn. apply Z.eqb_neq in Hn. rewrite Hn. reflexivity.
  - intros apos Hp Hr.
    destruct (bp_accumulate_unpaired msa rposA apos Hp Hr) as [Hc Hn].
    fold acc in Hc, Hn. split; [exact Hc|]. split; [exact Hn|].
    rewrite (Hfinal apos Hp). unfold bp_norm. rewrite Hr. simpl.
    rewrite (list_lookup_total_correct _ _ _ Hc). reflexivity.
  - intros apos Hp Hr. apply Z.eqb_neq in Hr.
    rewrite (Hfinal apos Hp). unfold bp_norm. rewrite Hr. simpl.
    split; [|split].
    + intros Hgt. rewrite Hgt. reflexivity.
    + intros Hgt. rewrite Hgt. reflexivity.
    + intros Hlt. rewrite (Hasym _ _ Hlt). reflexivity.
  - intros Hn.
    destruct (bp_locate_fold ct (upto (alen msa)) 0 (esl_vec_ISet (alen msa) (-1)))
      as [_ Hsame].
    rewrite Hloc in Hsame. simpl in Hsame. specialize (Hsame Hn).
    clear Hloc Hcount Hleft Hother Hfinal. subst rposA.
    split; [rewrite Hn; reflexivity|]. split.
    + unfold qc_bp_lines. simpl.
      assert (Hall : forall l : list nat,
                 Forall (fun apos => (apos < Z.to_nat (alen msa))%nat) l ->
                 flat_map
                   (fun apos =>
                      if negb (esl_vec_ISet (alen msa) (-1) !!! apos =? -1)
                      then [ {| bp_fam := name msa;
                                bp_left := Z.of_nat apos + 1;
                                bp_right := esl_vec_ISet (alen msa) (-1) !!! apos + 1;
                                bp_frac_canonical :=
                                  (of_int (pos_canA acc !!! apos) / of_int (nseq msa))%D;
                                bp_cov :=
                                  fold_left (bp_normalize (esl_vec_ISet (alen msa) (-1))
                                                          (cov_cntA acc))
                                            (upto (alen msa)) (covA acc) !!! apos |} ]
                      else []) l = []).
      { induction l as [|apos l IH]; intros Hl; [reflexivity|].
        apply Forall_cons in Hl as [Hp Hl]. simpl.
        unfold esl_vec_ISet at 1. rewrite lookup_total_replicate_2 by exact Hp.
        simpl. apply IH. exact Hl. }
      apply Hall. apply Forall_forall. intros apos Hin.
      apply list_elem_of_In, in_seq in Hin. lia.
    + intros apos Hp. unfold esl_vec_ISet. apply lookup_replicate_2. exact Hp.
Qed.

Lemma bp_stats_mean_cov_witness :
  exists b,
    _c_rfam_bp_stats (msa_hairpin (D := Q)) = Done b /\
    ret_nbp b = 1 /\
    ret_mean_cov b
      = Qdiv (esl_vec_DSum (covA (bp_accumulate msa_hairpin (ret_rposA b))) 3)
             (esl_vec_DSum (cov_cntA (bp_accumulate msa_hairpin (ret_rposA b))) 3) /\
    ret_covA b !! 1%nat = Some 0%Q.
Proof.
  destruct (bp_stats_mean_cov Q Double_Q Easel.lib msa_hairpin [0; 3; 0; 1]
              Qlt_bool_asym eq_refl)
    as (b & Hb & _ & _ & _ & _ & Hmean & Hunpaired & _ & _).
  assert (Hn : ret_nbp b = 1 /\ ret_rposA b = [2; -1; -1]).
  { vm_compute in Hb. injection Hb as <-. split; reflexivity. }
  destruct Hn as [Hn Hr].
  exists b. split; [exact Hb|]. split; [exact Hn|]. split.
  - apply Hmean. rewrite Hn. discriminate.
  - apply (Hunpaired 1%nat).
    + vm_compute. lia.
    + rewrite Hr. reflexivity.
Defined.

(** ** [_c_rfam_pid_stats] on two sequences or more *)

Section PidLoops.
Context {D : Type} {HD : Double D} {L : EaselLib D}.

(** When every call of the identity routine succeeds, the loop over [j]
    is a fold of [pid_update]. *)
Lemma pid_pair_ok (msa : ESL_MSA D) (i j : nat) (st : D * D * D) :
  fst (pair_id msa i j) = eslOK ->
  pid_pair msa i st j = Done (pid_update st (pid_of msa (i, j))).
Proof.
  intros Hj. unfold pid_pair, pid_update, pid_of. simpl fst. simpl snd.
  destruct st as [[pid_mean pid_min] pid_max].
  destruct (pair_id msa i j) as [status pid]. simpl in Hj. subst status.
  reflexivity.
Qed.

Lemma pid_inner_loop (msa : ESL_MSA D) (i : nat) (js : list nat) :
  forall st : D * D * D,
    (forall j, In j js -> fst (pair_id msa i j) = eslOK) ->
    for_each js (pid_pair msa i) st
      = Done (fold_left pid_update (map (fun j => pid_of msa (i, j)) js) st).
Proof.
  induction js as [|j js IH]; intros st Hok; [reflexivity|].
  rewrite for_each_cons.
  rewrite pid_pair_ok by (apply Hok; left; reflexivity).
  simpl. apply IH. intros j' Hin. apply Hok. right. exact Hin.
Qed.

Lemma pid_outer_loop (msa : ESL_MSA D) (n : nat) (li : list nat) :
  forall st : D * D * D,
    (forall i j, In i li -> In j (seq (i + 1) (n - (i + 1))) ->
                 fst (pair_id msa i j) = eslOK) ->
    for_each li
      (fun st i => for_each (seq (i + 1) (n - (i + 1))) (pid_pair msa i) st) st
      = Done (fold_left pid_update
                (map (pid_of msa)
                     (flat_map (fun i => map (pair i) (seq (i + 1) (n - (i + 1)))) li))
                st).
Proof.
  induction li as [|i li IH]; intros st Hok; [reflexivity|].
  rewrite for_each_cons.
  rewrite pid_inner_loop by (intros j Hj; apply Hok; [left; reflexivity | exact Hj]).
  simpl. rewrite IH by (intros i' j Hi' Hj; apply Hok; [right; exact Hi' | exact Hj]).
  rewrite map_app, fold_left_app, map_map. reflexivity.
Qed.

End PidLoops.





(** *** Exact arithmetic *)

Lemma Qlt_bool_true (a b : Q) : Qlt_bool a b = true <-> (a < b)%Q.
Proof.
  unfold Qlt_bool. rewrite negb_true_iff. split.
  - intros Hf. apply Qnot_le_lt. intros Hle. apply Qle_bool_iff in Hle. congruence.
  - intros Hlt. destruct (Qle_bool b a) eqn:Hle; [|reflexivity].
    apply Qle_bool_iff in Hle. exfalso. apply (Qlt_not_le _ _ Hlt Hle).
Qed.

Lemma Qlt_bool_false (a b : Q) : Qlt_bool a b = false <-> (b <= a)%Q.
Proof.
  unfold Qlt_bool. rewrite negb_false_iff. apply Qle_bool_iff.
Qed.







(** ** The reference identity routine stays in [0,1] *)

Lemma xpairid_scan_bounds (a : ESL_ALPHABET) (ax1 : list Z) :
  forall (ax2 : list Z) (idents len1 len2 : Z),
    0 <= idents <= len1 -> idents <= len2 ->
    let '(idents', len1', len2', _) := Easel.xpairid_scan a ax1 ax2 idents len1 len2 in
    0 <= idents' <= len1' /\ idents' <= len2'.
Proof.
  induction ax1 as [|x1 r1 IH]; intros ax2 idents len1 len2 H1 H2.
  - destruct ax2; simpl; lia.
  - destruct ax2 as [|x2 r2]; simpl; [lia|].
    destruct ((x1 =? eslDSQ_SENTINEL) || (x2 =? eslDSQ_SENTINEL)); [lia|].
    apply IH;
      destruct (Easel.abc_XIsCanonical a x1), (Easel.abc_XIsCanonical a x2),
               (x1 =? x2); simpl; lia.
Qed.

Lemma dst_XPairId_range (a : ESL_ALPHABET) (ax1 ax2 : list Z) :
  (0 <= snd (Easel.dst_XPairId (D := Q) a ax1 ax2) <= 1)%Q.
Proof.
  unfold Easel.dst_XPairId.
  assert (Hb := xpairid_scan_bounds a (tail ax1) (tail ax2) 0 0 0 ltac:(lia) ltac:(lia)).
  destruct (Easel.xpairid_scan a (tail ax1) (tail ax2) 0 0 0)
    as [[[idents len1] len2] together].
  destruct Hb as [[Hi0 Hi1] Hi2].
  destruct (negb together); simpl; [split; discriminate|].
  set (len := if len2 <? len1 then len2 else len1).
  assert (Hlen : idents <= len) by (unfold len; destruct (len2 <? len1); lia).
  destruct (Z.eqb_spec len 0) as [_|Hne]; simpl; [split; discriminate|].
  assert (Hpos : (0 < inject_Z len)%Q).
  { change 0%Q with (inject_Z 0). rewrite <- Zlt_Qlt. lia. }
  split.
  - apply Qle_shift_div_l; [exact Hpos|]. rewrite Qmult_0_l.
    change 0%Q with (inject_Z 0). rewrite <- Zle_Qle. exact Hi0.
  - apply Qle_shift_div_r; [exact Hpos|]. rewrite Qmult_1_l.
    rewrite <- Zle_Qle. exact Hlen.
Qed.

(** * The other helpers *)

(** ** [_c_int_copy_array_perl_to_c] *)

Lemma copy_element_integer (perlAR : AV) (cA : list Z) (i : nat) (iv : Z) :
  av_fetch perlAR i = Some (SvInteger iv) ->
  copy_element perlAR cA i = Done (<[i := wrap_int iv]> cA).
Proof. intros Hf. unfold copy_element. rewrite Hf. reflexivity. Qed.

Lemma copy_element_done (perlAR : AV) (cA out : list Z) (i : nat) :
  copy_element perlAR cA i = Done out ->
  exists iv, av_fetch perlAR i = Some (SvInteger iv) /\ out = <[i := wrap_int iv]> cA.
Proof.
  unfold copy_element. destruct (av_fetch perlAR i) as [[iv|]|]; simpl; intros Hd;
    try discriminate Hd.
  injection Hd as <-. exists iv. split; reflexivity.
Qed.

(** The loop over the indices [a, a+n): it finishes exactly when each of
    them holds an integer, and then stores them. *)
Lemma copy_loop_done (perlAR : AV) (n : nat) :
  forall (a : nat) (cA out : list Z),
    (a + n <= List.length cA)%nat ->
    for_each (seq a n) (copy_element perlAR) cA = Done out ->
    List.length out = List.length cA /\
    (forall i, (a <= i < a + n)%nat ->
       exists iv, av_fetch perlAR i = Some (SvInteger iv) /\
                  out !! i = Some (wrap_int iv)) /\
    (forall i, ~ (a <= i < a + n)%nat -> out !! i = cA !! i).
Proof.
  induction n as [|n IH]; intros a cA out Hlen Hrun.
  - simpl in Hrun. injection Hrun as <-.
    split; [reflexivity|]. split; [intros; lia | reflexivity].
  - change (seq a (S n)) with (a :: seq (S a) n) in Hrun.
    rewrite for_each_cons in Hrun.
    destruct (copy_element perlAR cA a) as [cA1|e] eqn:Hstep; [|discriminate Hrun].
    apply copy_element_done in Hstep as (iv & Hf & ->).
    change (for_each (seq (S a) n) (copy_element perlAR) (<[a := wrap_int iv]> cA)
            = Done out) in Hrun.
    apply IH in Hrun as (Hl & Hin & Hout); [|rewrite length_insert; lia].
    rewrite length_insert in Hl. split; [exact Hl|]. split.
    + intros i Hi. destruct (decide (i = a)) as [->|Hne].
      * exists iv. split; [exact Hf|]. rewrite Hout by lia.
        apply list_lookup_insert_eq. lia.
      * apply Hin. lia.
    + intros i Hi. rewrite Hout by lia. apply list_lookup_insert_ne. lia.
Qed.

Lemma copy_loop_runs (perlAR : AV) (n : nat) :
  forall (a : nat) (cA : list Z),
    (forall i, (a <= i < a + n)%nat -> exists iv, av_fetch perlAR i = Some (SvInteger iv)) ->
    exists out, for_each (seq a n) (copy_element perlAR) cA = Done out.
Proof.
  induction n as [|n IH]; intros a cA Hint.
  - exists cA. reflexivity.
  - destruct (Hint a) as [iv Hf]; [lia|].
    change (seq a (S n)) with (a :: seq (S a) n). rewrite for_each_cons.
    rewrite (copy_element_integer _ _ _ _ Hf).
    apply (IH (S a)). intros i Hi. apply Hint. lia.
Qed.

(** The first index that holds no integer stops the copy with its message. *)
Lemma copy_loop_stops (perlAR : AV) (n : nat) :
  forall (a k : nat) (cA : list Z),
    (a <= k < a + n)%nat ->
    (forall i, (a <= i < k)%nat -> exists iv, av_fetch perlAR i = Some (SvInteger iv)) ->
    (forall iv, av_fetch perlAR k <> Some (SvInteger iv)) ->
    for_each (seq a n) (copy_element perlAR) cA
      = match av_fetch perlAR k with
        | None => croak "_c_int_copy_array_perl_to_c, failed array lookup for element %d"
        | Some _ => croak "_c_int_copy_array_perl_to_c, array element %d is not an integer"
        end.
Proof.
  induction n as [|n IH]; intros a k cA Hk Hbefore Hbad; [lia|].
  change (seq a (S n)) with (a :: seq (S a) n). rewrite for_each_cons.
  destruct (decide (k = a)) as [->|Hne].
  - unfold copy_element.
    destruct (av_fetch perlAR a) as [[iv|]|]; simpl; try reflexivity.
    exfalso. apply (Hbad iv). reflexivity.
  - destruct (Hbefore a) as [iv Hf]; [lia|].
    rewrite (copy_element_integer _ _ _ _ Hf).
    apply (IH (S a) k); [lia | intros i Hi; apply Hbefore; lia | exact Hbad].
Qed.

(** X1: [_c_int_copy_array_perl_to_c] returns normally exactly when each of
    the first [len] elements of the Perl array exists and is an integer;
    [cA] then holds, at every index below [len], that integer converted to
    [int], whatever [cA] held before. *)
Theorem int_copy_array_spec :
  forall (perlAR : AV) (cA : list Z) (len : Z),
    List.length cA = Z.to_nat len ->
    ((forall i, (i < Z.to_nat len)%nat ->
        exists iv, av_fetch perlAR i = Some (SvInteger iv)) <->
     (exists out, _c_int_copy_array_perl_to_c perlAR cA len = Done out)) /\
    (forall out, _c_int_copy_array_perl_to_c perlAR cA len = Done out ->
       List.length out = Z.to_nat len /\
       forall i, (i < Z.to_nat len)%nat ->
         exists iv, av_fetch perlAR i = Some (SvInteger iv) /\
                    out !! i = Some (wrap_int iv)).
Proof.
  intros perlAR cA len Hlen. unfold _c_int_copy_array_perl_to_c, upto. split.
  - split.
    + intros Hint. apply copy_loop_runs. intros i Hi. apply Hint. lia.
    + intros [out Hrun] i Hi.
      apply copy_loop_done in Hrun as (_ & Hin & _); [|lia].
      destruct (Hin i) as (iv & Hf & _); [lia|]. exists iv. exact Hf.
  - intros out Hrun. apply copy_loop_done in Hrun as (Hl & Hin & _); [|lia].
    split; [lia|]. intros i Hi. apply Hin. lia.
Qed.

Lemma int_copy_array_spec_witness :
  exists out,
    _c_int_copy_array_perl_to_c
      [Some (SvInteger 2); Some (SvInteger 0); Some (SvInteger 4294967297)] [7; 7; 7] 3
      = Done out /\
    out !! 2%nat = Some 1.
Proof.
  destruct (int_copy_array_spec
              [Some (SvInteger 2); Some (SvInteger 0); Some (SvInteger 4294967297)]
              [7; 7; 7] 3 eq_refl) as [[Hruns _] Hout].
  destruct Hruns as [out Hrun].
  - intros i Hi. destruct i as [|[|[|i]]]; [| | |simpl in Hi; lia]; eexists; reflexivity.
  - exists out. split; [exact Hrun|].
    destruct (Hout out Hrun) as [_ Hval].
    destruct (Hval 2%nat) as (iv & Hf & Ho); [simpl; lia|].
    injection Hf as <-. exact Ho.
Defined.

(** X2: the copy stops at the first element that is missing or is not an
    integer, with the message of that failure: a failed lookup when the
    element does not exist, "not an integer" when it does. *)
Theorem int_copy_array_first_failure :
  forall (perlAR : AV) (cA : list Z) (len : Z) (k : nat),
    (k < Z.to_nat len)%nat ->
    (forall i, (i < k)%nat -> exists iv, av_fetch perlAR i = Some (SvInteger iv)) ->
    (forall iv, av_fetch perlAR k <> Some (SvInteger iv)) ->
    _c_int_copy_array_perl_to_c perlAR cA len
      = match av_fetch perlAR k with
        | None => croak "_c_int_copy_array_perl_to_c, failed array lookup for element %d"
        | Some _ => croak "_c_int_copy_array_perl_to_c, array element %d is not an integer"
        end.
Proof.
  intros perlAR cA len k Hk Hbefore Hbad.
  unfold _c_int_copy_array_perl_to_c, upto.
  apply (copy_loop_stops perlAR (Z.to_nat len) 0 k cA);
    [lia | intros i Hi; apply Hbefore; lia | exact Hbad].
Qed.

Lemma int_copy_array_first_failure_witness :
  _c_int_copy_array_perl_to_c [Some (SvInteger 1); Some SvOther; None] [0; 0; 0] 3
    = croak "_c_int_copy_array_perl_to_c, array element %d is not an integer" /\
  _c_int_copy_array_perl_to_c [Some (SvInteger 1)] [0; 0; 0] 3
    = croak "_c_int_copy_array_perl_to_c, failed array lookup for element %d".
Proof.
  split.
  - apply (int_copy_array_first_failure
             [Some (SvInteger 1); Some SvOther; None] [0; 0; 0] 3 1).
    + simpl. lia.
    + intros i Hi. assert (i = 0%nat) as -> by lia. eexists; reflexivity.
    + intros iv. discriminate.
  - apply (int_copy_array_first_failure [Some (SvInteger 1)] [0; 0; 0] 3 1).
    + simpl. lia.
    + intros i Hi. assert (i = 0%nat) as -> by lia. eexists; reflexivity.
    + intros iv. discriminate.
Defined.

(** ** [_c_reorder] *)

Lemma list_insert_as_alter {A : Type} (l : list A) (i : nat) (x : A) :
  <[i := x]> l = alter (fun _ => x) i l.
Proof.
  revert i. induction l as [|y l IH]; intros [|i]; simpl; try reflexivity.
  f_equal. apply IH.
Qed.

Lemma fold_insert_own {A : Type} (f : nat -> A) (n : nat) :
  forall (a : nat) (arr : list A) (p : nat),
    fold_left (fun arr k => <[k := f k]> arr) (seq a n) arr !! p
      = if decide (a <= p < a + n)%nat then (fun _ => f p) <$> arr !! p else arr !! p.
Proof.
  induction n as [|n IH]; intros a arr p; simpl.
  - rewrite decide_False by lia. reflexivity.
  - rewrite IH, list_insert_as_alter. destruct (decide (p = a)) as [->|Hne].
    + rewrite decide_False by lia. rewrite decide_True by lia.
      apply list_lookup_alter_eq.
    + rewrite list_lookup_alter_ne by congruence.
      destruct (decide (S a <= p < S a + n)%nat);
        [rewrite decide_True by lia | rewrite decide_False by lia]; reflexivity.
Qed.

Lemma fold_insert_length {A : Type} (f : nat -> A) (l : list nat) :
  forall arr : list A,
    List.length (fold_left (fun arr k => <[k := f k]> arr) l arr) = List.length arr.
Proof.
  induction l as [|k l IH]; intros arr; simpl; [reflexivity|].
  rewrite IH. apply length_insert.
Qed.

Section ReorderArray.
Context {A : Type} `{Inhabited A}.

(** Entry [i] of the reordered array is entry [order[i]] of the old one. *)
Lemma reorder_array_lookup (n : Z) (order : list Z) (arr : list A) (i : nat) :
  (i < Z.to_nat n)%nat ->
  (Z.to_nat (order !!! i) < Z.to_nat n)%nat ->
  reorder_array n order arr !! i
    = (fun _ => arr !!! Z.to_nat (order !!! i)) <$> arr !! i.
Proof.
  intros Hi Ho. unfold reorder_array, upto.
  rewrite (fold_insert_own
             (fun k => fold_left (fun tmp i0 => <[i0 := arr !!! i0]> tmp)
                                 (seq 0 (Z.to_nat n))
                                 (replicate (Z.to_nat n) inhabitant)
                       !!! Z.to_nat (order !!! k))).
  rewrite decide_True by lia.
  destruct (arr !! i); [|reflexivity]. simpl. f_equal.
  apply list_lookup_total_correct.
  rewrite (fold_insert_own (fun k => arr !!! k)).
  rewrite decide_True by lia.
  rewrite lookup_replicate_2 by exact Ho. reflexivity.
Qed.

Lemma reorder_array_beyond (n : Z) (order : list Z) (arr : list A) (i : nat) :
  (Z.to_nat n <= i)%nat ->
  reorder_array n order arr !! i = arr !! i.
Proof.
  intros Hi. unfold reorder_array, upto.
  rewrite (fold_insert_own
             (fun k => fold_left (fun tmp i0 => <[i0 := arr !!! i0]> tmp)
                                 (seq 0 (Z.to_nat n))
                                 (replicate (Z.to_nat n) inhabitant)
                       !!! Z.to_nat (order !!! k))).
  rewrite decide_False by lia. reflexivity.
Qed.

Lemma reorder_array_length (n : Z) (order : list Z) (arr : list A) :
  List.length (reorder_array n order arr) = List.length arr.
Proof.
  unfold reorder_array.
  apply (fold_insert_length
           (fun k => fold_left (fun tmp i0 => <[i0 := arr !!! i0]> tmp) (upto n)
                               (replicate (Z.to_nat n) inhabitant)
                     !!! Z.to_nat (order !!! k))).
Qed.

End ReorderArray.

Lemma wrap_int_small (z : Z) : - 2 ^ 31 <= z <= INT_MAX -> wrap_int z = z.
Proof.
  unfold INT_MAX, wrap_int. intros Hz. rewrite Z.mod_small by lia. lia.
Qed.

Lemma av_fetch_perl_ints (order : list nat) (i : nat) :
  av_fetch (perl_ints order) i = (fun o => SvInteger (Z.of_nat o)) <$> order !! i.
Proof.
  unfold av_fetch, perl_ints.
  rewrite list_lookup_fmap. destruct (order !! i); reflexivity.
Qed.

(** Copying the Perl array of indices below [2^31] gives these indices. *)
Lemma copy_perl_ints (order : list nat) (cA : list Z) (n : Z) :
  List.length order = Z.to_nat n ->
  List.length cA = Z.to_nat n ->
  Forall (fun o => Z.of_nat o <= INT_MAX) order ->
  _c_int_copy_array_perl_to_c (perl_ints order) cA n = Done (Z.of_nat <$> order).
Proof.
  intros Hlo Hlc Hsmall. unfold _c_int_copy_array_perl_to_c, upto.
  destruct (copy_loop_runs (perl_ints order) (Z.to_nat n) 0 cA) as [out Hrun].
  { intros i Hi. rewrite av_fetch_perl_ints.
    destruct (lookup_lt_is_Some_2 order i) as [o Ho]; [lia|].
    rewrite Ho. eexists; reflexivity. }
  rewrite Hrun. f_equal.
  apply copy_loop_done in Hrun as (Hl & Hin & _); [|lia].
  apply list_eq. intros i. rewrite list_lookup_fmap.
  destruct (decide (i < Z.to_nat n)%nat) as [Hi|Hi].
  - destruct (Hin i) as (iv & Hf & Ho); [lia|]. rewrite Ho.
    rewrite av_fetch_perl_ints in Hf.
    destruct (order !! i) as [o|] eqn:Eo; [|discriminate Hf].
    simpl in Hf. injection Hf as <-. simpl. f_equal.
    apply wrap_int_small. rewrite Forall_forall in Hsmall.
    assert (Hin' : o ∈ order) by (apply list_elem_of_lookup; eauto).
    specialize (Hsmall o Hin'). lia.
  - rewrite !lookup_ge_None_2; [reflexivity | lia | lia].
Qed.

Section ReorderCheck.
Variable order : list nat.
Variable N : nat.
Hypothesis Hlen : List.length order = N.
Hypothesis Hrange : Forall (fun o => (o < N)%nat) order.

Lemma order_entry (i : nat) :
  (i < N)%nat -> Z.to_nat ((Z.of_nat <$> order) !!! i) = order !!! i.
Proof.
  intros Hi. rewrite (list_lookup_total_fmap Z.of_nat order i) by lia.
  apply Nat2Z.id.
Qed.

Lemma order_entry_range (i : nat) : (i < N)%nat -> (order !!! i < N)%nat.
Proof.
  intros Hi. rewrite Forall_forall in Hrange. apply Hrange.
  apply list_elem_of_lookup_total_2. lia.
Qed.

Lemma reorder_check_step (covered : list Z) (a : nat) :
  (a < N)%nat ->
  reorder_check (Z.of_nat <$> order) covered a
    = if truthy (covered !!! (order !!! a))
      then croak "_c_reorder() order array has duplicate entries for i: %d\n"
      else Done (<[order !!! a := 1]> covered).
Proof. intros Ha. unfold reorder_check. rewrite order_entry by exact Ha. reflexivity. Qed.

(** The contract check over the entries [a, a+n) of the order, given the
    entries [seen] marked so far: it passes exactly when these entries are
    distinct and none was seen, and fails with the message of a duplicate
    otherwise. *)
Lemma reorder_check_loop (n : nat) :
  forall (a : nat) (covered : list Z) (seen : list nat),
    (a + n <= N)%nat ->
    List.length covered = N ->
    (forall j, (j < N)%nat -> covered !!! j = if decide (j ∈ seen) then 1 else 0) ->
    match for_each (seq a n) (reorder_check (Z.of_nat <$> order)) covered with
    | Done _ =>
        NoDup (take n (drop a order)) /\
        Forall (fun o => o ∉ seen) (take n (drop a order))
    | Raise e =>
        e = "_c_reorder() order array has duplicate entries for i: %d\n"%string /\
        ~ (NoDup (take n (drop a order)) /\
           Forall (fun o => o ∉ seen) (take n (drop a order)))
    end.
Proof.
  induction n as [|n IH]; intros a covered seen Ha Hc Hinv.
  - simpl. split; [apply NoDup_nil_2 | apply Forall_nil_2].
  - assert (Hx : order !! a = Some (order !!! a))
      by (apply list_lookup_lookup_total_lt; lia).
    rewrite (drop_S _ _ _ Hx). simpl take.
    change (seq a (S n)) with (a :: seq (S a) n). rewrite for_each_cons.
    rewrite reorder_check_step by lia.
    assert (Hxr := order_entry_range a ltac:(lia)).
    rewrite (Hinv _ Hxr).
    destruct (decide (order !!! a ∈ seen)) as [Hseen|Hnew]; simpl.
    + split; [reflexivity|]. intros [_ Hf]. apply Forall_cons in Hf as [Hf _].
      contradiction.
    + specialize (IH (S a) (<[order !!! a := 1]> covered) (order !!! a :: seen)
                     ltac:(lia)).
      rewrite length_insert in IH. specialize (IH Hc).
      assert (Hinv' : forall j, (j < N)%nat ->
                <[order !!! a := 1]> covered !!! j
                  = if decide (j ∈ order !!! a :: seen) then 1 else 0).
      { intros j Hj. destruct (decide (j = order !!! a)) as [->|Hne].
        - rewrite list_lookup_total_insert_eq by lia.
          rewrite decide_True by (left; reflexivity). reflexivity.
        - rewrite list_lookup_total_insert_ne by congruence. rewrite (Hinv j Hj).
          destruct (decide (j ∈ seen)) as [Hs|Hs].
          + rewrite decide_True by (right; exact Hs). reflexivity.
          + rewrite decide_False; [reflexivity|].
            intros Hin. apply elem_of_cons in Hin as [?|?]; contradiction. }
      specialize (IH Hinv').
      destruct (for_each (seq (S a) n) (reorder_check (Z.of_nat <$> order))
                         (<[order !!! a := 1]> covered)) as [c'|e].
      * destruct IH as [Hnd Hf]. split.
        -- apply NoDup_cons. split; [|exact Hnd].
           intros Hin. rewrite Forall_forall in Hf. apply (Hf _ Hin). left. 
        -- apply Forall_cons. split; [exact Hnew|].
           eapply Forall_impl; [exact Hf|]. intros o Ho Hs. apply Ho. right. exact Hs.
      * destruct IH as [-> Hno]. split; [reflexivity|].
        intros [Hnd Hf]. apply Hno. apply NoDup_cons in Hnd as [Hnotin Hnd].
        apply Forall_cons in Hf as [_ Hf]. split; [exact Hnd|].
        rewrite Forall_forall in Hf |- *. intros o Ho Hin.
        apply elem_of_cons in Hin as [->|Hs]; [contradiction|].
        exact (Hf o Ho Hs).
Qed.

End ReorderCheck.

Section Reorder.
Context {D : Type}.
Variable m : ESL_MSA_ANNOT D.
Variable order : list nat.
Let N := Z.to_nat (nseq (msa_of m)).
Hypothesis Hlen : List.length order = N.
Hypothesis Hrange : Forall (fun o => (o < N)%nat) order.
Hypothesis Hint : nseq (msa_of m) <= INT_MAX.

Lemma reorder_copy :
  _c_int_copy_array_perl_to_c (perl_ints order)
      (esl_vec_ISet (nseq (msa_of m)) 0) (nseq (msa_of m))
    = Done (Z.of_nat <$> order).
Proof.
  apply copy_perl_ints.
  - exact Hlen.
  - unfold esl_vec_ISet. apply length_replicate.
  - eapply Forall_impl; [exact Hrange|]. intros o Ho. simpl in Ho. unfold N in Ho. lia.
Qed.

Lemma reorder_check_all :
  match for_each (upto (nseq (msa_of m))) (reorder_check (Z.of_nat <$> order))
                 (esl_vec_ISet (nseq (msa_of m)) 0) with
  | Done _ => NoDup order
  | Raise e =>
      e = "_c_reorder() order array has duplicate entries for i: %d\n"%string /\
      ~ NoDup order
  end.
Proof.
  assert (Hloop := reorder_check_loop order N Hlen Hrange N 0
                     (esl_vec_ISet (nseq (msa_of m)) 0) [] ltac:(lia)).
  unfold esl_vec_ISet in Hloop at 1. rewrite length_replicate in Hloop.
  specialize (Hloop eq_refl).
  assert (Hinv : forall j, (j < N)%nat ->
            esl_vec_ISet (nseq (msa_of m)) 0 !!! j = if decide (j ∈ @nil nat) then 1 else 0).
  { intros j Hj. unfold esl_vec_ISet. rewrite lookup_total_replicate_2 by exact Hj.
    rewrite decide_False; [reflexivity | apply not_elem_of_nil]. }
  specialize (Hloop Hinv).
  rewrite drop_0, <- Hlen, firstn_all in Hloop. fold N. unfold upto. fold N.
  rewrite Hlen in Hloop.
  destruct (for_each (seq 0 N) (reorder_check (Z.of_nat <$> order))
                     (esl_vec_ISet (nseq (msa_of m)) 0)) as [c|e].
  - exact (proj1 Hloop).
  - destruct Hloop as [-> Hno]. split; [reflexivity|].
    intros Hnd. apply Hno. split; [exact Hnd|].
    apply Forall_forall. intros o _. apply not_elem_of_nil.
Qed.

(** Every array is reordered as the order says. *)
Lemma reorder_array_reordered {A : Type} `{Inhabited A} (l : list A) :
  reordered N order l (reorder_array (nseq (msa_of m)) (Z.of_nat <$> order) l).
Proof.
  split; [apply reorder_array_length|].
  intros Hl i Hi.
  assert (Ho := order_entry_range order N Hlen Hrange i Hi).
  rewrite reorder_array_lookup; fold N.
  - rewrite (order_entry order N Hlen i Hi).
    rewrite (list_lookup_lookup_total_lt l i) by lia. simpl.
    symmetry. apply list_lookup_lookup_total_lt. lia.
  - exact Hi.
  - rewrite (order_entry order N Hlen i Hi). exact Ho.
Qed.

End Reorder.

(** X3: on an order array of [nseq] indices, each in [0, nseq),
    [_c_reorder] accepts the order exactly when it has no duplicate
    entries; otherwise it croaks with its duplicate-entries message and
    moves nothing. *)
Theorem reorder_contract_check :
  forall (D : Type) (m : ESL_MSA_ANNOT D) (order : list nat),
    List.length order = Z.to_nat (nseq (msa_of m)) ->
    Forall (fun o => (o < Z.to_nat (nseq (msa_of m)))%nat) order ->
    nseq (msa_of m) <= INT_MAX ->
    (NoDup order <-> exists m', _c_reorder m (perl_ints order) = Done m') /\
    (~ NoDup order ->
     _c_reorder m (perl_ints order)
       = croak "_c_reorder() order array has duplicate entries for i: %d\n").
Proof.
  intros D m order Hlen Hrange Hint.
  assert (Hchk := reorder_check_all m order Hlen Hrange).
  unfold _c_reorder. rewrite (reorder_copy m order Hlen Hrange Hint). simpl.
  destruct (for_each (upto (nseq (msa_of m))) (reorder_check (Z.of_nat <$> order))
                     (esl_vec_ISet (nseq (msa_of m)) 0)) as [c|e]; simpl.
  - split; [|intros Hno; contradiction].
    split; [intros _; eexists; reflexivity | intros _; exact Hchk].
  - destruct Hchk as [-> Hno]. split; [|intros _; reflexivity].
    split; [intros Hnd; contradiction | intros [m' Hm']; discriminate Hm'].
Qed.

(** X4: when [_c_reorder] accepts the order, sequence [i] of the result is
    sequence [order[i]] of the input: names, residues (the digital rows in
    digital mode, the text rows in text mode) and every per-sequence
    annotation present are moved alike.  The sequence weights are not
    moved, and the dimensions, flags, alphabet, name and consensus
    structure are unchanged. *)
Theorem reorder_effect :
  forall (D : Type) (m : ESL_MSA_ANNOT D) (order : list nat),
    List.length order = Z.to_nat (nseq (msa_of m)) ->
    Forall (fun o => (o < Z.to_nat (nseq (msa_of m)))%nat) order ->
    nseq (msa_of m) <= INT_MAX ->
    NoDup order ->
    exists m',
      _c_reorder m (perl_ints order) = Done m' /\
      let N := Z.to_nat (nseq (msa_of m)) in
      reordered N order (sqname (msa_of m)) (sqname (msa_of m')) /\
      (if is_digital (msa_of m)
       then reordered N order (ax (msa_of m)) (ax (msa_of m')) /\
            aseq (msa_of m') = aseq (msa_of m)
       else reordered N order (aseq (msa_of m)) (aseq (msa_of m')) /\
            ax (msa_of m') = ax (msa_of m)) /\
      option_Forall2 (reordered N order) (sqacc m) (sqacc m') /\
      option_Forall2 (reordered N order) (sqdesc m) (sqdesc m') /\
      option_Forall2 (reordered N order) (ss m) (ss m') /\
      option_Forall2 (reordered N order) (sa m) (sa m') /\
      option_Forall2 (reordered N order) (pp m) (pp m') /\
      Forall2 (reordered N order) (gs m) (gs m') /\
      Forall2 (reordered N order) (gr m) (gr m') /\
      wgt (msa_of m') = wgt (msa_of m) /\
      nseq (msa_of m') = nseq (msa_of m) /\
      alen (msa_of m') = alen (msa_of m) /\
      flags (msa_of m') = flags (msa_of m) /\
      abc (msa_of m') = abc (msa_of m) /\
      name (msa_of m') = name (msa_of m) /\
      ss_cons (msa_of m') = ss_cons (msa_of m).
Proof.
  intros D m order Hlen Hrange Hint Hnd.
  assert (Hchk := reorder_check_all m order Hlen Hrange).
  unfold _c_reorder. rewrite (reorder_copy m order Hlen Hrange Hint). simpl.
  destruct (for_each (upto (nseq (msa_of m))) (reorder_check (Z.of_nat <$> order))
                     (esl_vec_ISet (nseq (msa_of m)) 0)) as [c|e];
    [|destruct Hchk as [_ Hno]; contradiction].
  simpl. eexists. split; [reflexivity|]. simpl.
  assert (Hopt : forall x : option (list (option string)),
            option_Forall2 (reordered (Z.to_nat (nseq (msa_of m))) order) x
              (reorder_array (nseq (msa_of m)) (Z.of_nat <$> order) <$> x)).
  { intros [l|]; simpl; constructor.
    apply (reorder_array_reordered m order Hlen Hrange). }
  assert (Hall : forall x : list (list (option string)),
            Forall2 (reordered (Z.to_nat (nseq (msa_of m))) order) x
              (map (reorder_array (nseq (msa_of m)) (Z.of_nat <$> order)) x)).
  { induction x as [|l x IH]; simpl; constructor; [|exact IH].
    apply (reorder_array_reordered m order Hlen Hrange). }
  split; [apply (reorder_array_reordered m order Hlen Hrange)|].
  split.
  { destruct (is_digital (msa_of m)); (split; [|reflexivity]);
      apply (reorder_array_reordered m order Hlen Hrange). }
  repeat (split; [first [apply Hopt | apply Hall | reflexivity]|]).
  reflexivity.
Qed.

Ltac not_elem_of_list :=
  let Hin := fresh "Hin" in
  intros Hin;
  repeat (apply elem_of_cons in Hin as [Hin|Hin]; [discriminate Hin|]);
  apply elem_of_nil in Hin; exact Hin.

Lemma NoDup_201 : NoDup [2; 0; 1]%nat.
Proof.
  repeat (apply NoDup_cons_2; [not_elem_of_list|]). apply NoDup_nil_2.
Qed.

Lemma range_201 : Forall (fun o => (o < 3)%nat) [2; 0; 1]%nat.
Proof. repeat constructor. Qed.

Lemma reorder_contract_check_witness :
  (NoDup [2; 0; 1]%nat <->
   exists m', _c_reorder (msa_named (D := Q)) (perl_ints [2; 0; 1]%nat) = Done m').
Proof.
  apply (reorder_contract_check Q msa_named [2; 0; 1]%nat eq_refl range_201).
  vm_compute. discriminate.
Defined.

Lemma reorder_effect_witness :
  exists m',
    _c_reorder (msa_named (D := Q)) (perl_ints [2; 0; 1]%nat) = Done m' /\
    sqname (msa_of m') = ["s2"; "s0"; "s1"]%string /\
    wgt (msa_of m') = [1; 2; 3]%Q.
Proof.
  destruct (reorder_effect Q msa_named [2; 0; 1]%nat eq_refl range_201) as
    (m' & Hrun & _ & _ & _ & _ & _ & _ & _ & _ & _ & Hw & _).
  - vm_compute. discriminate.
  - exact NoDup_201.
  - exists m'. split; [exact Hrun|]. split; [|exact Hw].
    vm_compute in Hrun. injection Hrun as <-. reflexivity.
Defined.

(** A duplicate-free order of [n] indices below [n] lists every index. *)
Lemma order_Permutation (order : list nat) (n : nat) :
  List.length order = n -> Forall (fun o => (o < n)%nat) order -> NoDup order ->
  order ≡ₚ seq 0 n.
Proof.
  intros Hlen Hrange Hnd.
  apply submseteq_length_Permutation.
  - apply NoDup_submseteq; [exact Hnd|]. intros o Ho.
    rewrite Forall_forall in Hrange. apply elem_of_seq. specialize (Hrange o Ho). lia.
  - rewrite length_seq. lia.
Qed.

Lemma lookup_total_seq_self {A : Type} `{Inhabited A} (l : list A) :
  (fun i => l !!! i) <$> seq 0 (List.length l) = l.
Proof.
  apply list_eq. intros i. rewrite list_lookup_fmap.
  destruct (decide (i < List.length l)%nat) as [Hi|Hi].
  - rewrite lookup_seq_lt by exact Hi. simpl.
    symmetry. apply list_lookup_lookup_total_lt. exact Hi.
  - rewrite lookup_seq_ge by lia. simpl. symmetry. apply lookup_ge_None_2. lia.
Qed.

(** An array reordered by a duplicate-free order keeps its entries. *)
Lemma reordered_Permutation {A : Type} `{Inhabited A}
    (order : list nat) (n : nat) (l l' : list A) :
  List.length order = n -> Forall (fun o => (o < n)%nat) order -> NoDup order ->
  List.length l = n -> reordered n order l l' -> l' ≡ₚ l.
Proof.
  intros Hlen Hrange Hnd Hl [Hl' Hre]. specialize (Hre Hl).
  assert (El : l' = (fun i => l !!! i) <$> order).
  { apply list_eq. intros i. rewrite list_lookup_fmap.
    destruct (decide (i < n)%nat) as [Hi|Hi].
    - rewrite (Hre i Hi).
      assert (Ho := order_entry_range order n Hlen Hrange i Hi).
      rewrite (list_lookup_lookup_total_lt order i) by lia. simpl.
      apply list_lookup_lookup_total_lt. lia.
    - rewrite !lookup_ge_None_2; [reflexivity | lia | lia]. }
  rewrite El. rewrite (order_Permutation order n Hlen Hrange Hnd).
  rewrite <- Hl. rewrite lookup_total_seq_self. reflexivity.
Qed.

(** The result of an accepted reordering, written out. *)
Lemma reorder_run {D : Type} (m : ESL_MSA_ANNOT D) (order : list nat) :
  List.length order = Z.to_nat (nseq (msa_of m)) ->
  Forall (fun o => (o < Z.to_nat (nseq (msa_of m)))%nat) order ->
  nseq (msa_of m) <= INT_MAX ->
  NoDup order ->
  let n := nseq (msa_of m) in
  let oz := Z.of_nat <$> order in
  _c_reorder m (perl_ints order)
    = Done {| msa_of :=
                {| aseq := if is_digital (msa_of m) then aseq (msa_of m)
                           else reorder_array n oz (aseq (msa_of m));
                   sqname := reorder_array n oz (sqname (msa_of m));
                   wgt := wgt (msa_of m);
                   alen := alen (msa_of m);
                   nseq := n;
                   flags := flags (msa_of m);
                   abc := abc (msa_of m);
                   ax := if is_digital (msa_of m)
                         then reorder_array n oz (ax (msa_of m))
                         else ax (msa_of m);
                   name := name (msa_of m);
                   ss_cons := ss_cons (msa_of m) |};
              sqacc := reorder_array n oz <$> sqacc m;
              sqdesc := reorder_array n oz <$> sqdesc m;
              ss := reorder_array n oz <$> ss m;
              sa := reorder_array n oz <$> sa m;
              pp := reorder_array n oz <$> pp m;
              gs := map (reorder_array n oz) (gs m);
              gr := map (reorder_array n oz) (gr m) |}.
Proof.
  intros Hlen Hrange Hint Hnd n oz.
  assert (Hchk := reorder_check_all m order Hlen Hrange).
  unfold _c_reorder. rewrite (reorder_copy m order Hlen Hrange Hint). simpl.
  destruct (for_each (upto (nseq (msa_of m))) (reorder_check (Z.of_nat <$> order))
                     (esl_vec_ISet (nseq (msa_of m)) 0)) as [c|e];
    [reflexivity | destruct Hchk as [_ Hno]; contradiction].
Qed.

(** X5: an accepted reordering loses and duplicates nothing: when the
    arrays hold [nseq] entries, the names of the result are a permutation of
    the names of the input, and so are the rows of residues. *)
Theorem reorder_permutation :
  forall (D : Type) (m : ESL_MSA_ANNOT D) (order : list nat),
    List.length order = Z.to_nat (nseq (msa_of m)) ->
    Forall (fun o => (o < Z.to_nat (nseq (msa_of m)))%nat) order ->
    nseq (msa_of m) <= INT_MAX ->
    NoDup order ->
    List.length (sqname (msa_of m)) = Z.to_nat (nseq (msa_of m)) ->
    (if is_digital (msa_of m)
     then List.length (ax (msa_of m)) = Z.to_nat (nseq (msa_of m))
     else List.length (aseq (msa_of m)) = Z.to_nat (nseq (msa_of m))) ->
    exists m',
      _c_reorder m (perl_ints order) = Done m' /\
      sqname (msa_of m') ≡ₚ sqname (msa_of m) /\
      ax (msa_of m') ≡ₚ ax (msa_of m) /\
      aseq (msa_of m') ≡ₚ aseq (msa_of m).
Proof.
  intros D m order Hlen Hrange Hint Hnd Hn Hmode.
  eexists. split; [apply (reorder_run m order Hlen Hrange Hint Hnd)|]. simpl.
  split; [|split].
  - apply (reordered_Permutation order _ _ _ Hlen Hrange Hnd Hn).
    apply (reorder_array_reordered m order Hlen Hrange).
  - destruct (is_digital (msa_of m)); [|reflexivity].
    apply (reordered_Permutation order _ _ _ Hlen Hrange Hnd Hmode).
    apply (reorder_array_reordered m order Hlen Hrange).
  - destruct (is_digital (msa_of m)); [reflexivity|].
    apply (reordered_Permutation order _ _ _ Hlen Hrange Hnd Hmode).
    apply (reorder_array_reordered m order Hlen Hrange).
Qed.

Lemma reorder_permutation_witness :
  exists m',
    _c_reorder (msa_named (D := Q)) (perl_ints [2; 0; 1]%nat) = Done m' /\
    sqname (msa_of m') ≡ₚ ["s0"; "s1"; "s2"]%string.
Proof.
  destruct (reorder_permutation Q msa_named [2; 0; 1]%nat eq_refl range_201) as
    (m' & Hrun & Hperm & _).
  - vm_compute. discriminate.
  - exact NoDup_201.
  - reflexivity.
  - reflexivity.
  - exists m'. split; [exact Hrun | exact Hperm].
Defined.

(** Reordering an array by the identity order gives the array back. *)
Lemma reorder_array_identity {A : Type} `{Inhabited A} (n : Z) (l : list A) :
  reorder_array n (Z.of_nat <$> seq 0 (Z.to_nat n)) l = l.
Proof.
  apply list_eq. intros i.
  destruct (decide (i < Z.to_nat n)%nat) as [Hi|Hi].
  - assert (Ho : Z.to_nat ((Z.of_nat <$> seq 0 (Z.to_nat n)) !!! i) = i).
    { rewrite (list_lookup_total_fmap Z.of_nat (seq 0 (Z.to_nat n)) i)
        by (rewrite length_seq; exact Hi).
      rewrite lookup_total_seq_lt by exact Hi. apply Nat2Z.id. }
    rewrite reorder_array_lookup; [|exact Hi | rewrite Ho; exact Hi].
    rewrite Ho. destruct (l !! i) as [x|] eqn:El; [|reflexivity].
    simpl. f_equal. apply list_lookup_total_correct. exact El.
  - apply reorder_array_beyond. lia.
Qed.

(** X6: reordering by the identity order [0, 1, ..., nseq-1] is accepted
    and returns the alignment as it was. *)
Theorem reorder_identity :
  forall (D : Type) (m : ESL_MSA_ANNOT D),
    nseq (msa_of m) <= INT_MAX ->
    _c_reorder m (perl_ints (seq 0 (Z.to_nat (nseq (msa_of m))))) = Done m.
Proof.
  intros D m Hint.
  rewrite reorder_run.
  - f_equal. destruct m as [msa acc desc s1 s2 s3 g1 g2]. destruct msa. simpl.
    assert (Hopt : forall x : option (list (option string)),
              reorder_array nseq0 (Z.of_nat <$> seq 0 (Z.to_nat nseq0)) <$> x = x).
    { intros [l|]; simpl; [|reflexivity]. f_equal. apply reorder_array_identity. }
    assert (Hall : forall x : list (list (option string)),
              map (reorder_array nseq0 (Z.of_nat <$> seq 0 (Z.to_nat nseq0))) x = x).
    { induction x as [|l x IH]; simpl; [reflexivity|].
      rewrite IH. f_equal. apply reorder_array_identity. }
    rewrite !Hopt, !Hall, !reorder_array_identity.
    f_equal. f_equal; destruct (is_digital _); reflexivity.
  - apply length_seq.
  - apply Forall_forall. intros o Ho. apply elem_of_seq in Ho. lia.
  - exact Hint.
  - apply NoDup_seq.
Qed.

Lemma reorder_identity_witness :
  _c_reorder (msa_named (D := Q)) (perl_ints [0; 1; 2]%nat) = Done msa_named.
Proof.
  apply (reorder_identity Q msa_named). vm_compute. discriminate.
Defined.

(** ** [_c_any_allgap_columns] *)

Lemma first_break_None (brk : nat -> bool) (l : list nat) :
  first_break brk l = None <-> forall idx, In idx l -> brk idx = false.
Proof.
  induction l as [|i l IH]; simpl.
  - split; [intros _ idx [] | reflexivity].
  - destruct (brk i) eqn:Hb.
    + split; [discriminate|]. intros Hall.
      rewrite (Hall i (or_introl eq_refl)) in Hb. discriminate Hb.
    + rewrite IH. split.
      * intros Hall idx [<-|Hin]; [exact Hb | apply Hall; exact Hin].
      * intros Hall idx Hin. apply Hall. right. exact Hin.
Qed.

Lemma first_break_Some (brk : nat -> bool) (l : list nat) (idx : nat) :
  first_break brk l = Some idx -> In idx l /\ brk idx = true.
Proof.
  induction l as [|i l IH]; simpl; [discriminate|].
  destruct (brk i) eqn:Hb.
  - intros Heq. injection Heq as <-. split; [left; reflexivity | exact Hb].
  - intros Hs. destruct (IH Hs) as [Hin Ht]. split; [right; exact Hin | exact Ht].
Qed.

(** The loop runs to the end, [idx == n], exactly when no index in
    [start, n) breaks and the range is not empty below [start]. *)
Lemma for_break_end (start : nat) (n : Z) (brk : nat -> bool) :
  Z.of_nat start <= n ->
  ((for_break start n brk =? n) = true <->
   forall idx, (start <= idx < Z.to_nat n)%nat -> brk idx = false).
Proof.
  intros Hn. unfold for_break.
  destruct (first_break brk (seq start (Z.to_nat n - start))) as [idx|] eqn:Hf.
  - apply first_break_Some in Hf as [Hin Hb]. apply in_seq in Hin. split.
    + intros Heq. apply Z.eqb_eq in Heq. lia.
    + intros Hall. rewrite Hall in Hb by lia. discriminate Hb.
  - rewrite first_break_None in Hf. split.
    + intros _ idx Hi. apply Hf. apply in_seq. lia.
    + intros _. apply Z.eqb_eq. lia.
Qed.

(** A loop that returns [r] at the first element satisfying [p]. *)
Lemma for_each_return {R A : Type} (p : A -> bool) (r : R) (l : list A) :
  for_each l (fun (_ : unit) a => if p a then Raise r else Done tt) tt
    = if existsb p l then Raise r else Done tt.
Proof.
  induction l as [|a l IH]; [reflexivity|].
  rewrite for_each_cons. simpl. destruct (p a); simpl; [reflexivity | exact IH].
Qed.

(** X7: [_c_any_allgap_columns] returns TRUE exactly when some column of
    the alignment holds a gap in every sequence (a gap or missing-data
    symbol in digital mode, a character of [gapstr] in text mode), and FALSE
    otherwise.  In particular it returns FALSE on an alignment without
    columns, and TRUE on one with columns but no sequence. *)
Theorem any_allgap_columns_spec :
  forall (D : Type) (M : EaselMsaLib D) (msa : ESL_MSA D) (gapstr : string),
    0 <= nseq msa ->
    (_c_any_allgap_columns msa gapstr = TRUE <->
     exists col, (1 <= col <= Z.to_nat (alen msa))%nat /\
                 forall idx, (idx < Z.to_nat (nseq msa))%nat ->
                             is_gap_at msa gapstr idx col = true) /\
    (_c_any_allgap_columns msa gapstr <> TRUE ->
     _c_any_allgap_columns msa gapstr = FALSE) /\
    (alen msa <= 0 -> _c_any_allgap_columns msa gapstr = FALSE) /\
    (nseq msa = 0 -> 1 <= alen msa -> _c_any_allgap_columns msa gapstr = TRUE).
Proof.
  intros D M msa gapstr Hn.
  assert (Hmain :
    _c_any_allgap_columns msa gapstr
      = if existsb
             (fun col =>
                (for_break 0 (nseq msa) (fun idx => negb (is_gap_at msa gapstr idx col))
                 =? nseq msa))
             (seq 1 (Z.to_nat (alen msa)))
        then TRUE else FALSE).
  { unfold _c_any_allgap_columns, is_gap_at. destruct (is_digital msa).
    - rewrite (for_each_return
                 (fun apos =>
                    for_break 0 (nseq msa)
                      (fun idx => negb (esl_abc_XIsGap (abc msa) (ax_at msa idx apos))
                                  && negb (esl_abc_XIsMissing (abc msa) (ax_at msa idx apos)))
                    =? nseq msa) TRUE).
      assert (Hext : forall l,
                existsb
                  (fun apos =>
                     for_break 0 (nseq msa)
                       (fun idx => negb (esl_abc_XIsGap (abc msa) (ax_at msa idx apos))
                                   && negb (esl_abc_XIsMissing (abc msa) (ax_at msa idx apos)))
                     =? nseq msa) l
                = existsb
                    (fun col =>
                       for_break 0 (nseq msa)
                         (fun idx => negb (esl_abc_XIsGap (abc msa) (ax_at msa idx col)
                                           || esl_abc_XIsMissing (abc msa) (ax_at msa idx col)))
                       =? nseq msa) l).
      { intros l. induction l as [|col l IHl]; simpl; [reflexivity|].
        rewrite IHl. f_equal. unfold for_break.
        assert (Hfb : forall l',
                  first_break
                    (fun idx => negb (esl_abc_XIsGap (abc msa) (ax_at msa idx col))
                                && negb (esl_abc_XIsMissing (abc msa) (ax_at msa idx col))) l'
                  = first_break
                      (fun idx => negb (esl_abc_XIsGap (abc msa) (ax_at msa idx col)
                                        || esl_abc_XIsMissing (abc msa) (ax_at msa idx col)))
                      l').
        { induction l' as [|i l' IH]; simpl; [reflexivity|].
          rewrite negb_orb, IH. reflexivity. }
        rewrite Hfb. reflexivity. }
      rewrite Hext.
      destruct (existsb _ _); reflexivity.
    - unfold upto.
      rewrite (for_each_return
                 (fun apos =>
                    for_break 0 (nseq msa)
                      (fun idx => negb (strchr gapstr (char_at (aseq msa !!! idx) apos)))
                    =? nseq msa) TRUE).
      assert (Hshift : forall a n,
                existsb
                  (fun apos =>
                     for_break 0 (nseq msa)
                       (fun idx => negb (strchr gapstr (char_at (aseq msa !!! idx) apos)))
                     =? nseq msa) (seq a n)
                = existsb
                    (fun col =>
                       for_break 0 (nseq msa)
                         (fun idx => negb (strchr gapstr
                                             (char_at (aseq msa !!! idx) (col - 1))))
                       =? nseq msa) (seq (S a) n)).
      { intros a n. revert a. induction n as [|n IH]; intros a; simpl; [reflexivity|].
        rewrite IH. rewrite Nat.sub_0_r. reflexivity. }
      rewrite Hshift. destruct (existsb _ _); reflexivity. }
  assert (Hcol : forall col,
            (for_break 0 (nseq msa) (fun idx => negb (is_gap_at msa gapstr idx col))
             =? nseq msa) = true <->
            forall idx, (idx < Z.to_nat (nseq msa))%nat -> is_gap_at msa gapstr idx col = true).
  { intros col. rewrite for_break_end by (simpl; lia). split.
    - intros Hall idx Hi. apply negb_false_iff. apply Hall. lia.
    - intros Hall idx Hi. apply negb_false_iff. apply Hall. lia. }
  rewrite Hmain. split; [|split; [|split]].
  - destruct (existsb _ _) eqn:Hex.
    + split; [intros _|reflexivity].
      apply existsb_exists in Hex as (col & Hin & Hc).
      apply in_seq in Hin. exists col. split; [lia|]. apply Hcol. exact Hc.
    + split; [discriminate|]. intros (col & Hr & Hall).
      assert (Hex' : existsb
                (fun col =>
                   for_break 0 (nseq msa) (fun idx => negb (is_gap_at msa gapstr idx col))
                   =? nseq msa) (seq 1 (Z.to_nat (alen msa))) = true).
      { apply existsb_exists. exists col. split; [apply in_seq; lia|].
        apply Hcol. exact Hall. }
      congruence.
  - destruct (existsb _ _); [intros Hne; contradiction | reflexivity].
  - intros Ha. replace (Z.to_nat (alen msa)) with 0%nat by lia. reflexivity.
  - intros H0 Ha.
    assert (Hex' : existsb
              (fun col =>
                 for_break 0 (nseq msa) (fun idx => negb (is_gap_at msa gapstr idx col))
                 =? nseq msa) (seq 1 (Z.to_nat (alen msa))) = true).
    { apply existsb_exists. exists 1%nat. split; [apply in_seq; lia|].
      apply Hcol. intros idx Hi. lia. }
    rewrite Hex'. reflexivity.
Qed.

Lemma any_allgap_columns_spec_witness :
  _c_any_allgap_columns (D := Q) msa_text "-_.~" = TRUE <->
  exists col, (1 <= col <= Z.to_nat (alen (D := Q) msa_text))%nat /\
              forall idx, (idx < Z.to_nat (nseq (D := Q) msa_text))%nat ->
                          is_gap_at (D := Q) msa_text "-_.~" idx col = true.
Proof.
  apply (any_allgap_columns_spec Q EaselMsa.lib msa_text "-_.~"). vm_compute. discriminate.
Defined.

(** ** [_c_get_sqlen], [_c_is_residue], [_c_count_residues], [_c_average_sqlen] *)

Lemma fold_count_if (c : nat -> bool) (l : list nat) (v : Z) :
  fold_left (fun v k => if c k then (v + 1)%Z else v) l v
    = (v + Z.of_nat (List.length (filter (fun k => c k = true) l)))%Z.
Proof.
  revert v. induction l as [|k l IH]; intros v; simpl; [lia|].
  rewrite IH, filter_cons. destruct (c k).
  - rewrite decide_True by reflexivity. simpl. lia.
  - rewrite decide_False by discriminate. reflexivity.
Qed.

Lemma fold_add_indicator (c : nat -> bool) (l : list nat) (v : Z) :
  fold_left (fun v k => (v + (if c k then 1 else 0))%Z) l v
    = (v + Z.of_nat (List.length (filter (fun k => c k = true) l)))%Z.
Proof.
  revert v. induction l as [|k l IH]; intros v; simpl; [lia|].
  rewrite IH, filter_cons. destruct (c k).
  - rewrite decide_True by reflexivity. simpl. lia.
  - rewrite decide_False by discriminate. lia.
Qed.

Lemma filter_length_le (p q : nat -> bool) (l : list nat) :
  (forall k, p k = true -> q k = true) ->
  (List.length (filter (fun k => p k = true) l)
   <= List.length (filter (fun k => q k = true) l))%nat.
Proof.
  intros Hpq. induction l as [|k l IH]; [reflexivity|].
  rewrite !filter_cons. destruct (p k) eqn:Hp.
  - rewrite (Hpq k Hp). rewrite !decide_True by reflexivity. simpl. lia.
  - rewrite (decide_False (P := false = true)) by discriminate.
    destruct (decide (q k = true)); simpl; lia.
Qed.

Lemma filter_length_all (p : nat -> bool) (l : list nat) :
  List.length (filter (fun k => p k = true) l) = List.length l <->
  forall k, In k l -> p k = true.
Proof.
  induction l as [|k l IH]; simpl.
  - split; [intros _ k [] | reflexivity].
  - rewrite filter_cons.
    assert (Hle := length_filter (fun k => p k = true) l).
    destruct (p k) eqn:Hp.
    + rewrite decide_True by reflexivity. simpl. split.
      * intros Heq k' [<-|Hin]; [exact Hp|]. apply IH; [lia | exact Hin].
      * intros Hall. f_equal. apply IH. intros k' Hin. apply Hall. right. exact Hin.
    + rewrite decide_False by discriminate. split; [lia|].
      intros Hall. rewrite (Hall k (or_introl eq_refl)) in Hp. discriminate Hp.
Qed.

(** A letter is none of the gap characters, nor the terminator. *)
Lemma isalpha_not_gap (c : ascii) : c_isalpha c = true -> strchr "-_.~" c = false.
Proof.
  destruct c as [[] [] [] [] [] [] [] []]; vm_compute; congruence.
Qed.

Lemma filter_seq_shift (p : nat -> bool) (n : nat) :
  forall a,
    List.length (filter (fun k => p (k - 1)%nat = true) (seq (S a) n))
      = List.length (filter (fun k => p k = true) (seq a n)).
Proof.
  induction n as [|n IH]; intros a; [reflexivity|].
  simpl seq. rewrite !filter_cons. simpl Nat.sub. rewrite Nat.sub_0_r.
  destruct (decide (p a = true)); simpl; rewrite IH; reflexivity.
Qed.

(** The text-mode length as a count. *)
Lemma get_sqlen_text_count {D : Type} {M : EaselMsaLib D} (msa : ESL_MSA D) (seqidx : nat) :
  is_digital msa = false ->
  _c_get_sqlen msa seqidx
    = Z.of_nat (List.length
        (filter (fun apos => negb (strchr "-_.~" (char_at (aseq msa !!! seqidx) apos)) = true)
                (seq 0 (Z.to_nat (alen msa))))).
Proof.
  intros Ht. unfold _c_get_sqlen. rewrite Ht.
  rewrite (fold_count_if
             (fun apos => negb (strchr "-_.~" (char_at (aseq msa !!! seqidx) apos)))).
  reflexivity.
Qed.

(** X8: in text mode the unaligned length of a sequence is the number of
    its first [alen] characters that are none of [-_.~] (the end of a short
    row counts as a gap); it lies between 0 and [alen], reaches [alen]
    exactly when the row has no gap, and every position that
    [_c_is_residue] accepts is counted in it. *)
Theorem get_sqlen_text :
  forall (D : Type) (M : EaselMsaLib D) (L : EaselLib D) (msa : ESL_MSA D) (seqidx : nat),
    is_digital msa = false ->
    0 <= _c_get_sqlen msa seqidx <= Z.max 0 (alen msa) /\
    (_c_get_sqlen msa seqidx = Z.max 0 (alen msa) <->
     forall apos, (apos < Z.to_nat (alen msa))%nat ->
                  strchr "-_.~" (char_at (aseq msa !!! seqidx) apos) = false) /\
    fold_left (fun n apos => n + _c_is_residue msa seqidx apos)
              (seq 1 (Z.to_nat (alen msa))) 0
      <= _c_get_sqlen msa seqidx.
Proof.
  intros D M L msa seqidx Ht. rewrite (get_sqlen_text_count msa seqidx Ht).
  unfold _c_is_residue. rewrite Ht.
  rewrite (fold_add_indicator
             (fun apos => c_isalpha (char_at (aseq msa !!! seqidx) (apos - 1)))).
  assert (Hle := length_filter
            (fun apos => negb (strchr "-_.~" (char_at (aseq msa !!! seqidx) apos)) = true)
            (seq 0 (Z.to_nat (alen msa)))).
  rewrite length_seq in Hle.
  split; [lia|]. split.
  - split.
    + intros Heq apos Hp.
      assert (Hall : List.length
                (filter (fun apos => negb (strchr "-_.~"
                                             (char_at (aseq msa !!! seqidx) apos)) = true)
                        (seq 0 (Z.to_nat (alen msa))))
              = List.length (seq 0 (Z.to_nat (alen msa)))).
      { rewrite length_seq. lia. }
      rewrite filter_length_all in Hall.
      apply negb_true_iff. apply Hall. apply in_seq. lia.
    + intros Hall.
      assert (Hlen : List.length
                (filter (fun apos => negb (strchr "-_.~"
                                             (char_at (aseq msa !!! seqidx) apos)) = true)
                        (seq 0 (Z.to_nat (alen msa))))
              = List.length (seq 0 (Z.to_nat (alen msa)))).
      { apply filter_length_all. intros k Hin. apply in_seq in Hin.
        apply negb_true_iff. apply Hall. lia. }
      rewrite Hlen, length_seq. lia.
  - rewrite (filter_seq_shift
               (fun k => c_isalpha (char_at (aseq msa !!! seqidx) k))).
    assert (Hsub := filter_length_le
              (fun k => c_isalpha (char_at (aseq msa !!! seqidx) k))
              (fun apos => negb (strchr "-_.~" (char_at (aseq msa !!! seqidx) apos)))
              (seq 0 (Z.to_nat (alen msa)))
              (fun k Hk => proj2 (negb_true_iff _) (isalpha_not_gap _ Hk))).
    lia.
Qed.

Lemma get_sqlen_text_witness :
  0 <= _c_get_sqlen (D := Q) msa_text 2 <= Z.max 0 (alen (D := Q) msa_text).
Proof.
  apply (get_sqlen_text Q EaselMsa.lib Easel.lib msa_text 2). reflexivity.
Defined.





(** X10: on an alignment without sequences [_c_average_sqlen] divides
    zero by zero: the value returned is a NaN, not 0. *)
Theorem average_sqlen_no_sequences :
  forall (M : EaselMsaLib float) (msa : ESL_MSA float),
    nseq msa = 0 ->
    PrimFloat.is_nan (_c_average_sqlen msa) = true.
Proof.
  intros M msa Hn. unfold _c_average_sqlen, _c_count_residues. rewrite Hn.
  reflexivity.
Qed.

Lemma average_sqlen_no_sequences_witness :
  PrimFloat.is_nan (_c_average_sqlen (D := float) (text_msa [] [] 3)) = true.
Proof.
  apply (average_sqlen_no_sequences EaselMsa.lib (text_msa [] [] 3)). reflexivity.
Defined.

(** ** [_c_addGC_identity] *)

Lemma c_string_terminated (l : list ascii) :
  (forall x, In x l -> x <> Ascii.zero) ->
  c_string (l ++ [Ascii.zero]) = string_of_list_ascii l.
Proof.
  induction l as [|x l IH]; intros Hnz; [reflexivity|].
  simpl. destruct (Ascii.eqb_spec x Ascii.zero) as [Hz|_].
  - destruct (Hnz x (or_introl eq_refl) Hz).
  - rewrite IH; [reflexivity|]. intros y Hy. apply Hnz. right. exact Hy.
Qed.

Lemma string_of_list_length (l : list ascii) :
  String.length (string_of_list_ascii l) = List.length l.
Proof. induction l as [|x l IH]; simpl; [reflexivity | rewrite IH; reflexivity]. Qed.

Lemma string_of_list_get (l : list ascii) :
  forall c, String.get c (string_of_list_ascii l) = l !! c.
Proof.
  induction l as [|x l IH]; intros c; [destruct c; reflexivity|].
  destruct c as [|c]; [reflexivity|]. simpl. apply IH.
Qed.

Section Identity.
Context {D : Type} {M : EaselMsaLib D}.

(** One entry of the buffer, whatever the mode. *)
Lemma gc_identity_entry (msa : ESL_MSA D) (use_res : Z) (c : nat) :
  (c < Z.to_nat (alen msa))%nat ->
  gc_identity_buffer msa use_res !! c
    = Some (if for_break 1 (nseq msa) (fun idx => negb (gc_same_at msa idx c)) =? nseq msa
            then (if truthy use_res then gc_residue msa c else "*"%char)
            else "."%char).
Proof.
  intros Hc. unfold gc_identity_buffer, gc_same_at, gc_residue.
  destruct (is_digital msa).
  - rewrite lookup_app_l by (rewrite length_map, length_seq; exact Hc).
    rewrite list_lookup_fmap.
    rewrite lookup_seq_lt by exact Hc. simpl.
    unfold gc_identity_digital. rewrite (Nat.add_comm c 1). reflexivity.
  - unfold upto.
    rewrite lookup_app_l by (rewrite length_map, length_seq; exact Hc).
    rewrite list_lookup_fmap.
    rewrite lookup_seq_lt by exact Hc. simpl.
    unfold gc_identity_text. reflexivity.
Qed.

Lemma gc_identity_length (msa : ESL_MSA D) (use_res : Z) :
  List.length (gc_identity_buffer msa use_res) = (Z.to_nat (alen msa) + 1)%nat.
Proof.
  unfold gc_identity_buffer. rewrite length_app. simpl.
  destruct (is_digital msa); unfold upto; rewrite length_map, length_seq; reflexivity.
Qed.

Lemma gc_same_at_first (msa : ESL_MSA D) (c : nat) : gc_same_at msa 0 c = true.
Proof.
  unfold gc_same_at. destruct (is_digital msa);
    [apply Z.eqb_refl | apply Ascii.eqb_refl].
Qed.

End Identity.

(** X11: the annotation that [_c_addGC_identity] builds for an alignment
    of at least one sequence has one character per column and a terminator
    after them.  A column in which every sequence holds what sequence 0
    holds (the same code in digital mode, gaps included; the same character
    up to the case of letters in text mode) gets the residue of sequence 0
    when [use_res] is set and [*] when it is not; every other column gets a
    dot.  Without [use_res] the string handed to [esl_msa_AppendGC] has
    [alen] characters. *)
Theorem addGC_identity_spec :
  forall (D : Type) (M : EaselMsaLib D) (msa : ESL_MSA D) (use_res : Z),
    1 <= nseq msa ->
    let id := gc_identity_buffer msa use_res in
    List.length id = (Z.to_nat (alen msa) + 1)%nat /\
    id !! Z.to_nat (alen msa) = Some Ascii.zero /\
    (forall c, (c < Z.to_nat (alen msa))%nat ->
       ((forall idx, (idx < Z.to_nat (nseq msa))%nat -> gc_same_at msa idx c = true) ->
        id !! c = Some (if truthy use_res then gc_residue msa c else "*"%char)) /\
       ((exists idx, (idx < Z.to_nat (nseq msa))%nat /\ gc_same_at msa idx c = false) ->
        id !! c = Some "."%char) /\
       (id !! c = Some "."%char \/
        forall idx, (idx < Z.to_nat (nseq msa))%nat -> gc_same_at msa idx c = true)) /\
    (use_res = 0 ->
     String.length (snd (_c_addGC_identity msa use_res)) = Z.to_nat (alen msa) /\
     forall c, (c < Z.to_nat (alen msa))%nat ->
               String.get c (snd (_c_addGC_identity msa use_res)) = id !! c).
Proof.
  intros D M msa use_res Hn id. subst id.
  assert (Hcol : forall c,
            (for_break 1 (nseq msa) (fun idx => negb (gc_same_at msa idx c)) =? nseq msa)
              = true <->
            forall idx, (idx < Z.to_nat (nseq msa))%nat -> gc_same_at msa idx c = true).
  { intros c. rewrite for_break_end by (simpl; lia). split.
    - intros Hall idx Hi. destruct idx as [|idx]; [apply gc_same_at_first|].
      apply negb_false_iff. apply Hall. lia.
    - intros Hall idx Hi. apply negb_false_iff. apply Hall. lia. }
  split; [apply gc_identity_length|]. split.
  { unfold gc_identity_buffer.
    rewrite lookup_app_r;
      destruct (is_digital msa); unfold upto; rewrite length_map, length_seq;
      try lia; rewrite Nat.sub_diag; reflexivity. }
  split.
  - intros c Hc. rewrite (gc_identity_entry msa use_res c Hc).
    destruct (for_break 1 (nseq msa) (fun idx => negb (gc_same_at msa idx c)) =? nseq msa)
      eqn:Hb.
    + split; [intros _; reflexivity|]. split.
      * intros (idx & Hi & Hs). rewrite (proj1 (Hcol c) Hb idx Hi) in Hs. discriminate Hs.
      * right. apply Hcol. exact Hb.
    + split; [|split; [intros _; reflexivity | left; reflexivity]].
      intros Hall. apply Hcol in Hall. congruence.
  - intros Hu. subst use_res. unfold _c_addGC_identity. simpl snd.
    assert (Hstr : c_string (gc_identity_buffer msa 0)
                   = string_of_list_ascii (take (Z.to_nat (alen msa))
                                                (gc_identity_buffer msa 0))).
    { unfold gc_identity_buffer.
      destruct (is_digital msa); unfold upto;
        (rewrite take_app_length' by (rewrite length_map, length_seq; reflexivity));
        apply c_string_terminated; intros x Hin; apply in_map_iff in Hin;
        destruct Hin as (apos & <- & _);
        unfold gc_identity_digital, gc_identity_text; simpl;
        match goal with |- context [if ?b then _ else _] => destruct b end;
        discriminate. }
    rewrite Hstr. split.
    + rewrite string_of_list_length, length_take, gc_identity_length. lia.
    + intros c Hc. rewrite string_of_list_get. apply lookup_take_lt. exact Hc.
Qed.

Lemma addGC_identity_spec_witness :
  List.length (gc_identity_buffer (D := Q) msa_text 0)
    = (Z.to_nat (alen (D := Q) msa_text) + 1)%nat.
Proof.
  apply (addGC_identity_spec Q EaselMsa.lib msa_text 0). vm_compute. discriminate.
Defined.

(** ** [_c_set_blank_ss_cons] *)

Lemma blank_buffer (n : nat) (buf : list ascii) :
  List.length buf = S n ->
  <[n := Ascii.zero]> (fold_left (fun buf i => <[i := "."%char]> buf) (seq 0 n) buf)
    = replicate n "."%char ++ [Ascii.zero].
Proof.
  intros Hlen. apply list_eq. intros p.
  destruct (decide (p = n)) as [->|Hne].
  - rewrite list_lookup_insert_eq
      by (rewrite (fold_insert_length (fun _ => "."%char)); lia).
    rewrite lookup_app_r by (rewrite length_replicate; lia).
    rewrite length_replicate, Nat.sub_diag. reflexivity.
  - rewrite list_lookup_insert_ne by congruence.
    rewrite (fold_insert_own (fun _ => "."%char)).
    destruct (decide (0 <= p < 0 + n)%nat) as [Hp|Hp].
    + rewrite lookup_app_l by (rewrite length_replicate; lia).
      rewrite lookup_replicate_2 by lia.
      destruct (buf !! p) eqn:E; [reflexivity|].
      apply lookup_ge_None in E. lia.
    + rewrite lookup_ge_None_2 by lia.
      symmetry. apply lookup_ge_None_2.
      rewrite length_app, length_replicate. simpl. lia.
Qed.

Lemma set_blank_ss_cons_eq {D : Type} (msa : ESL_MSA D) :
  _c_set_blank_ss_cons msa
    = {| aseq := aseq msa; sqname := sqname msa; wgt := wgt msa; alen := alen msa;
         nseq := nseq msa; flags := flags msa; abc := abc msa; ax := ax msa;
         name := name msa; ss_cons := blank_ss (Z.to_nat (alen msa)) |}.
Proof.
  unfold _c_set_blank_ss_cons, blank_ss. f_equal. unfold upto.
  rewrite blank_buffer.
  - apply c_string_terminated. intros x Hin.
    apply list_elem_of_In, elem_of_replicate in Hin. destruct Hin as [-> _]. discriminate.
  - rewrite length_take, length_app, length_replicate. lia.
Qed.

(** X12: [_c_set_blank_ss_cons] sets the consensus structure to [alen]
    dots, whatever it was before, and touches nothing else; doing it twice
    is doing it once. *)
Theorem set_blank_ss_cons_spec :
  forall (D : Type) (msa : ESL_MSA D),
    0 <= alen msa ->
    String.length (ss_cons (_c_set_blank_ss_cons msa)) = Z.to_nat (alen msa) /\
    (forall i, (i < Z.to_nat (alen msa))%nat ->
               String.get i (ss_cons (_c_set_blank_ss_cons msa)) = Some "."%char) /\
    _c_set_blank_ss_cons msa
      = {| aseq := aseq msa; sqname := sqname msa; wgt := wgt msa; alen := alen msa;
           nseq := nseq msa; flags := flags msa; abc := abc msa; ax := ax msa;
           name := name msa; ss_cons := ss_cons (_c_set_blank_ss_cons msa) |} /\
    _c_set_blank_ss_cons (_c_set_blank_ss_cons msa) = _c_set_blank_ss_cons msa.
Proof.
  intros D msa Ha. rewrite !set_blank_ss_cons_eq. simpl. unfold blank_ss.
  split; [rewrite string_of_list_length; apply length_replicate|].
  split; [|split; reflexivity].
  intros i Hi. rewrite string_of_list_get. apply lookup_replicate_2. exact Hi.
Qed.

Lemma set_blank_ss_cons_spec_witness :
  String.length (ss_cons (_c_set_blank_ss_cons (D := Q) msa_hairpin))
    = Z.to_nat (alen (D := Q) msa_hairpin).
Proof.
  apply (set_blank_ss_cons_spec Q msa_hairpin). vm_compute. discriminate.
Defined.

(** *** A blank structure has no basepairs *)

Lemma fold_left_fixed_in {X Y : Type} (f : X -> Y -> X) (l : list Y) (v : X) :
  (forall y, In y l -> f v y = v) -> fold_left f l v = v.
Proof.
  induction l as [|y l IH]; intros Hf; simpl; [reflexivity|].
  rewrite Hf by (left; reflexivity). apply IH. intros y' Hy. apply Hf. right. exact Hy.
Qed.

Lemma wuss_nopseudo_blank (n : nat) : Easel.wuss_nopseudo (blank_ss n) = blank_ss n.
Proof.
  unfold blank_ss. induction n as [|n IH]; [reflexivity|].
  simpl. rewrite IH. reflexivity.
Qed.

(** Dots leave the stacks and the pair table alone. *)
Lemma wuss2ct_dots (pda : list (list nat)) (ct : list Z) (n : nat) :
  forall (a : nat) (sym : list ascii),
    exists sym',
      for_each (zip (seq a n) (replicate n "."%char)) Easel.wuss2ct_step (pda, sym, ct)
        = Done (pda, sym', ct).
Proof.
  induction n as [|n IH]; intros a sym.
  - exists sym. reflexivity.
  - simpl seq. simpl replicate. simpl zip. rewrite for_each_cons.
    destruct (IH (S a) (<[a := "."%char]> sym)) as [sym' Hs].
    exists sym'. exact Hs.
Qed.

Lemma wuss2ct_blank (len : Z) :
  Easel.wuss2ct (blank_ss (Z.to_nat len)) len = (eslOK, replicate (Z.to_nat len + 1) 0).
Proof.
  unfold Easel.wuss2ct, blank_ss.
  rewrite list_ascii_of_string_of_list_ascii, string_of_list_length, length_replicate.
  rewrite Nat.sub_diag. simpl replicate at 2. rewrite app_nil_r.
  rewrite take_ge by (rewrite length_replicate; lia).
  destruct (wuss2ct_dots (replicate 27 []) (replicate (Z.to_nat len + 1) 0)
                         (Z.to_nat len) 1 (replicate (Z.to_nat len + 1) Ascii.zero))
    as [sym' Hs].
  rewrite Hs. reflexivity.
Qed.

Section Blank.
Context {D : Type} {HD : Double D}.

Lemma bp_locate_none (n : nat) :
  fold_left (bp_locate (replicate (n + 1) 0)) (seq 0 n) (0, replicate n (-1))
    = (0, replicate n (-1)).
Proof.
  apply fold_left_fixed_in. intros apos Hin. apply in_seq in Hin.
  unfold bp_locate. rewrite lookup_total_replicate_2 by lia.
  destruct (0 >? Z.of_nat apos + 1) eqn:Hc; [lia | reflexivity].
Qed.

Lemma bp_accumulate_none (msa : ESL_MSA D) :
  bp_accumulate msa (replicate (Z.to_nat (alen msa)) (-1))
    = {| seq_canA := esl_vec_ISet (nseq msa) 0;
         pos_canA := esl_vec_ISet (alen msa) 0;
         covA := esl_vec_DSet (alen msa) (of_int 0);
         cov_cntA := esl_vec_DSet (alen msa) (of_int 0) |}.
Proof.
  unfold bp_accumulate. apply fold_left_fixed_in. intros i _.
  apply fold_left_fixed_in. intros apos Hin. apply in_seq in Hin.
  unfold bp_position. rewrite lookup_total_replicate_2 by lia. reflexivity.
Qed.

Lemma bp_normalize_none (n : nat) (cnt cov : list D) (l : list nat) :
  (forall apos, In apos l -> (apos < n)%nat) ->
  fold_left (bp_normalize (replicate n (-1)) cnt) l cov = cov.
Proof.
  intros Hl. apply fold_left_fixed_in. intros apos Hin.
  unfold bp_normalize. rewrite lookup_total_replicate_2 by (apply Hl; exact Hin).
  reflexivity.
Qed.

End Blank.

(** X13: after [_c_set_blank_ss_cons], [_c_rfam_bp_stats] (with Easel's
    [esl_wuss_nopseudo] and [esl_wuss2ct]) succeeds and reports an alignment
    without basepairs: [nbp] is 0, no column has a partner, the counts of
    canonical basepairs and the covariation are 0 everywhere, and the mean
    covariation is 0. *)
Theorem blank_ss_cons_bp_stats :
  forall (D : Type) (HD : Double D) (msa : ESL_MSA D),
    0 <= alen msa ->
    _c_rfam_bp_stats (_c_set_blank_ss_cons msa)
      = Done {| ret_nbp := 0;
                ret_rposA := esl_vec_ISet (alen msa) (-1);
                ret_seq_canA := esl_vec_ISet (nseq msa) 0;
                ret_pos_canA := esl_vec_ISet (alen msa) 0;
                ret_covA := esl_vec_DSet (alen msa) (of_int 0);
                ret_mean_cov := of_int 0 |}.
Proof.
  intros D HD msa Ha. rewrite set_blank_ss_cons_eq.
  unfold _c_rfam_bp_stats. simpl.
  rewrite wuss_nopseudo_blank, wuss2ct_blank. simpl.
  unfold upto, esl_vec_ISet at 1. rewrite bp_locate_none.
  rewrite (bp_accumulate_none
             {| aseq := aseq msa; sqname := sqname msa; wgt := wgt msa; alen := alen msa;
                nseq := nseq msa; flags := flags msa; abc := abc msa; ax := ax msa;
                name := name msa; ss_cons := blank_ss (Z.to_nat (alen msa)) |}).
  simpl.
  rewrite bp_normalize_none by (intros apos Hin; apply in_seq in Hin; lia).
  reflexivity.
Qed.

Lemma blank_ss_cons_bp_stats_witness :
  exists b, _c_rfam_bp_stats (D := Q) (_c_set_blank_ss_cons msa_hairpin) = Done b /\
            ret_nbp b = 0.
Proof.
  eexists. split.
  - apply (blank_ss_cons_bp_stats Q Double_Q msa_hairpin). vm_compute. discriminate.
  - reflexivity.
Defined.

(** ** Counts of [_c_rfam_bp_stats] *)

Lemma filter_length_le_in (p q : nat -> bool) (l : list nat) :
  (forall k, In k l -> p k = true -> q k = true) ->
  (List.length (filter (fun k => p k = true) l)
   <= List.length (filter (fun k => q k = true) l))%nat.
Proof.
  induction l as [|k l IH]; intros Hpq; [reflexivity|].
  assert (IH' := IH (fun k' Hk' => Hpq k' (or_intror Hk'))).
  rewrite !filter_cons. destruct (p k) eqn:Hp.
  - rewrite (Hpq k (or_introl eq_refl) Hp). rewrite !decide_True by reflexivity.
    simpl. lia.
  - rewrite (decide_False (P := false = true)) by discriminate.
    destruct (decide (q k = true)); simpl; lia.
Qed.

Lemma filter_length_none (p : nat -> bool) (l : list nat) :
  (forall k, In k l -> p k = false) ->
  List.length (filter (fun k => p k = true) l) = 0%nat.
Proof.
  induction l as [|k l IH]; intros Hp; [reflexivity|].
  rewrite filter_cons, (Hp k (or_introl eq_refl)), decide_False by discriminate.
  apply IH. intros k' Hk'. apply Hp. right. exact Hk'.
Qed.

Lemma fold_left_length_inv {X Y : Type} (f : list X -> Y -> list X) (l : list Y) :
  (forall arr y, List.length (f arr y) = List.length arr) ->
  forall arr, List.length (fold_left f l arr) = List.length arr.
Proof.
  intros Hf. induction l as [|y l IH]; intros arr; simpl; [reflexivity|].
  rewrite IH. apply Hf.
Qed.

Lemma fold_sum_shift (g : nat -> Z) (l : list nat) (z : Z) :
  fold_left (fun s a => s + g a) l z = z + fold_left (fun s a => s + g a) l 0.
Proof.
  revert z. induction l as [|a l IH]; intros z; simpl; [lia|].
  rewrite (IH (z + g a)), (IH (0 + g a)). lia.
Qed.

Lemma fold_sum_ext (g h : nat -> Z) (l : list nat) (z : Z) :
  (forall a, In a l -> g a = h a) ->
  fold_left (fun s a => s + g a) l z = fold_left (fun s a => s + h a) l z.
Proof.
  revert z. induction l as [|a l IH]; intros z Hgh; simpl; [reflexivity|].
  rewrite (Hgh a (or_introl eq_refl)). apply IH. intros a' Ha. apply Hgh. right. exact Ha.
Qed.

Lemma fold_sum_add (g h : nat -> Z) (l : list nat) :
  fold_left (fun s a => s + (g a + h a)) l 0
    = fold_left (fun s a => s + g a) l 0 + fold_left (fun s a => s + h a) l 0.
Proof.
  induction l as [|a l IH]; simpl; [reflexivity|].
  rewrite (fold_sum_shift (fun a => g a + h a) l), (fold_sum_shift g l (0 + g a)),
          (fold_sum_shift h l (0 + h a)), IH. lia.
Qed.

(** Counting the pairs [(i, a)] that satisfy [c] row by row or column by
    column gives the same number. *)
Lemma count_rows_columns (c : nat -> nat -> bool) (la : list nat) (li : list nat) :
  fold_left (fun s i => s + Z.of_nat (List.length (filter (fun a => c i a = true) la))) li 0
    = fold_left (fun s a => s + Z.of_nat (List.length (filter (fun i => c i a = true) li)))
                la 0.
Proof.
  induction li as [|i li IH].
  - simpl. symmetry. apply fold_left_fixed_in. intros a _. reflexivity.
  - simpl fold_left at 1.
    rewrite (fold_sum_shift
               (fun i => Z.of_nat (List.length (filter (fun a => c i a = true) la)))).
    rewrite IH.
    rewrite (fold_sum_ext
               (fun a => Z.of_nat (List.length (filter (fun i0 => c i0 a = true) (i :: li))))
               (fun a => (if c i a then 1 else 0)
                         + Z.of_nat (List.length (filter (fun i0 => c i0 a = true) li)))).
    + rewrite fold_sum_add. f_equal.
      rewrite (fold_add_indicator (fun a => c i a)). lia.
    + intros a _. rewrite filter_cons. destruct (c i a).
      * rewrite decide_True by reflexivity. simpl List.length. lia.
      * rewrite decide_False by discriminate. lia.
Qed.

Lemma fold_add_map (f : nat -> Z) (l : list nat) (z : Z) :
  fold_left Z.add (map f l) z = fold_left (fun s i => s + f i) l z.
Proof. revert z. induction l as [|i l IH]; intros z; simpl; [reflexivity | apply IH]. Qed.

Lemma list_as_map (f : nat -> Z) (n : nat) (l : list Z) :
  List.length l = n ->
  (forall i, (i < n)%nat -> l !! i = Some (f i)) ->
  l = map f (seq 0 n).
Proof.
  intros Hlen Hl. apply list_eq. intros i.
  destruct (decide (i < n)%nat) as [Hi|Hi].
  - rewrite Hl by exact Hi. change (map f (seq 0 n)) with (f <$> seq 0 n).
    rewrite list_lookup_fmap, lookup_seq_lt by exact Hi. reflexivity.
  - rewrite !lookup_ge_None_2; [reflexivity | rewrite length_map, length_seq; lia | lia].
Qed.

Section BasepairCounts.
Context {D : Type} {HD : Double D} {L : EaselLib D}.

(** The function on a well-formed structure, with its first loop named. *)
Lemma bp_stats_run (msa : ESL_MSA D) (ct : list Z) :
  esl_wuss2ct (esl_wuss_nopseudo (ss_cons msa)) (alen msa) = (eslOK, ct) ->
  exists cov mean,
    _c_rfam_bp_stats msa
      = Done {| ret_nbp := fst (bp_located (alen msa) ct);
                ret_rposA := snd (bp_located (alen msa) ct);
                ret_seq_canA :=
                  seq_canA (bp_accumulate msa (snd (bp_located (alen msa) ct)));
                ret_pos_canA :=
                  pos_canA (bp_accumulate msa (snd (bp_located (alen msa) ct)));
                ret_covA := cov;
                ret_mean_cov := mean |}.
Proof.
  intros Hct. unfold _c_rfam_bp_stats, bp_located. rewrite Hct. simpl.
  destruct (fold_left (bp_locate ct) (upto (alen msa)) (0, esl_vec_ISet (alen msa) (-1)))
    as [nbp rposA].
  eexists. eexists. reflexivity.
Qed.


(** The columns with a partner are the left halves of [ct], and there are
    [nbp] of them. *)
Lemma bp_located_spec (n : Z) (ct : list Z) :
  List.length (snd (bp_located n ct)) = Z.to_nat n /\
  fst (bp_located n ct)
    = Z.of_nat (List.length
        (filter (fun apos => negb (snd (bp_located n ct) !!! apos =? -1) = true)
                (seq 0 (Z.to_nat n)))) /\
  (forall apos, (apos < Z.to_nat n)%nat ->
     snd (bp_located n ct) !!! apos
       = if ct !!! (apos + 1)%nat >? Z.of_nat apos + 1
         then ct !!! (apos + 1)%nat - 1 else -1).
Proof.
  unfold bp_located, upto.
  destruct (bp_locate_entries ct (Z.to_nat n) 0 0 (esl_vec_ISet n (-1)))
    as (Hn & Hin & Hout).
  { unfold esl_vec_ISet. rewrite length_replicate. lia. }
  assert (Hval : forall apos, (apos < Z.to_nat n)%nat ->
            snd (fold_left (bp_locate ct) (seq 0 (Z.to_nat n)) (0, esl_vec_ISet n (-1)))
              !!! apos
            = if ct !!! (apos + 1)%nat >? Z.of_nat apos + 1
              then ct !!! (apos + 1)%nat - 1 else -1).
  { intros apos Hp. apply list_lookup_total_correct.
    destruct (ct !!! (apos + 1)%nat >? Z.of_nat apos + 1) eqn:Hc.
    - apply Hin; [lia | exact Hc].
    - rewrite Hout by (right; exact Hc).
      unfold esl_vec_ISet. apply lookup_replicate_2. exact Hp. }
  split; [|split; [|exact Hval]].
  - assert (Hl : forall (l : list nat) (st : Z * list Z),
              List.length (snd (fold_left (bp_locate ct) l st)) = List.length (snd st)).
    { induction l as [|a l IH]; intros st; simpl; [reflexivity|].
      rewrite IH. unfold bp_locate. destruct st as [nbp r].
      destruct (ct !!! (a + 1)%nat >? Z.of_nat a + 1); simpl;
        [apply length_insert | reflexivity]. }
    rewrite Hl. simpl. unfold esl_vec_ISet. apply length_replicate.
  - rewrite Hn, Z.add_0_l. apply f_equal.
    assert (Hle1 := filter_length_le_in
              (fun apos => ct !!! (apos + 1)%nat >? Z.of_nat apos + 1)
              (fun apos => negb (snd (fold_left (bp_locate ct) (seq 0 (Z.to_nat n))
                                                (0, esl_vec_ISet n (-1))) !!! apos =? -1))
              (seq 0 (Z.to_nat n))).
    assert (Hle2 := filter_length_le_in
              (fun apos => negb (snd (fold_left (bp_locate ct) (seq 0 (Z.to_nat n))
                                                (0, esl_vec_ISet n (-1))) !!! apos =? -1))
              (fun apos => ct !!! (apos + 1)%nat >? Z.of_nat apos + 1)
              (seq 0 (Z.to_nat n))).
    apply Nat.le_antisymm.
    + apply Hle1. intros k Hk Hc. apply in_seq in Hk.
      rewrite Hval by lia. rewrite Hc. apply negb_true_iff. apply Z.eqb_neq. lia.
    + apply Hle2. intros k Hk Hc. apply in_seq in Hk.
      rewrite Hval in Hc by lia.
      destruct (ct !!! (k + 1)%nat >? Z.of_nat k + 1); [reflexivity | discriminate Hc].
Qed.

Lemma bp_accumulate_lengths (msa : ESL_MSA D) (rposA : list Z) :
  List.length (seq_canA (bp_accumulate msa rposA)) = Z.to_nat (nseq msa) /\
  List.length (pos_canA (bp_accumulate msa rposA)) = Z.to_nat (alen msa).
Proof.
  unfold bp_accumulate. rewrite bp_rows_fold. simpl. split.
  - rewrite fold_left_length_inv.
    + unfold esl_vec_ISet. apply length_replicate.
    + intros arr i. apply fold_left_length_inv. intros arr' apos. apply length_alter.
  - rewrite fold_left_length_inv.
    + unfold esl_vec_ISet. apply length_replicate.
    + intros arr i. apply fold_left_length_inv. intros arr' apos. apply length_alter.
Qed.

(** The two arrays of counts, as counts. *)
Lemma bp_seq_can_count (msa : ESL_MSA D) (rposA : list Z) :
  seq_canA (bp_accumulate msa rposA)
    = map (fun i => Z.of_nat (List.length
                      (filter (fun apos => bp_counted msa rposA i apos = true)
                              (upto (alen msa)))))
          (seq 0 (Z.to_nat (nseq msa))).
Proof.
  apply list_as_map; [apply bp_accumulate_lengths|].
  intros i Hi. rewrite bp_accumulate_row by exact Hi. f_equal.
  unfold bp_step_can.
  rewrite (fold_count (fun apos => bp_included msa rposA i apos
                                   && bp_canonical msa rposA i apos)).
  reflexivity.
Qed.

Lemma bp_pos_can_count (msa : ESL_MSA D) (rposA : list Z) :
  pos_canA (bp_accumulate msa rposA)
    = map (fun apos => Z.of_nat (List.length
                         (filter (fun i => bp_counted msa rposA i apos = true)
                                 (upto (nseq msa)))))
          (seq 0 (Z.to_nat (alen msa))).
Proof.
  apply list_as_map; [apply bp_accumulate_lengths|].
  intros apos Hp. destruct (bp_accumulate_column msa rposA apos Hp) as (_ & _ & Hc).
  rewrite Hc. f_equal. unfold bp_step_can.
  rewrite (fold_count (fun i => bp_included msa rposA i apos
                                && bp_canonical msa rposA i apos)).
  reflexivity.
Qed.

Lemma bp_counted_paired (msa : ESL_MSA D) (rposA : list Z) (i apos : nat) :
  bp_counted msa rposA i apos = true -> negb (rposA !!! apos =? -1) = true.
Proof.
  unfold bp_counted, bp_included. intros Hc.
  apply andb_true_iff in Hc as [Hc _]. apply andb_true_iff in Hc as [Hc _]. exact Hc.
Qed.

End BasepairCounts.

(** X14: on a structure that [esl_wuss2ct] accepts, [_c_rfam_bp_stats]
    returns arrays of [nseq] and [alen] entries; [nbp] is the number of
    columns with a partner, at most [alen]; the canonical count of a
    sequence lies between 0 and [nbp], that of a column between 0 and [nseq]
    and is 0 at a column without partner; and the counts by sequence add up
    to the same total as the counts by column. *)
Theorem bp_stats_counts :
  forall (D : Type) (HD : Double D) (L : EaselLib D) (msa : ESL_MSA D) (ct : list Z),
    esl_wuss2ct (esl_wuss_nopseudo (ss_cons msa)) (alen msa) = (eslOK, ct) ->
    exists b,
      _c_rfam_bp_stats msa = Done b /\
      List.length (ret_rposA b) = Z.to_nat (alen msa) /\
      List.length (ret_seq_canA b) = Z.to_nat (nseq msa) /\
      List.length (ret_pos_canA b) = Z.to_nat (alen msa) /\
      ret_nbp b
        = Z.of_nat (List.length
            (filter (fun apos => negb (ret_rposA b !!! apos =? -1) = true)
                    (upto (alen msa)))) /\
      0 <= ret_nbp b <= Z.max 0 (alen msa) /\
      (forall i x, ret_seq_canA b !! i = Some x -> 0 <= x <= ret_nbp b) /\
      (forall apos x, ret_pos_canA b !! apos = Some x ->
                      0 <= x <= Z.max 0 (nseq msa) /\
                      (ret_rposA b !!! apos = -1 -> x = 0)) /\
      esl_vec_ISum (ret_seq_canA b) (nseq msa)
        = esl_vec_ISum (ret_pos_canA b) (alen msa).
Proof.
  intros D HD L msa ct Hct.
  destruct (bp_stats_run msa ct Hct) as (cov & mean & Hrun).
  destruct (bp_located_spec (alen msa) ct) as (Hlen & Hnbp & _).
  set (rposA := snd (bp_located (alen msa) ct)) in *.
  eexists. split; [exact Hrun|]. simpl.
  destruct (bp_accumulate_lengths msa rposA) as [Hls Hlp].
  assert (Hfl := length_filter (fun apos => negb (rposA !!! apos =? -1) = true)
                               (seq 0 (Z.to_nat (alen msa)))).
  rewrite length_seq in Hfl.
  split; [exact Hlen|]. split; [exact Hls|]. split; [exact Hlp|].
  split; [exact Hnbp|]. split; [lia|]. split; [|split].
  - intros i x. rewrite bp_seq_can_count.
    change (map ?f ?l) with (f <$> l). rewrite list_lookup_fmap.
    destruct (seq 0 (Z.to_nat (nseq msa)) !! i) as [i'|]; simpl; [|discriminate].
    intros Hx. injection Hx as <-. rewrite Hnbp. split; [lia|].
    apply inj_le.
    apply (filter_length_le_in (fun apos => bp_counted msa rposA i' apos)
                               (fun apos => negb (rposA !!! apos =? -1))).
    intros k _. apply bp_counted_paired.
  - intros apos x. rewrite bp_pos_can_count.
    change (map ?f ?l) with (f <$> l). rewrite list_lookup_fmap.
    destruct (seq 0 (Z.to_nat (alen msa)) !! apos) as [apos'|] eqn:Hs; simpl;
      [|discriminate].
    apply lookup_seq in Hs as [Heq _]. simpl in Heq. subst apos'.
    intros Hx. injection Hx as <-.
    assert (Hf := length_filter (fun i => bp_counted msa rposA i apos = true)
                                (upto (nseq msa))).
    unfold upto in Hf at 2. rewrite length_seq in Hf.
    split; [lia|]. intros Hr.
    rewrite (filter_length_none (fun i => bp_counted msa rposA i apos)); [reflexivity|].
    intros k _. destruct (bp_counted msa rposA k apos) eqn:Hk; [|reflexivity].
    apply bp_counted_paired in Hk. rewrite Hr in Hk. discriminate Hk.
  - unfold esl_vec_ISum.
    rewrite bp_seq_can_count, bp_pos_can_count.
    rewrite !take_ge by (rewrite length_map, length_seq; lia).
    rewrite !fold_add_map.
    apply (count_rows_columns (fun i apos => bp_counted msa rposA i apos)).
Qed.

Lemma bp_stats_counts_witness :
  exists b, _c_rfam_bp_stats (D := Q) msa_hairpin = Done b /\
            esl_vec_ISum (ret_seq_canA b) (nseq (D := Q) msa_hairpin)
              = esl_vec_ISum (ret_pos_canA b) (alen (D := Q) msa_hairpin).
Proof.
  destruct (bp_stats_counts Q Double_Q Easel.lib msa_hairpin [0; 3; 0; 1] eq_refl)
    as (b & Hb & _ & _ & _ & _ & _ & _ & _ & Hsum).
  exists b. split; [exact Hb | exact Hsum].
Defined.

(** ** Fractions of [_c_rfam_qc_stats] *)

Lemma Q_frac_unit (a b : Z) :
  0 <= a <= b -> 0 < b -> (0 <= inject_Z a / inject_Z b <= 1)%Q.
Proof.
  intros Ha Hb.
  assert (Hpos : (0 < inject_Z b)%Q).
  { change 0%Q with (inject_Z 0). rewrite <- Zlt_Qlt. exact Hb. }
  split.
  - apply Qle_shift_div_l; [exact Hpos|].
    rewrite Qmult_0_l. change 0%Q with (inject_Z 0). rewrite <- Zle_Qle. lia.
  - apply Qle_shift_div_r; [exact Hpos|].
    rewrite Qmult_1_l. rewrite <- Zle_Qle. lia.
Qed.


Section QcCounts.
Context {D : Type} {HD : Double D} {L : EaselLib D}.




End QcCounts.



(** ** Lengths of [_c_rfam_comp_and_len_stats] *)

Section Lengths.
Context {D : Type} {HD : Double D} {L : EaselLib D}.

(** What a successful pass over the columns of row [i] does to [lenA]. *)
Lemma comp_columns_len (msa : ESL_MSA D) (i : nat) (seqwt : D) (cols : list nat) :
  forall (A A' : list (list D)) (Ls Ls' : list Z),
    for_each cols (comp_count_column msa i seqwt) (A, Ls) = Done (A', Ls') ->
    Ls' = alter (fun x => x + residue_count (abc msa)
                              (map (fun apos => ax_at msa i (apos + 1)) cols)) i Ls.
Proof.
  induction cols as [|apos cols IH]; intros A A' Ls Ls' Hrun.
  - simpl in Hrun. injection Hrun as _ <-. unfold residue_count. simpl.
    symmetry. apply alter_add_0.
  - rewrite for_each_cons in Hrun.
    destruct (comp_count_column msa i seqwt (A, Ls) apos) as [[A1 Ls1]|e] eqn:Hstep;
      [|discriminate Hrun].
    simpl in Hrun. apply IH in Hrun. rewrite Hrun.
    unfold comp_count_column in Hstep.
    destruct (esl_abc_DCount (abc msa) (A !!! i) (ax_at msa i (apos + 1)) seqwt)
      as [status row1].
    destruct (negb (status =? eslOK)); [discriminate Hstep|].
    injection Hstep as _ <-.
    simpl map. unfold residue_count. rewrite filter_cons.
    destruct (esl_abc_XIsResidue (abc msa) (ax_at msa i (apos + 1))).
    + rewrite decide_True by reflexivity.
      rewrite list_alter_alter_eq. apply list_alter_ext; [|reflexivity].
      intros x _. simpl. lia.
    + rewrite decide_False by discriminate. reflexivity.
Qed.

(** One successful pass of the loop over [i], field by field. *)
Lemma comp_sequence_len (msa : ESL_MSA D) (st st' : comp_len_stats) (i : nat) :
  comp_sequence msa st i = Done st' ->
  lenA st' = alter (fun x => x + residue_count (abc msa) (row_codes msa i)) i (lenA st) /\
  len_tot st' = len_tot st + lenA st' !!! i /\
  len_min st' = (if (i =? 0)%nat then lenA st' !!! i
                 else ESL_MIN (len_min st) (lenA st' !!! i)) /\
  len_max st' = (if (i =? 0)%nat then lenA st' !!! i
                 else ESL_MAX (len_max st) (lenA st' !!! i)).
Proof.
  unfold comp_sequence. intros Hrun.
  destruct (for_each (upto (alen msa)) (comp_count_column msa i (wgt msa !!! i))
                     (abcAA st, lenA st)) as [[A' Ls']|e] eqn:Hcols;
    [|discriminate Hrun].
  simpl in Hrun. injection Hrun as <-. simpl.
  apply comp_columns_len in Hcols. subst Ls'.
  repeat split; reflexivity.
Qed.


(** The state after the first [n] sequences. *)
Lemma comp_lengths_loop (msa : ESL_MSA D) (st0 : comp_len_stats) (N : nat) :
  lenA st0 = replicate N 0 -> len_tot st0 = 0 -> len_min st0 = 0 -> len_max st0 = 0 ->
  forall (n : nat) (c : comp_len_stats),
    (n <= N)%nat ->
    for_each (seq 0 n) (comp_sequence msa) st0 = Done c ->
    List.length (lenA c) = N /\
    (forall i, (i < n)%nat ->
               lenA c !! i = Some (residue_count (abc msa) (row_codes msa i))) /\
    (forall i, (n <= i < N)%nat -> lenA c !! i = Some 0) /\
    len_tot c = fold_left (fun s i => s + residue_count (abc msa) (row_codes msa i))
                          (seq 0 n) 0 /\
    (n = 0%nat -> len_min c = 0 /\ len_max c = 0) /\
    ((0 < n)%nat ->
     (forall i, (i < n)%nat ->
                len_min c <= residue_count (abc msa) (row_codes msa i) <= len_max c) /\
     (exists i, (i < n)%nat /\ len_min c = residue_count (abc msa) (row_codes msa i)) /\
     (exists i, (i < n)%nat /\ len_max c = residue_count (abc msa) (row_codes msa i))).
Proof.
  intros Hl0 Ht0 Hmn0 Hmx0. induction n as [|n IH]; intros c Hn Hrun.
  - simpl in Hrun. injection Hrun as <-. rewrite Hl0.
    split; [apply length_replicate|]. split; [intros i Hi; lia|].
    split; [intros i Hi; apply lookup_replicate_2; lia|].
    split; [exact Ht0|]. split; [intros _; split; assumption | intros H0; lia].
  - rewrite seq_S, for_each_app in Hrun. simpl in Hrun.
    destruct (for_each (seq 0 n) (comp_sequence msa) st0) as [c1|e] eqn:Hc1;
      [|discriminate Hrun].
    simpl in Hrun.
    destruct (comp_sequence msa c1 n) as [c2|e] eqn:Hc2; [|discriminate Hrun].
    simpl in Hrun. injection Hrun as <-.
    destruct (IH c1 ltac:(lia) eq_refl) as (Hlen & Hdone & Hrest & Htot & Hzero & Hpos).
    destruct (comp_sequence_len msa c1 c2 n Hc2) as (HlenA & Htot2 & Hmn2 & Hmx2).
    assert (Hn2 : lenA c2 !! n = Some (residue_count (abc msa) (row_codes msa n))).
    { rewrite HlenA, list_lookup_alter_eq, Hrest by lia. simpl. reflexivity. }
    assert (Hn3 : lenA c2 !!! n = residue_count (abc msa) (row_codes msa n))
      by (apply list_lookup_total_correct; exact Hn2).
    rewrite Hn3 in Htot2, Hmn2, Hmx2.
    split; [rewrite HlenA, length_alter; exact Hlen|].
    split.
    { intros i Hi. destruct (decide (i = n)) as [->|Hne]; [exact Hn2|].
      rewrite HlenA, list_lookup_alter_ne by congruence. apply Hdone. lia. }
    split.
    { intros i Hi. rewrite HlenA, list_lookup_alter_ne by lia. apply Hrest. lia. }
    split.
    { rewrite seq_S, fold_left_app. simpl. rewrite <- Htot. exact Htot2. }
    split; [intros H0; lia|]. intros _.
    destruct n as [|n].
    + simpl in Hmn2, Hmx2. rewrite Hmn2, Hmx2. split; [|split].
      * intros i Hi. replace i with 0%nat by lia. lia.
      * exists 0%nat. split; [lia | reflexivity].
      * exists 0%nat. split; [lia | reflexivity].
    + destruct (Hpos ltac:(lia)) as (Hall & (imin & Himin & Hmin) & (imax & Himax & Hmax)).
      simpl in Hmn2, Hmx2. unfold ESL_MIN in Hmn2. unfold ESL_MAX in Hmx2.
      rewrite Z.gtb_ltb in Hmx2.
      destruct (Z.ltb_spec (len_min c1) (residue_count (abc msa) (row_codes msa (S n))))
        as [Hlt1|Hge1];
      destruct (Z.ltb_spec (residue_count (abc msa) (row_codes msa (S n))) (len_max c1))
        as [Hlt2|Hge2];
      rewrite Hmn2, Hmx2;
      (split; [|split];
       [ intros i Hi; destruct (decide (i = S n)) as [->|Hne];
         [lia | specialize (Hall i ltac:(lia)); lia]
       | first [ exists imin; split; [lia | exact Hmin]
               | exists (S n); split; [lia | reflexivity] ]
       | first [ exists imax; split; [lia | exact Hmax]
               | exists (S n); split; [lia | reflexivity] ] ]).
Qed.

End Lengths.



(** ** [_c_max_rna_two_letter_ambiguity] in exact arithmetic *)

Lemma Qdiv_le_mono (a b c : Q) : (0 < c)%Q -> (a <= b)%Q -> (a / c <= b / c)%Q.
Proof.
  intros Hc Hab. unfold Qdiv. apply Qmult_le_compat_r; [exact Hab|].
  apply Qlt_le_weak. apply Qinv_lt_0_compat. exact Hc.
Qed.

Lemma Qdiv_lt_inv (a b c : Q) : (0 < c)%Q -> (a / c < b / c)%Q -> (a < b)%Q.
Proof.
  intros Hc Hlt. apply Qnot_le_lt. intros Hle.
  apply (Qlt_not_le _ _ Hlt). apply Qdiv_le_mono; assumption.
Qed.

(** X17: without rounding and on a positive total, the fraction that
    [_c_max_rna_two_letter_ambiguity] returns is at least the fraction of
    each of M, W, S, Y and K; the code returned is one of the six.  Unless
    that code is R, the fraction is the code's own; when it is R, the
    fraction is that of M, smaller than that of R, and G outnumbers C.  So
    when G does not outnumber C the function returns the most common
    two-letter code with its fraction, the largest of the six. *)
Theorem max_2l_ambiguity_exact :
  forall act cct gct uct : Q,
    (0 < act + cct + gct + uct)%Q ->
    let code := fst (_c_max_rna_two_letter_ambiguity act cct gct uct) in
    let frac := snd (_c_max_rna_two_letter_ambiguity act cct gct uct) in
    In code ["M"; "R"; "W"; "S"; "Y"; "K"]%char /\
    (forall c, In c ["M"; "W"; "S"; "Y"; "K"]%char ->
               (two_letter_frac c act cct gct uct <= frac)%Q) /\
    (code <> "R"%char -> frac = two_letter_frac code act cct gct uct) /\
    (code = "R"%char ->
     frac = two_letter_frac "M" act cct gct uct /\
     (frac < two_letter_frac "R" act cct gct uct)%Q /\ (cct < gct)%Q) /\
    ((gct <= cct)%Q ->
     code <> "R"%char /\
     forall c, In c ["M"; "R"; "W"; "S"; "Y"; "K"]%char ->
               (two_letter_frac c act cct gct uct <= frac)%Q).
Proof.
  intros act cct gct uct Hsum code frac. subst code frac.
  assert (HR : (gct <= cct)%Q ->
               Qlt_bool ((act + cct) / (act + cct + gct + uct))
                        ((act + gct) / (act + cct + gct + uct)) = false).
  { intros Hgc. apply Qlt_bool_false. apply Qdiv_le_mono; [exact Hsum|].
    apply Qplus_le_compat; [apply Qle_refl | exact Hgc]. }
  assert (HR' : Qlt_bool ((act + cct) / (act + cct + gct + uct))
                         ((act + gct) / (act + cct + gct + uct)) = true ->
                (cct < gct)%Q).
  { intros Hlt. apply Qlt_bool_true in Hlt. apply Qdiv_lt_inv in Hlt; [|exact Hsum].
    apply Qnot_le_lt. intros Hle. apply (Qlt_not_le _ _ Hlt).
    apply Qplus_le_compat; [apply Qle_refl | exact Hle]. }
  unfold _c_max_rna_two_letter_ambiguity, two_letter_frac. simpl.
  set (m := ((act + cct) / (act + cct + gct + uct))%Q) in *.
  set (r := ((act + gct) / (act + cct + gct + uct))%Q) in *.
  set (w := ((act + uct) / (act + cct + gct + uct))%Q) in *.
  set (s := ((cct + gct) / (act + cct + gct + uct))%Q) in *.
  set (y := ((cct + uct) / (act + cct + gct + uct))%Q) in *.
  set (k := ((gct + uct) / (act + cct + gct + uct))%Q) in *.
  clearbody m r w s y k.
  destruct (Qlt_bool m r) eqn:H1; simpl;
  destruct (Qlt_bool m w) eqn:H2; simpl;
  repeat match goal with
         | |- context [Qlt_bool ?a ?b] =>
             let H := fresh "Hc" in destruct (Qlt_bool a b) eqn:H; simpl
         end;
  repeat match goal with
         | H : Qlt_bool _ _ = true |- _ => apply Qlt_bool_true in H
         | H : Qlt_bool _ _ = false |- _ => apply Qlt_bool_false in H
         end.
  all: split; [simpl; tauto|].
  all: split;
    [ intros c [<-|[<-|[<-|[<-|[<-|[]]]]]]; simpl; lra |].
  all: split; [first [intros _; reflexivity | intros Hne; congruence]|].
  all: split;
    [ intros HisR;
      first [ discriminate HisR
            | split; [reflexivity | split; [lra | apply HR'; reflexivity]] ] |].
  all: intros Hgc; first [ (specialize (HR Hgc); discriminate HR)
                         | split; [discriminate|];
                           intros c [<-|[<-|[<-|[<-|[<-|[<-|[]]]]]]]; simpl; lra ].
Qed.

Lemma max_2l_ambiguity_exact_witness :
  In (fst (_c_max_rna_two_letter_ambiguity 2%Q 1%Q 1%Q 0%Q))
     ["M"; "R"; "W"; "S"; "Y"; "K"]%char.
Proof.
  apply (max_2l_ambiguity_exact 2%Q 1%Q 1%Q 0%Q). reflexivity.
Defined.

(** ** The status of [_c_rfam_pid_stats] *)

(** A loop that raises does so at some element, after the elements before
    it were run. *)
Lemma for_each_raise {E S A : Type} (body : S -> A -> outcome E S) (l : list A) :
  forall (s : S) (e : E),
    for_each l body s = Raise e ->
    exists l1 a l2 s1,
      l = l1 ++ a :: l2 /\ for_each l1 body s = Done s1 /\ body s1 a = Raise e.
Proof.
  induction l as [|a l IH]; intros s e Hrun; [discriminate Hrun|].
  rewrite for_each_cons in Hrun.
  destruct (body s a) as [s'|e'] eqn:Hb.
  - simpl in Hrun. destruct (IH s' e Hrun) as (l1 & a' & l2 & s1 & -> & Hpre & Hat).
    exists (a :: l1), a', l2, s1. split; [reflexivity|]. split; [|exact Hat].
    rewrite for_each_cons, Hb. exact Hpre.
  - simpl in Hrun. injection Hrun as ->.
    exists [], a, l, s. repeat split. exact Hb.
Qed.

Section PidStatus.
Context {D : Type} {HD : Double D} {L : EaselLib D}.

Lemma pid_pair_status (msa : ESL_MSA D) (i j : nat) (st : D * D * D) :
  (forall st', pid_pair msa i st j = Done st' -> fst (pair_id msa i j) = eslOK) /\
  (forall e, pid_pair msa i st j = Raise e ->
             fst (pair_id msa i j) = e /\ e <> eslOK).
Proof.
  unfold pid_pair. destruct st as [[pid_mean pid_min] pid_max].
  destruct (pair_id msa i j) as [status pid]. simpl.
  destruct (status =? eslOK) eqn:Hs; simpl.
  - apply Z.eqb_eq in Hs. split; [intros _ _; exact Hs | intros e He; discriminate He].
  - apply Z.eqb_neq in Hs. split; [intros st' Hd; discriminate Hd|].
    intros e He. injection He as <-. split; [reflexivity | exact Hs].
Qed.

Lemma pid_inner_done (msa : ESL_MSA D) (i : nat) (js : list nat) :
  forall st st' : D * D * D,
    for_each js (pid_pair msa i) st = Done st' ->
    forall j, In j js -> fst (pair_id msa i j) = eslOK.
Proof.
  induction js as [|j js IH]; intros st st' Hrun j' Hin; [destruct Hin|].
  rewrite for_each_cons in Hrun.
  destruct (pid_pair msa i st j) as [s1|e] eqn:Hp; [|discriminate Hrun].
  simpl in Hrun. destruct Hin as [<-|Hin].
  - exact (proj1 (pid_pair_status msa i j st) s1 Hp).
  - exact (IH s1 st' Hrun j' Hin).
Qed.

Lemma pid_outer_done (msa : ESL_MSA D) (n : nat) (li : list nat) :
  forall st st' : D * D * D,
    for_each li (fun st i => for_each (seq (i + 1) (n - (i + 1))) (pid_pair msa i) st) st
      = Done st' ->
    forall i j, In i li -> In j (seq (i + 1) (n - (i + 1))) ->
                fst (pair_id msa i j) = eslOK.
Proof.
  induction li as [|i li IH]; intros st st' Hrun i' j Hi Hj; [destruct Hi|].
  rewrite for_each_cons in Hrun.
  destruct (for_each (seq (i + 1) (n - (i + 1))) (pid_pair msa i) st) as [s1|e] eqn:Hin;
    [|discriminate Hrun].
  simpl in Hrun. destruct Hi as [<-|Hi].
  - exact (pid_inner_done msa i _ st s1 Hin j Hj).
  - exact (IH s1 st' Hrun i' j Hi Hj).
Qed.

End PidStatus.

(** X18: [_c_rfam_pid_stats] returns normally exactly when the identity of
    every pair of sequences [i < j] is computed with status [eslOK].
    Otherwise it returns early with the status of the first pair, in the
    order of its two loops, for which that fails; every pair before it was
    computed; and [_c_pairwise_identity] croaks on that very pair. *)
Theorem pid_stats_status :
  forall (D : Type) (HD : Double D) (L : EaselLib D) (msa : ESL_MSA D),
    ((forall i j, (i < j < Z.to_nat (nseq msa))%nat -> fst (pair_id msa i j) = eslOK) <->
     (exists r, _c_rfam_pid_stats msa = Done r)) /\
    (forall status,
       _c_rfam_pid_stats msa = Raise status ->
       exists i j,
         (i < j < Z.to_nat (nseq msa))%nat /\
         fst (pair_id msa i j) = status /\ status <> eslOK /\
         (forall i' j', (i' < j' < Z.to_nat (nseq msa))%nat ->
                        (i' < i)%nat \/ (i' = i /\ (j' < j)%nat) ->
                        fst (pair_id msa i' j') = eslOK) /\
         _c_pairwise_identity msa (Z.of_nat i) (Z.of_nat j)
           = croak "_c_pairwise_identity() error, aligned seqs different lengths").
Proof.
  intros D HD L msa. remember (Z.to_nat (nseq msa)) as N eqn:HN.
  assert (Hloop : forall status,
            for_each (seq 0 N)
              (fun st i => for_each (seq (i + 1) (N - (i + 1))) (pid_pair msa i) st)
              (of_int 0, of_int 1, of_int 0) = Raise status ->
            exists i j,
              (i < j < N)%nat /\
              fst (pair_id msa i j) = status /\ status <> eslOK /\
              (forall i' j', (i' < j' < N)%nat ->
                             (i' < i)%nat \/ (i' = i /\ (j' < j)%nat) ->
                             fst (pair_id msa i' j') = eslOK)).
  { intros status Hr.
    apply for_each_raise in Hr as (l1 & i & l2 & s1 & Hsplit & Hpre & Hat).
    apply for_each_raise in Hat as (k1 & j & k2 & s2 & Hsplit2 & Hpre2 & Hat2).
    destruct (proj2 (pid_pair_status msa i j s2) status Hat2) as [Hst Hne].
    assert (Hl1 : l1 = seq 0 i /\ (i < N)%nat).
    { assert (Hlen := f_equal (@List.length nat) Hsplit).
      rewrite length_seq, length_app in Hlen. simpl in Hlen.
      assert (Hi : seq 0 N !! List.length l1 = Some i).
      { rewrite Hsplit. rewrite lookup_app_r by lia. rewrite Nat.sub_diag. reflexivity. }
      apply lookup_seq in Hi as [Hi Hi2]. simpl in Hi. subst i.
      split; [|exact Hi2].
      apply (f_equal (take (List.length l1))) in Hsplit.
      rewrite take_app_length in Hsplit.
      etransitivity; [symmetry; exact Hsplit|].
      rewrite take_seq. f_equal. lia. }
    destruct Hl1 as [-> Hi].
    assert (Hk1 : k1 = seq (i + 1) (j - (i + 1)) /\ (i < j < N)%nat).
    { assert (Hlen := f_equal (@List.length nat) Hsplit2).
      rewrite length_seq, length_app in Hlen. simpl in Hlen.
      assert (Hj : seq (i + 1) (N - (i + 1)) !! List.length k1 = Some j).
      { rewrite Hsplit2. rewrite lookup_app_r by lia. rewrite Nat.sub_diag. reflexivity. }
      apply lookup_seq in Hj as [Hj Hlt]. subst j.
      split; [|clear - Hlt Hi; lia].
      apply (f_equal (take (List.length k1))) in Hsplit2.
      rewrite take_app_length in Hsplit2.
      etransitivity; [symmetry; exact Hsplit2|].
      rewrite take_seq. f_equal. lia. }
    destruct Hk1 as [-> Hj].
    exists i, j. split; [exact Hj|]. split; [exact Hst|]. split; [exact Hne|].
    intros i' j' Hij [Hlt|[-> Hlt]].
    - apply (pid_outer_done msa N (seq 0 i) _ s1 Hpre i' j').
      + apply in_seq. lia.
      + apply in_seq. lia.
    - apply (pid_inner_done msa i _ s1 s2 Hpre2 j'). apply in_seq. lia. }
  split.
  - split.
    + intros Hok. unfold _c_rfam_pid_stats, upto. rewrite <- HN.
      rewrite (pid_outer_loop msa N (seq 0 N)).
      * simpl.
        destruct (fold_left pid_update _ _) as [[pid_mean pid_min] pid_max].
        eexists. reflexivity.
      * intros i j Hi Hj. apply in_seq in Hi. apply in_seq in Hj. apply Hok. lia.
    + intros [r Hr] i j Hij. unfold _c_rfam_pid_stats, upto in Hr. rewrite <- HN in Hr.
      destruct (for_each (seq 0 N)
                  (fun st i => for_each (seq (i + 1) (N - (i + 1))) (pid_pair msa i) st)
                  (of_int 0, of_int 1, of_int 0)) as [s|e] eqn:Hrun;
        [|discriminate Hr].
      apply (pid_outer_done msa N (seq 0 N) _ s Hrun i j); apply in_seq; lia.
  - intros status Hr. unfold _c_rfam_pid_stats, upto in Hr. rewrite <- HN in Hr.
    destruct (for_each (seq 0 N)
                (fun st i => for_each (seq (i + 1) (N - (i + 1))) (pid_pair msa i) st)
                (of_int 0, of_int 1, of_int 0)) as [[[a b] c]|e] eqn:Hrun;
      [discriminate Hr|].
    simpl in Hr. injection Hr as ->.
    destruct (Hloop status eq_refl) as (i & j & Hij & Hst & Hne & Hbefore).
    exists i, j. split; [exact Hij|]. split; [exact Hst|]. split; [exact Hne|].
    split; [exact Hbefore|].
    unfold _c_pairwise_identity.
    destruct (Z.ltb_spec (Z.of_nat i) 0); [lia|].
    destruct (Z.geb_spec (Z.of_nat i) (nseq msa)); [lia|].
    destruct (Z.ltb_spec (Z.of_nat j) 0); [lia|].
    destruct (Z.geb_spec (Z.of_nat j) (nseq msa)); [lia|].
    simpl. rewrite !Nat2Z.id.
    destruct (pair_id msa i j) as [st pid]. simpl in Hst. subst st.
    apply Z.eqb_neq in Hne. rewrite Hne. reflexivity.
Qed.

(** ** [_c_percent_coverage] with Easel's counting *)

Lemma insert_lookup_total_alter {A : Type} `{Inhabited A} (f : A -> A) (l : list A)
    (i : nat) :
  <[i := f (l !!! i)]> l = alter f i l.
Proof.
  rewrite list_insert_as_alter. apply list_alter_ext; [|reflexivity].
  intros x Hx. rewrite (list_lookup_total_correct _ _ _ Hx). reflexivity.
Qed.

(** A loop whose body never raises is a fold. *)
Lemma for_each_total {E S A : Type} (body : S -> A -> outcome E S) (f : S -> A -> S)
    (l : list A) :
  (forall s a, body s a = Done (f s a)) ->
  forall s, for_each l body s = Done (fold_left f l s).
Proof.
  intros Hb. induction l as [|a l IH]; intros s; [reflexivity|].
  rewrite for_each_cons, Hb. simpl. apply IH.
Qed.

Lemma Qfold_acc (l : list Q) :
  forall z z' : Q, (z == z')%Q -> (fold_left Qplus l z == fold_left Qplus l z')%Q.
Proof.
  induction l as [|x l IH]; intros z z' Hz; [exact Hz|].
  change (fold_left Qplus l (z + x) == fold_left Qplus l (z' + x))%Q.
  apply IH. rewrite Hz. reflexivity.
Qed.

Lemma Qfold_shift (l : list Q) :
  forall z w : Q, (fold_left Qplus l (z + w) == fold_left Qplus l z + w)%Q.
Proof.
  induction l as [|x l IH]; intros z w; [reflexivity|].
  change (fold_left Qplus l (z + w + x) == fold_left Qplus l (z + x) + w)%Q.
  rewrite <- IH. apply Qfold_acc. ring.
Qed.

Lemma Qfold_alter_add (w : Q) (l : list Q) :
  forall (p : nat) (z : Q), (p < List.length l)%nat ->
    (fold_left Qplus (alter (fun c => c + w)%Q p l) z == fold_left Qplus l z + w)%Q.
Proof.
  induction l as [|x l IH]; intros p z Hp; [simpl in Hp; lia|].
  destruct p as [|p].
  - change (fold_left Qplus l (z + (x + w)) == fold_left Qplus l (z + x) + w)%Q.
    rewrite <- Qfold_shift. apply Qfold_acc. ring.
  - change (fold_left Qplus (alter (fun c => c + w)%Q p l) (z + x)
            == fold_left Qplus l (z + x) + w)%Q.
    apply IH. simpl in Hp. lia.
Qed.

Section Coverage.
Context {D : Type} {HD : Double D}.

(** Easel's [esl_abc_DCount] does not fail. *)
Lemma abc_DCount_ok (a : ESL_ALPHABET) (ct : list D) (x : Z) (wt : D) :
  fst (Easel.abc_DCount a ct x wt) = eslOK.
Proof.
  unfold Easel.abc_DCount.
  destruct (Easel.abc_XIsCanonical a x || Easel.abc_XIsGap a x); [reflexivity|].
  destruct (Easel.abc_XIsMissing a x || Easel.abc_XIsNonresidue a x); reflexivity.
Qed.

Lemma coverage_count_step (msa : ESL_MSA D) (i : nat) (abc_ct : list (list D))
    (apos : nat) :
  coverage_count (H0 := Easel.lib) msa i abc_ct apos
    = Done (alter (coverage_step (H0 := Easel.lib) msa i apos) apos abc_ct).
Proof.
  unfold coverage_count, coverage_step. simpl.
  destruct (negb (Easel.abc_XIsDegenerate (abc msa) (ax_at msa i (apos + 1)))).
  - assert (Hok := abc_DCount_ok (abc msa) (abc_ct !!! apos)
                     (ax_at msa i (apos + 1)) (of_int 1)).
    rewrite <- (insert_lookup_total_alter
                  (fun row => snd (Easel.abc_DCount (abc msa) row
                                     (ax_at msa i (apos + 1)) (of_int 1)))).
    destruct (Easel.abc_DCount (abc msa) (abc_ct !!! apos)
                (ax_at msa i (apos + 1)) (of_int 1)) as [status row].
    simpl in Hok. subst status. reflexivity.
  - rewrite list_alter_id by reflexivity. reflexivity.
Qed.

(** The function as a map over the columns of the counts of each column. *)
Lemma percent_coverage_run (msa : ESL_MSA D) :
  0 < nseq msa ->
  _c_percent_coverage (H0 := Easel.lib) msa
    = Done (map (fun apos =>
                   Easel.vec_DSum
                     (fold_left (fun row i => coverage_step (H0 := Easel.lib) msa i apos row)
                                (upto (nseq msa))
                                (esl_vec_DSet (K (abc msa) + 1) (of_int 0)))
                     (K (abc msa))
                   / of_int (nseq msa))%D
                (upto (alen msa))).
Proof.
  intros Hn. unfold _c_percent_coverage.
  destruct (Z.leb_spec (nseq msa) 0) as [Hle|_]; [lia|].
  rewrite (for_each_total
             (fun abc_ct i => for_each (upto (alen msa))
                                (coverage_count (H0 := Easel.lib) msa i) abc_ct)
             (fun abc_ct i =>
                fold_left (fun ct apos =>
                             alter (coverage_step (H0 := Easel.lib) msa i apos) apos ct)
                          (upto (alen msa)) abc_ct)).
  - simpl. f_equal. apply map_ext_in. intros apos Hin. apply in_seq in Hin.
    f_equal. f_equal. apply list_lookup_total_correct.
    unfold upto. rewrite fold_fold_alter_own by lia.
    rewrite lookup_replicate_2 by lia. reflexivity.
  - intros s i. apply for_each_total. intros ct apos. apply coverage_count_step.
Qed.

End Coverage.

(** The counts of one column after the sequences of [l]: [K+1] of them, and
    the first [K] add up to the number of sequences with a base residue. *)
Lemma coverage_column_sum (msa : ESL_MSA Q) (apos : nat) (l : list nat) :
  0 <= K (abc msa) ->
  (forall i, In i l -> 0 <= ax_at msa i (apos + 1) < Kp (abc msa)) ->
  forall row : list Q,
    List.length row = Z.to_nat (K (abc msa) + 1) ->
    List.length (fold_left (fun row i => coverage_step (H0 := Easel.lib) msa i apos row)
                           l row)
      = Z.to_nat (K (abc msa) + 1) /\
    (Easel.vec_DSum
       (fold_left (fun row i => coverage_step (H0 := Easel.lib) msa i apos row) l row)
       (K (abc msa))
     == Easel.vec_DSum row (K (abc msa))
        + inject_Z (Z.of_nat (List.length
                      (filter (fun i => base_residue_at msa i apos = true) l))))%Q.
Proof.
  intros HK. induction l as [|i l IH]; intros Hrange row Hlen.
  - simpl. split; [exact Hlen|]. ring.
  - simpl fold_left.
    assert (Hx := Hrange i (or_introl eq_refl)).
    assert (Hstep :
      List.length (coverage_step (H0 := Easel.lib) msa i apos row)
        = Z.to_nat (K (abc msa) + 1) /\
      (Easel.vec_DSum (coverage_step (H0 := Easel.lib) msa i apos row) (K (abc msa))
       == Easel.vec_DSum row (K (abc msa))
          + (if base_residue_at msa i apos then 1 else 0))%Q).
    { unfold coverage_step, base_residue_at. simpl.
      unfold Easel.abc_XIsDegenerate, Easel.abc_DCount, Easel.abc_XIsCanonical,
             Easel.abc_XIsGap, Easel.abc_XIsMissing, Easel.abc_XIsNonresidue.
      set (x := ax_at msa i (apos + 1)) in *.
      rewrite Z.gtb_ltb.
      destruct (Z.ltb_spec x (K (abc msa))) as [Hc|Hc]; simpl.
      - destruct (Z.ltb_spec (K (abc msa)) x) as [Hg|_]; [lia|]. simpl.
        split; [rewrite length_alter; exact Hlen|].
        unfold Easel.vec_DSum. simpl.
        rewrite take_alter_lt by lia.
        apply (Qfold_alter_add 1). rewrite length_take. lia.
      - destruct (Z.eqb_spec x (K (abc msa))) as [He|Hne]; simpl.
        + destruct (Z.ltb_spec (K (abc msa)) x) as [Hg|_]; [lia|]. simpl.
          split; [rewrite length_alter; exact Hlen|].
          unfold Easel.vec_DSum. simpl.
          rewrite take_alter_ge by lia. ring.
        + destruct (Z.ltb_spec (K (abc msa)) x) as [_|Hg]; [|lia]. simpl.
          destruct (Z.ltb_spec x (Kp (abc msa) - 2)) as [Hd|Hd]; simpl.
          * split; [exact Hlen | ring].
          * destruct (Z.eqb_spec x (Kp (abc msa) - 1)) as [Hm|Hm]; simpl;
              [split; [exact Hlen | ring]|].
            destruct (Z.eqb_spec x (Kp (abc msa) - 2)) as [Hnr|Hnr]; simpl;
              [split; [exact Hlen | ring] | lia]. }
    destruct Hstep as [Hlen1 Hsum1].
    destruct (IH (fun k Hk => Hrange k (or_intror Hk))
                 (coverage_step (H0 := Easel.lib) msa i apos row) Hlen1)
      as [Hlen2 Hsum2].
    split; [exact Hlen2|]. rewrite Hsum2, Hsum1. rewrite filter_cons.
    destruct (base_residue_at msa i apos).
    + rewrite decide_True by reflexivity. simpl List.length.
      rewrite Nat2Z.inj_succ, <- Z.add_1_l, inject_Z_plus. ring.
    + rewrite decide_False by discriminate. ring.
Qed.

(** X19: with Easel's [esl_abc_XIsDegenerate], [esl_abc_DCount] and
    [esl_vec_DSum], and without rounding: on an alignment with at least one
    sequence whose codes are codes of the alphabet, [_c_percent_coverage]
    returns one ratio for each column, the number of sequences that hold one
    of the [K] base residues there (a gap, a degenerate residue, a
    nonresidue or missing data does not count) divided by [nseq]; each ratio
    lies between 0 and 1. *)
Theorem percent_coverage_ratios :
  forall msa : ESL_MSA Q,
    0 < nseq msa ->
    0 <= K (abc msa) ->
    (forall i apos, (i < Z.to_nat (nseq msa))%nat -> (apos < Z.to_nat (alen msa))%nat ->
                    0 <= ax_at msa i (apos + 1) < Kp (abc msa)) ->
    exists cov,
      _c_percent_coverage (H0 := Easel.lib) msa = Done cov /\
      List.length cov = Z.to_nat (alen msa) /\
      forall apos, (apos < Z.to_nat (alen msa))%nat ->
        exists r,
          cov !! apos = Some r /\
          (r == inject_Z (Z.of_nat (List.length
                    (filter (fun i => base_residue_at msa i apos = true)
                            (upto (nseq msa)))))
                / inject_Z (nseq msa))%Q /\
          (0 <= r <= 1)%Q.
Proof.
  intros msa Hn HK Hcodes.
  eexists. split; [apply percent_coverage_run; exact Hn|].
  split; [rewrite length_map; apply length_seq|].
  intros apos Hp.
  eexists. split.
  { change (map ?f ?l) with (f <$> l).
    rewrite list_lookup_fmap. unfold upto at 2. rewrite lookup_seq_lt by exact Hp.
    simpl. reflexivity. }
  destruct (coverage_column_sum msa apos (upto (nseq msa)) HK
              (fun i Hi => Hcodes i apos (proj2 (proj1 (in_seq _ _ _) Hi)) Hp)
              (esl_vec_DSet (K (abc msa) + 1) (of_int 0))
              (length_replicate _ _)) as [_ Hsum].
  assert (Hzero : (Easel.vec_DSum (esl_vec_DSet (K (abc msa) + 1) (of_int 0))
                                  (K (abc msa)) == 0)%Q).
  { unfold Easel.vec_DSum, esl_vec_DSet. simpl.
    rewrite take_replicate.
    generalize (Z.to_nat (K (abc msa)) `min` Z.to_nat (K (abc msa) + 1))%nat.
    intros n. induction n as [|n IHn]; [reflexivity|].
    change (fold_left Qplus (replicate n 0%Q) (0 + 0) == 0)%Q.
    rewrite Qfold_shift, IHn. reflexivity. }
  rewrite Hzero, Qplus_0_l in Hsum.
  assert (Heq : (Easel.vec_DSum
                   (fold_left (fun row i => coverage_step (H0 := Easel.lib) msa i apos row)
                              (upto (nseq msa))
                              (esl_vec_DSet (K (abc msa) + 1) (of_int 0)))
                   (K (abc msa)) / of_int (nseq msa)
                 == inject_Z (Z.of_nat (List.length
                       (filter (fun i => base_residue_at msa i apos = true)
                               (upto (nseq msa)))))
                    / inject_Z (nseq msa))%Q).
  { simpl. rewrite Hsum. reflexivity. }
  split; [exact Heq|].
  rewrite Heq. apply Q_frac_unit; [|exact Hn].
  assert (Hf := length_filter (fun i => base_residue_at msa i apos = true)
                              (upto (nseq msa))).
  assert (Hlen : List.length (upto (nseq msa)) = Z.to_nat (nseq msa)) by apply length_seq.
  lia.
Qed.

Lemma percent_coverage_ratios_witness :
  exists cov, _c_percent_coverage (msa_hairpin (D := Q)) = Done cov /\
              List.length cov = Z.to_nat (alen (msa_hairpin (D := Q))).
Proof.
  destruct (percent_coverage_ratios msa_hairpin) as (cov & Hrun & Hlen & _).
  - reflexivity.
  - vm_compute. discriminate.
  - intros i apos Hi Hp.
    change (i < 3)%nat in Hi. change (apos < 3)%nat in Hp.
    destruct i as [|[|[|i]]]; try lia;
      destruct apos as [|[|[|apos]]]; try lia;
      vm_compute; (split; [discriminate | reflexivity]).
  - exists cov. split; [exact Hrun | exact Hlen].
Defined.

(** ** Lengths in the lines of [_c_rfam_qc_stats] *)

Section QcLengths.
Context {D : Type} {HD : Double D} {L : EaselLib D}.

(** What a successful [_c_rfam_comp_and_len_stats] leaves in the length
    fields. *)
Lemma comp_lengths_done (msa : ESL_MSA D) (c : comp_len_stats) :
  _c_rfam_comp_and_len_stats msa = Done c ->
  lenA c = map (fun i => residue_count (abc msa) (row_codes msa i))
               (seq 0 (Z.to_nat (nseq msa))) /\
  len_tot c = fold_left (fun s i => s + residue_count (abc msa) (row_codes msa i))
                        (seq 0 (Z.to_nat (nseq msa))) 0 /\
  ((0 < Z.to_nat (nseq msa))%nat ->
   forall i, (i < Z.to_nat (nseq msa))%nat ->
             len_min c <= residue_count (abc msa) (row_codes msa i) <= len_max c).
Proof.
  intros Hrun. unfold _c_rfam_comp_and_len_stats in Hrun.
  destruct (negb (truthy (Z.land (flags msa) eslMSA_DIGITAL))); [discriminate Hrun|].
  match type of Hrun with
  | for_each _ _ ?s = _ => set (st0 := s) in Hrun
  end.
  destruct (comp_lengths_loop msa st0 (Z.to_nat (nseq msa))
              eq_refl eq_refl eq_refl eq_refl (Z.to_nat (nseq msa)) c (le_n _) Hrun)
    as (Hlen & Hdone & _ & Htot & _ & Hpos).
  split; [apply list_as_map; assumption|]. split; [exact Htot|].
  intros Hn. destruct (Hpos Hn) as (Hall & _). exact Hall.
Qed.

End QcLengths.




(** ** Lengths and [_c_is_residue] *)

Lemma filter_map_length {A B : Type} (p : B -> bool) (g : A -> B) (l : list A) :
  List.length (filter (fun b => p b = true) (map g l))
    = List.length (filter (fun a => p (g a) = true) l).
Proof.
  induction l as [|a l IH]; [reflexivity|].
  simpl map. rewrite !filter_cons.
  destruct (decide (p (g a) = true)); simpl; rewrite IH; reflexivity.
Qed.

Lemma filter_seq_succ (p : nat -> bool) (n : nat) :
  forall a,
    List.length (filter (fun k => p (k + 1)%nat = true) (seq a n))
      = List.length (filter (fun k => p k = true) (seq (S a) n)).
Proof.
  induction n as [|n IH]; intros a; [reflexivity|].
  simpl seq. rewrite !filter_cons. rewrite (Nat.add_1_r a).
  destruct (decide (p (S a) = true)); simpl; rewrite IH; reflexivity.
Qed.

(** X21: the length that [_c_rfam_comp_and_len_stats] reports for a
    sequence is the number of alignment positions [1..alen] at which
    [_c_is_residue] answers 1 for that sequence. *)
Theorem comp_len_counts_residues :
  forall (D : Type) (HD : Double D) (L : EaselLib D) (msa : ESL_MSA D)
         (c : comp_len_stats) (i : nat),
    _c_rfam_comp_and_len_stats msa = Done c ->
    (i < Z.to_nat (nseq msa))%nat ->
    is_digital msa = true /\
    lenA c !! i
      = Some (fold_left (fun n apos => n + _c_is_residue msa i apos)
                        (seq 1 (Z.to_nat (alen msa))) 0).
Proof.
  intros D HD L msa c i Hrun Hi.
  assert (Hdig : is_digital msa = true).
  { unfold _c_rfam_comp_and_len_stats in Hrun. unfold is_digital.
    destruct (truthy (Z.land (flags msa) eslMSA_DIGITAL)); [reflexivity|].
    discriminate Hrun. }
  split; [exact Hdig|].
  destruct (comp_lengths_done msa c Hrun) as (HlenA & _ & _).
  rewrite HlenA. change (map ?f ?l) with (f <$> l).
  rewrite list_lookup_fmap, lookup_seq_lt by exact Hi. simpl. f_equal.
  unfold _c_is_residue. rewrite Hdig.
  rewrite (fold_add_indicator
             (fun apos => esl_abc_XIsResidue (abc msa) (ax_at msa i apos))).
  unfold residue_count, row_codes, upto.
  rewrite (filter_map_length (fun x => esl_abc_XIsResidue (abc msa) x)).
  rewrite (filter_seq_succ (fun k => esl_abc_XIsResidue (abc msa) (ax_at msa i k))).
  lia.
Qed.

Lemma comp_len_counts_residues_witness :
  exists c, _c_rfam_comp_and_len_stats (msa_hairpin (D := Q)) = Done c /\
            lenA c !! 0%nat
              = Some (fold_left (fun n apos => n + _c_is_residue msa_hairpin 0 apos)
                                (seq 1 (Z.to_nat (alen (msa_hairpin (D := Q))))) 0).
Proof.
  destruct (_c_rfam_comp_and_len_stats (msa_hairpin (D := Q))) as [c|e] eqn:Hc;
    [|vm_compute in Hc; discriminate Hc].
  exists c. split; [reflexivity|].
  apply (comp_len_counts_residues Q Double_Q Easel.lib msa_hairpin c 0 Hc).
  vm_compute. lia.
Defined.

(** ** [_c_bp_dist] as a distance *)

(** X22: [_c_bp_dist] is a distance on basepairs: it takes the values 0,
    1 and 2 only, is 0 exactly between a basepair and itself, and satisfies
    the triangle inequality. *)
Theorem bp_dist_metric :
  forall a1 b1 a2 b2 a3 b3 : Z,
    0 <= _c_bp_dist a1 b1 a2 b2 <= 2 /\
    (_c_bp_dist a1 b1 a2 b2 = 0 <-> a1 = a2 /\ b1 = b2) /\
    _c_bp_dist a1 b1 a3 b3 <= _c_bp_dist a1 b1 a2 b2 + _c_bp_dist a2 b2 a3 b3.
Proof.
  intros a1 b1 a2 b2 a3 b3. unfold _c_bp_dist.
  destruct (Z.eqb_spec a1 a2), (Z.eqb_spec b1 b2), (Z.eqb_spec a2 a3),
           (Z.eqb_spec b2 b3), (Z.eqb_spec a1 a3), (Z.eqb_spec b1 b3);
    simpl; repeat split; try lia; try congruence; intros; try lia; try tauto.
Qed.

(** ** The range of the covariation statistic *)

Lemma bp_dist_range (a1 b1 a2 b2 : Z) : 0 <= _c_bp_dist a1 b1 a2 b2 <= 2.
Proof.
  unfold _c_bp_dist.
  destruct ((a1 =? a2) && (b1 =? b2)); [lia|].
  destruct (negb (a1 =? a2) && negb (b1 =? b2)); lia.
Qed.

Lemma bp_contrib_bound (msa : ESL_MSA Q) (rposA : list Z) (apos i j : nat) :
  (0 <= wgt msa !!! i + wgt msa !!! j)%Q ->
  (- (2) * (wgt msa !!! i + wgt msa !!! j) <= bp_contrib msa rposA apos i j
   <= 2 * (wgt msa !!! i + wgt msa !!! j))%Q.
Proof.
  intros Hw. unfold bp_contrib. simpl.
  set (d := _c_bp_dist _ _ _ _).
  assert (Hd : 0 <= d <= 2) by apply bp_dist_range.
  set (s := (wgt msa !!! i + wgt msa !!! j)%Q) in *.
  assert (H1 : (inject_Z d * s <= 2 * s)%Q).
  { apply Qmult_le_compat_r; [|exact Hw].
    change 2%Q with (inject_Z 2). rewrite <- Zle_Qle. lia. }
  assert (H2 : (0 * s <= inject_Z d * s)%Q).
  { apply Qmult_le_compat_r; [|exact Hw].
    change 0%Q with (inject_Z 0). rewrite <- Zle_Qle. lia. }
  assert (H3 : (inject_Z (-1 * d) * s == - (inject_Z d * s))%Q).
  { rewrite inject_Z_mult. change (inject_Z (-1)) with (- (1))%Q. ring. }
  destruct (bp_canonical msa rposA i apos && bp_canonical msa rposA j apos).
  - split; lra.
  - rewrite H3. split; lra.
Qed.

(** Over a list of visited pairs, the sum of the contributions stays within
    twice the sum of the weights. *)
Lemma bp_pairs_bound (msa : ESL_MSA Q) (rposA : list Z) (apos : nat)
    (pairs : list (nat * nat)) :
  (forall i j, In (i, j) pairs -> (0 <= wgt msa !!! i + wgt msa !!! j)%Q) ->
  forall c n : Q,
    (0 <= n)%Q -> (- (2) * n <= c <= 2 * n)%Q ->
    (0 <= fold_left (fun c '(i, j) => c + (wgt msa !!! i + wgt msa !!! j))%Q pairs n)%Q /\
    (- (2) * fold_left (fun c '(i, j) => c + (wgt msa !!! i + wgt msa !!! j))%Q pairs n
     <= fold_left (fun c '(i, j) => c + bp_contrib msa rposA apos i j)%Q pairs c
     <= 2 * fold_left (fun c '(i, j) => c + (wgt msa !!! i + wgt msa !!! j))%Q pairs n)%Q.
Proof.
  induction pairs as [|[i j] pairs IH]; intros Hw c n Hn Hc.
  - simpl. split; [exact Hn | exact Hc].
  - simpl fold_left.
    assert (Hij := Hw i j (or_introl eq_refl)).
    assert (Hb := bp_contrib_bound msa rposA apos i j Hij).
    apply IH.
    + intros i' j' Hin. apply Hw. right. exact Hin.
    + lra.
    + split; lra.
Qed.

Lemma bp_pairs_weights (msa : ESL_MSA Q) (rposA : list Z) (apos : nat) :
  (forall i, (i < Z.to_nat (nseq msa))%nat -> (0 <= wgt msa !!! i)%Q) ->
  forall i j, In (i, j) (bp_pairs msa rposA apos) ->
              (0 <= wgt msa !!! i + wgt msa !!! j)%Q.
Proof.
  intros Hw i j Hin. unfold bp_pairs in Hin.
  apply in_flat_map in Hin as (i' & Hi' & Hin). apply in_seq in Hi'.
  destruct (bp_included msa rposA i' apos); [|destruct Hin].
  apply in_map_iff in Hin as (j' & Heq & Hj'). apply in_seq in Hj'.
  injection Heq as <- <-.
  assert (H1 := Hw i' ltac:(lia)). assert (H2 := Hw j' ltac:(lia)). lra.
Qed.

(** The raw sums of one column. *)
Lemma bp_column_bound (msa : ESL_MSA Q) (rposA : list Z) (apos : nat) :
  (forall i, (i < Z.to_nat (nseq msa))%nat -> (0 <= wgt msa !!! i)%Q) ->
  (apos < Z.to_nat (alen msa))%nat ->
  exists c n : Q,
    covA (bp_accumulate msa rposA) !! apos = Some c /\
    cov_cntA (bp_accumulate msa rposA) !! apos = Some n /\
    (0 <= n)%Q /\ (- (2) * n <= c <= 2 * n)%Q.
Proof.
  intros Hw Hp.
  destruct (bp_accumulate_column msa rposA apos Hp) as (Hc & Hn & _).
  rewrite bp_step_cov_pairs in Hc. rewrite bp_step_cnt_pairs in Hn.
  eexists. eexists. split; [exact Hc|]. split; [exact Hn|].
  apply (bp_pairs_bound msa rposA apos).
  - apply (bp_pairs_weights msa rposA apos Hw).
  - apply Qle_refl.
  - split; vm_compute; discriminate.
Qed.

Section CovarianceRun.
Context {D : Type} {HD : Double D} {L : EaselLib D}.
Local Open Scope dbl_scope.

(** The function on a well-formed structure, with every field. *)
Lemma bp_stats_run_full (msa : ESL_MSA D) (ct : list Z) :
  esl_wuss2ct (esl_wuss_nopseudo (ss_cons msa)) (alen msa) = (eslOK, ct) ->
  _c_rfam_bp_stats msa
    = Done (let rposA := snd (bp_located (alen msa) ct) in
            let acc := bp_accumulate msa rposA in
            {| ret_nbp := fst (bp_located (alen msa) ct);
               ret_rposA := rposA;
               ret_seq_canA := seq_canA acc;
               ret_pos_canA := pos_canA acc;
               ret_covA := fold_left (bp_normalize rposA (cov_cntA acc))
                                     (upto (alen msa)) (covA acc);
               ret_mean_cov :=
                 if (fst (bp_located (alen msa) ct) =? 0)%Z then of_int 0
                 else esl_vec_DSum (covA acc) (alen msa)
                      / esl_vec_DSum (cov_cntA acc) (alen msa) |}).
Proof.
  intros Hct. unfold _c_rfam_bp_stats, bp_located. rewrite Hct. simpl.
  destruct (fold_left (bp_locate ct) (upto (alen msa)) (0%Z, esl_vec_ISet (alen msa) (-1)%Z))
    as [nbp rposA].
  reflexivity.
Qed.

Lemma bp_accumulate_cov_lengths (msa : ESL_MSA D) (rposA : list Z) :
  List.length (covA (bp_accumulate msa rposA)) = Z.to_nat (alen msa) /\
  List.length (cov_cntA (bp_accumulate msa rposA)) = Z.to_nat (alen msa).
Proof.
  unfold bp_accumulate. rewrite bp_rows_fold. simpl. split.
  - rewrite fold_left_length_inv.
    + unfold esl_vec_DSet. apply length_replicate.
    + intros arr i. apply fold_left_length_inv. intros arr' apos. apply length_alter.
  - rewrite fold_left_length_inv.
    + unfold esl_vec_DSet. apply length_replicate.
    + intros arr i. apply fold_left_length_inv. intros arr' apos. apply length_alter.
Qed.

(** The entries of [covA] as returned. *)
Lemma bp_normalized_entry (msa : ESL_MSA D) (rposA : list Z) (apos : nat) (x : D) :
  fold_left (bp_normalize rposA (cov_cntA (bp_accumulate msa rposA)))
            (upto (alen msa)) (covA (bp_accumulate msa rposA)) !! apos = Some x ->
  (apos < Z.to_nat (alen msa))%nat /\
  exists c, covA (bp_accumulate msa rposA) !! apos = Some c /\
            x = bp_norm rposA (cov_cntA (bp_accumulate msa rposA)) apos c.
Proof.
  intros Hx.
  assert (Hp : (apos < Z.to_nat (alen msa))%nat).
  { apply lookup_lt_Some in Hx. rewrite bp_normalize_fold in Hx.
    rewrite fold_left_length_inv in Hx by (intros arr k; apply length_alter).
    rewrite (proj1 (bp_accumulate_cov_lengths msa rposA)) in Hx. exact Hx. }
  split; [exact Hp|].
  rewrite bp_normalize_fold in Hx. unfold upto in Hx.
  rewrite fold_alter_own in Hx. rewrite decide_True in Hx by lia.
  destruct (covA (bp_accumulate msa rposA) !! apos) as [c|]; [|discriminate Hx].
  simpl in Hx. injection Hx as <-. exists c. split; reflexivity.
Qed.

End CovarianceRun.

Lemma Qfold_pair_bound (cs ns : list Q) :
  Forall2 (fun c n => 0 <= n /\ - (2) * n <= c <= 2 * n)%Q cs ns ->
  forall c0 n0 : Q,
    (0 <= n0)%Q -> (- (2) * n0 <= c0 <= 2 * n0)%Q ->
    (0 <= fold_left Qplus ns n0)%Q /\
    (- (2) * fold_left Qplus ns n0 <= fold_left Qplus cs c0
     <= 2 * fold_left Qplus ns n0)%Q.
Proof.
  induction 1 as [|c n cs ns [Hn Hc] _ IH]; intros c0 n0 Hn0 Hc0.
  - simpl. split; [exact Hn0 | exact Hc0].
  - simpl. apply IH; [lra | split; lra].
Qed.

Lemma Qdiv_range (c n : Q) :
  (0 < n)%Q -> (- (2) * n <= c <= 2 * n)%Q -> (- (2) <= c / n <= 2)%Q.
Proof.
  intros Hn [Hlo Hhi]. split.
  - apply Qle_shift_div_l; [exact Hn | exact Hlo].
  - apply Qle_shift_div_r; [exact Hn | exact Hhi].
Qed.

Lemma bp_norm_range (rposA : list Z) (cnt : list Q) (apos : nat) (c : Q) :
  (0 <= cnt !!! apos)%Q ->
  (- (2) * (cnt !!! apos) <= c <= 2 * (cnt !!! apos))%Q ->
  (rposA !!! apos = -1 -> (- (2) <= c <= 2)%Q) ->
  (- (2) <= bp_norm rposA cnt apos c <= 2)%Q.
Proof.
  intros Hn0 Hb Hu. unfold bp_norm.
  destruct (Z.eqb_spec (rposA !!! apos) (-1)) as [Heq|Hne]; cbn [negb andb].
  - apply Hu. exact Heq.
  - destruct (dlt (lit_1E_10 (D := Q)) (fabs (cnt !!! apos))) eqn:Hbig.
    + change (Qlt_bool (lit_1E_10 (D := Q)) (Qabs (cnt !!! apos)) = true) in Hbig.
      apply Qlt_bool_true in Hbig. rewrite Qabs_pos in Hbig by exact Hn0.
      apply Qdiv_range; [|exact Hb].
      apply Qle_lt_trans with (y := lit_1E_10 (D := Q)); [|exact Hbig].
      vm_compute. discriminate.
    + change (Qlt_bool (lit_1E_10 (D := Q)) (Qabs (cnt !!! apos)) = false) in Hbig.
      apply Qlt_bool_false in Hbig. rewrite Qabs_pos in Hbig by exact Hn0.
      assert (Hsmall : (lit_1E_10 (D := Q) <= 1)%Q) by (vm_compute; discriminate).
      split; lra.
Qed.

(** X23: without rounding, with Easel's [esl_vec_DSum] and sequence
    weights that are not negative, the covariation that [_c_rfam_bp_stats]
    returns for a column lies between -2 and 2, whether or not the column
    was divided by its count; and so does the mean covariation, whenever
    the weights it divides by add up to more than 0. *)
Theorem bp_stats_covariation_range :
  forall (msa : ESL_MSA Q) (ct : list Z),
    (forall i, (i < Z.to_nat (nseq msa))%nat -> (0 <= wgt msa !!! i)%Q) ->
    Easel.wuss2ct (Easel.wuss_nopseudo (ss_cons msa)) (alen msa) = (eslOK, ct) ->
    exists b,
      _c_rfam_bp_stats (H0 := Easel.lib) msa = Done b /\
      (forall apos x, ret_covA b !! apos = Some x -> (- (2) <= x <= 2)%Q) /\
      ((0 < Easel.vec_DSum (cov_cntA (bp_accumulate msa (ret_rposA b))) (alen msa))%Q ->
       (- (2) <= ret_mean_cov b <= 2)%Q).
Proof.
  intros msa ct Hw Hct.
  eexists. split; [apply (bp_stats_run_full (L := Easel.lib) msa ct Hct)|].
  simpl. set (rposA := snd (bp_located (alen msa) ct)).
  split.
  - intros apos x Hx.
    apply bp_normalized_entry in Hx as (Hp & c & Hc & ->).
    destruct (bp_column_bound msa rposA apos Hw Hp) as (c' & n & Hc' & Hn & Hn0 & Hb).
    rewrite Hc in Hc'. injection Hc' as <-.
    apply bp_norm_range.
    + rewrite (list_lookup_total_correct _ _ _ Hn). exact Hn0.
    + rewrite (list_lookup_total_correct _ _ _ Hn). exact Hb.
    + intros Hu. destruct (bp_accumulate_unpaired msa rposA apos Hp Hu) as [Hz _].
      rewrite Hc in Hz. injection Hz as ->. split; vm_compute; discriminate.
  - intros Hpos.
    destruct (fst (bp_located (alen msa) ct) =? 0); [split; vm_compute; discriminate|].
    apply Qdiv_range; [exact Hpos|].
    unfold Easel.vec_DSum in *. simpl in *.
    destruct (bp_accumulate_cov_lengths msa rposA) as [Hl1 Hl2].
    rewrite !take_ge by lia.
    apply Qfold_pair_bound; [| apply Qle_refl | split; vm_compute; discriminate].
    apply Forall2_same_length_lookup_2; [congruence|].
    intros apos c n Hc Hn.
    assert (Hp : (apos < Z.to_nat (alen msa))%nat)
      by (apply lookup_lt_Some in Hc; lia).
    destruct (bp_column_bound msa rposA apos Hw Hp) as (c' & n' & Hc' & Hn' & Hn0 & Hb).
    rewrite Hc in Hc'. rewrite Hn in Hn'. injection Hc' as <-. injection Hn' as <-.
    split; [exact Hn0 | exact Hb].
Qed.

Lemma bp_stats_covariation_range_witness :
  exists b, _c_rfam_bp_stats (msa_hairpin (D := Q)) = Done b /\
            Forall (fun x => - (2) <= x <= 2)%Q (ret_covA b).
Proof.
  destruct (bp_stats_covariation_range msa_hairpin [0; 3; 0; 1]) as (b & Hb & Hcol & _).
  - intros i Hi. change (i < 3)%nat in Hi.
    destruct i as [|[|[|i]]]; try lia; vm_compute; discriminate.
  - reflexivity.
  - exists b. split; [exact Hb|]. apply Forall_lookup_2. exact Hcol.
Defined.
